(** * ResumeTower: the standalone IMAP poller server

    A shallow embedding of the email-to-job ingestion pipeline and of its
    HTTP control surface, together with the properties the specification
    states about them.

    Conventions.
    - A JavaScript string is a Rocq [string]; text is ASCII, so
      [toLowerCase] folds the letters A-Z and [trim] strips the ASCII white
      space characters.
    - [null] and [undefined] of an optional field are [None].
    - Platform services that are not code of the repository (the WHATWG
      [URL] parser, [JSON.stringify], [String(number)]) are fields of a
      [Platform] record; every definition that needs one takes it as an
      argument.
    - Each call to an external collaborator (the generation capability, the
      job store transport, the mailbox) is represented by its outcome, which
      the caller supplies: the functions are total in those outcomes. *)

From Stdlib Require Import ZArith QArith List String Ascii Bool Arith Lia.
From Stdlib Require Import DecimalString.
Import ListNotations.

Set Warnings "-register-all,-abstract-large-number".
Close Scope Q_scope.
Open Scope string_scope.
Open Scope list_scope.

(* ================================================================== *)
(** ** JavaScript string primitives *)
(* ================================================================== *)

Module JsString.

Definition is_space (c : ascii) : bool :=
  let n := nat_of_ascii c in
  (n =? 32)%nat || ((9 <=? n)%nat && (n <=? 13)%nat).

Definition is_upper (c : ascii) : bool :=
  let n := nat_of_ascii c in (65 <=? n)%nat && (n <=? 90)%nat.

Definition lower_char (c : ascii) : ascii :=
  if is_upper c then ascii_of_nat (nat_of_ascii c + 32) else c.

(** [s.toLowerCase()] *)
Fixpoint toLowerCase (s : string) : string :=
  match s with
  | EmptyString => EmptyString
  | String c r => String (lower_char c) (toLowerCase r)
  end.

Definition is_empty (s : string) : bool :=
  match s with EmptyString => true | _ => false end.

Fixpoint trimStart (s : string) : string :=
  match s with
  | EmptyString => EmptyString
  | String c r => if is_space c then trimStart r else s
  end.

Fixpoint trimEnd (s : string) : string :=
  match s with
  | EmptyString => EmptyString
  | String c r =>
      let t := trimEnd r in
      if is_space c && is_empty t then EmptyString else String c t
  end.

(** [s.trim()] *)
Definition trim (s : string) : string := trimEnd (trimStart s).

(** [s.includes(sub)] *)
Fixpoint includes (s sub : string) : bool :=
  String.prefix sub s ||
  match s with
  | EmptyString => false
  | String _ r => includes r sub
  end.

(** [s.slice(0, n)] *)
Fixpoint slice0 (n : nat) (s : string) : string :=
  match n, s with
  | S k, String c r => String c (slice0 k r)
  | _, _ => EmptyString
  end.

(** [s.split(sep)[0]] for a one-character separator *)
Fixpoint split_first (sep : ascii) (s : string) : string :=
  match s with
  | EmptyString => EmptyString
  | String c r => if Ascii.eqb c sep then EmptyString else String c (split_first sep r)
  end.

(** [parts.join(sep)] *)
Definition join (sep : string) (parts : list string) : string :=
  String.concat sep parts.

End JsString.
Import JsString.

(* ================================================================== *)
(** ** SHA-256 (FIPS 180-4), as [createHash("sha256")...digest("hex")] *)
(* ================================================================== *)

Module SHA256.
Local Open Scope Z_scope.

Definition mask32 : Z := 0xffffffff.
Definition add32 (x y : Z) : Z := (x + y) mod 2 ^ 32.
Definition rotr (n x : Z) : Z :=
  Z.lor (Z.shiftr x n) (Z.land (Z.shiftl x (32 - n)) mask32).
Definition xor3 (a b c : Z) : Z := Z.lxor (Z.lxor a b) c.

Definition bsig0 x := xor3 (rotr 2 x) (rotr 13 x) (rotr 22 x).
Definition bsig1 x := xor3 (rotr 6 x) (rotr 11 x) (rotr 25 x).
Definition ssig0 x := xor3 (rotr 7 x) (rotr 18 x) (Z.shiftr x 3).
Definition ssig1 x := xor3 (rotr 17 x) (rotr 19 x) (Z.shiftr x 10).
Definition Ch x y z := Z.lxor (Z.land x y) (Z.land (Z.lxor x mask32) z).
Definition Maj x y z := xor3 (Z.land x y) (Z.land x z) (Z.land y z).

(** The first [n] primes, by trial division. *)
Definition is_prime (n : nat) : bool :=
  forallb (fun d => negb (n mod d =? 0)%nat) (seq 2 (n - 2)).

Definition first_primes (n : nat) : list Z :=
  map Z.of_nat (firstn n (filter is_prime (seq 2 400))).

(** Integer cube root, bit by bit from bit [n - 1] down. *)
Fixpoint cube_root_bits (n : nat) (x r : Z) : Z :=
  match n with
  | O => r
  | S k =>
      let r' := r + 2 ^ Z.of_nat k in
      if r' * r' * r' <=? x then cube_root_bits k x r' else cube_root_bits k x r
  end.

(** Round constants: the first 32 bits of the fractional parts of the cube
    roots of the first 64 primes. *)
Definition K : list Z :=
  Eval vm_compute in
    map (fun p => cube_root_bits 40 (p * 2 ^ 96) 0 mod 2 ^ 32) (first_primes 64).

(** Initial hash value: the first 32 bits of the fractional parts of the
    square roots of the first 8 primes. *)
Definition H0 : list Z :=
  Eval vm_compute in map (fun p => Z.sqrt (p * 2 ^ 64) mod 2 ^ 32) (first_primes 8).

(** Message schedule; [w] holds the words computed so far, newest first. *)
Fixpoint extend (n : nat) (w : list Z) : list Z :=
  match n with
  | O => w
  | S n' =>
      let x := add32 (add32 (ssig1 (nth 1 w 0)) (nth 6 w 0))
                     (add32 (ssig0 (nth 14 w 0)) (nth 15 w 0)) in
      extend n' (x :: w)
  end.

Definition schedule (block : list Z) : list Z := rev (extend 48 (rev block)).

Definition round (st : list Z) (kw : Z * Z) : list Z :=
  match st with
  | [a; b; c; d; e; f; g; h] =>
      let t1 := add32 (add32 (add32 h (bsig1 e)) (add32 (Ch e f g) (fst kw))) (snd kw) in
      let t2 := add32 (bsig0 a) (Maj a b c) in
      [add32 t1 t2; a; b; c; add32 d t1; e; f; g]
  | _ => st
  end.

Definition compress (h : list Z) (block : list Z) : list Z :=
  map (fun p => add32 (fst p) (snd p))
      (combine h (fold_left round (combine K (schedule block)) h)).

Definition be32 (bs : list Z) : Z :=
  fold_left (fun acc b => acc * 256 + b) bs 0.

Fixpoint words (n : nat) (bs : list Z) : list Z :=
  match n with
  | O => []
  | S n' => be32 (firstn 4 bs) :: words n' (skipn 4 bs)
  end.

Fixpoint blocks (n : nat) (bs : list Z) : list (list Z) :=
  match n with
  | O => []
  | S n' => words 16 (firstn 64 bs) :: blocks n' (skipn 64 bs)
  end.

Definition be64_bytes (x : Z) : list Z :=
  map (fun i => (Z.shiftr x (8 * i)) mod 256) [7; 6; 5; 4; 3; 2; 1; 0].

Definition pad (bs : list Z) : list Z :=
  let len := Z.of_nat (List.length bs) in
  bs ++ [0x80] ++ repeat 0 (Z.to_nat ((55 - len) mod 64)) ++ be64_bytes (8 * len).

Definition digest (bs : list Z) : list Z :=
  let p := pad bs in
  fold_left compress (blocks (List.length p / 64) p) H0.

Definition hex_digit (d : Z) : ascii :=
  nth (Z.to_nat d)
      ["0"; "1"; "2"; "3"; "4"; "5"; "6"; "7"; "8"; "9"; "a"; "b"; "c"; "d"; "e"; "f"]%char
      "0"%char.

Definition hex32 (w : Z) : string :=
  string_of_list_ascii
    (map (fun i => hex_digit ((Z.shiftr w (4 * i)) mod 16)) [7; 6; 5; 4; 3; 2; 1; 0]).

Definition bytes_of_string (s : string) : list Z :=
  map (fun c => Z.of_N (N_of_ascii c)) (list_ascii_of_string s).

(** [createHash("sha256").update(s).digest("hex")] *)
Definition sha256_hex (s : string) : string :=
  String.concat EmptyString (map hex32 (digest (bytes_of_string s))).

End SHA256.

(* ================================================================== *)
(** ** JavaScript values and platform services *)
(* ================================================================== *)

(** A JSON-like JavaScript value: what [JSON.parse] returns, plus
    [undefined] for a missing property. *)
Inductive JsVal : Type :=
| JUndefined
| JNull
| JBool (b : bool)
| JNum (q : Q)
| JStr (s : string)
| JArr (items : list JsVal)
| JObj (fields : list (string * JsVal)).

Fixpoint assoc (k : string) (fields : list (string * JsVal)) : JsVal :=
  match fields with
  | [] => JUndefined
  | (k', v) :: rest => if String.eqb k k' then v else assoc k rest
  end.

(** [v?.k] *)
Definition get (v : JsVal) (k : string) : JsVal :=
  match v with
  | JObj fields => assoc k fields
  | _ => JUndefined
  end.

(** JavaScript truthiness of [v] ([!!v]). *)
Definition truthy (v : JsVal) : bool :=
  match v with
  | JUndefined | JNull => false
  | JBool b => b
  | JNum q => negb (Qeq_bool q 0)
  | JStr s => negb (is_empty s)
  | JArr _ | JObj _ => true
  end.

(** An optional string field: [null]/[undefined] is [None]. *)
Definition of_opt (o : option string) : JsVal :=
  match o with Some s => JStr s | None => JNull end.

(** [a || b] on optional strings: the empty string is falsy. *)
Definition or_else (a b : option string) : option string :=
  match a with
  | Some s => if is_empty s then b else a
  | None => b
  end.

(** [a || s] where the right operand is a string. *)
Definition or_string (a : option string) (s : string) : string :=
  match a with
  | Some x => if is_empty x then s else x
  | None => s
  end.

(** [v || null] on optional strings. *)
Definition or_null (a : option string) : option string := or_else a None.

(** The result of [new URL(s)]: [protocol] is the scheme followed by a
    colon, and the serialization [toString()] starts with it. *)
Record URL : Type := { protocol : string; after_protocol : string }.

Definition URL_toString (u : URL) : string := protocol u ++ after_protocol u.

Record Platform : Type := {
  (** [new URL(s)]; [None] when the constructor throws *)
  URL_parse : string -> option URL;
  (** [JSON.stringify(v)] *)
  JSON_stringify : JsVal -> string;
  (** [String(x)] for a number *)
  Number_toString : Q -> string
}.

(** Values that can be thrown and caught. *)
Inductive JsError : Type :=
| ErrError (name message : string) (authenticationFailed : bool)
                                   (* an instance of [Error] *)
| ErrValue (v : JsVal).            (* any other thrown value *)

(** Outcome of one call of [generateStructuredJson]. *)
Inductive GenOutcome : Type :=
| GenOk (parsed : JsVal) (responseText : string) (urlContextMetadata : JsVal)
| GenFail (err : JsError).

(** Process configuration, read from the environment at start-up. *)
Record Config : Type := {
  ai : bool;                       (* [GEMINI_API_KEY] is set *)
  GEMINI_MODEL : string;
  MAX_LINKS_PER_EMAIL : nat;
  MAX_DESCRIPTION_CHARS : nat;
  POLL_TIMEOUT_MS : Z
}.

Definition default_config (ai_enabled : bool) : Config :=
  {| ai := ai_enabled;
     GEMINI_MODEL := "gemini-2.5-flash";
     MAX_LINKS_PER_EMAIL := 20;
     MAX_DESCRIPTION_CHARS := 8000;
     POLL_TIMEOUT_MS := 180000 |}.

Definition DEFAULT_KEYWORDS : list string := ["Indeed"; "linkedin"; "glassdoor"].

(* ================================================================== *)
(** ** Normalization helpers *)
(* ================================================================== *)

Section Helpers.
Context (P : Platform).

(** [String(v)] *)
Fixpoint String_of (v : JsVal) : string :=
  match v with
  | JUndefined => "undefined"
  | JNull => "null"
  | JBool true => "true"
  | JBool false => "false"
  | JNum q => Number_toString P q
  | JStr s => s
  | JArr items =>
      join ","
        (map (fun x => match x with
                       | JUndefined | JNull => EmptyString
                       | _ => String_of x
                       end) items)
  | JObj _ => "[object Object]"
  end.

Definition normalizeString (value : JsVal) (fallback : string) : string :=
  match value with
  | JStr s =>
      let trimmed := trim s in
      if (0 <? String.length trimmed)%nat then trimmed else fallback
  | _ => fallback
  end.

Definition is_http (u : URL) : bool :=
  String.eqb (protocol u) "http:" || String.eqb (protocol u) "https:".

Definition normalizeUrl (value : JsVal) : option string :=
  match value with
  | JStr s =>
      let candidate := trim s in
      if is_empty candidate then None
      else match URL_parse P candidate with
           | Some parsed => if is_http parsed then Some (URL_toString parsed) else None
           | None => None
           end
  | _ => None
  end.

(** Insertion into a [Set] that keeps insertion order. *)
Definition set_add_str (x : string) (unique : list string) : list string :=
  if existsb (String.eqb x) unique then unique else unique ++ [x].

Fixpoint normalizeStringArray_loop (max : nat) (values : list JsVal)
  (unique : list string) : list string :=
  match values with
  | [] => unique
  | value :: rest =>
      let normalized :=
        normalizeString (JStr (toLowerCase (String_of value))) EmptyString in
      if is_empty normalized then normalizeStringArray_loop max rest unique
      else
        let unique' := set_add_str normalized unique in
        if (max <=? List.length unique')%nat then unique'
        else normalizeStringArray_loop max rest unique'
  end.

Definition normalizeStringArray (values : JsVal) (max : nat) : list string :=
  match values with
  | JArr items => normalizeStringArray_loop max items []
  | _ => []
  end.

Definition truncate (text : string) (maxChars : nat) : string :=
  if is_empty text then EmptyString
  else if (String.length text <=? maxChars)%nat then text
  else slice0 maxChars text ++ "...".

Definition serializeError (err : JsError) : string :=
  match err with
  | ErrError _ message _ => message
  | ErrValue v =>
      if negb (truthy v) then "Unknown error"
      else match v with
           | JStr s => s
           | _ => JSON_stringify P v
           end
  end.

End Helpers.

(* ================================================================== *)
(** ** Data model *)
(* ================================================================== *)

(** A link of an email: [{ url, text }]. *)
Module Link.
Record t : Type := { url : string; text : string }.
End Link.

(** NormalizedEmail: the result of [parseMessage]. *)
Module Email.
Record t : Type := {
  messageId : string;
  subject : string;
  from : string;
  receivedAt : option Z;
  textBody : string;
  htmlBody : string;
  links : list Link.t
}.
End Email.

(** OpportunityCandidate, before and after enrichment. The three
    enrichment fields are absent ([None], [JUndefined]) on a candidate that
    has not been through [enrichOpportunityWithUrls]. *)
Module Opportunity.
Record t : Type := {
  job_title : string;
  company : string;
  location : string;
  description : string;
  required_skills : list string;
  posting_url : option string;
  apply_url : option string;
  confidence : option Q;
  raw : JsVal;
  enrichment_status : option string;
  enrichment_error : option string;
  url_context_metadata : JsVal
}.
End Opportunity.

(** The run-status record [pollStats] (SyncRunState). *)
Module Stats.
Record t : Type := {
  running : bool;
  integrationsFound : nat;
  emailsScanned : nat;
  emailsKeywordMatched : nat;
  opportunitiesExtracted : nat;
  jobsInserted : nat;
  duplicateJobs : nat;
  resumesGenerated : nat;
  resumesFailed : nat;
  errors : list string
}.

Definition set_running (b : bool) (s : t) : t :=
  {| running := b; integrationsFound := integrationsFound s;
     emailsScanned := emailsScanned s; emailsKeywordMatched := emailsKeywordMatched s;
     opportunitiesExtracted := opportunitiesExtracted s; jobsInserted := jobsInserted s;
     duplicateJobs := duplicateJobs s; resumesGenerated := resumesGenerated s;
     resumesFailed := resumesFailed s; errors := errors s |}.

Definition set_integrationsFound (n : nat) (s : t) : t :=
  {| running := running s; integrationsFound := n;
     emailsScanned := emailsScanned s; emailsKeywordMatched := emailsKeywordMatched s;
     opportunitiesExtracted := opportunitiesExtracted s; jobsInserted := jobsInserted s;
     duplicateJobs := duplicateJobs s; resumesGenerated := resumesGenerated s;
     resumesFailed := resumesFailed s; errors := errors s |}.

Definition add_emailsScanned (n : nat) (s : t) : t :=
  {| running := running s; integrationsFound := integrationsFound s;
     emailsScanned := emailsScanned s + n; emailsKeywordMatched := emailsKeywordMatched s;
     opportunitiesExtracted := opportunitiesExtracted s; jobsInserted := jobsInserted s;
     duplicateJobs := duplicateJobs s; resumesGenerated := resumesGenerated s;
     resumesFailed := resumesFailed s; errors := errors s |}.

Definition inc_emailsKeywordMatched (s : t) : t :=
  {| running := running s; integrationsFound := integrationsFound s;
     emailsScanned := emailsScanned s; emailsKeywordMatched := emailsKeywordMatched s + 1;
     opportunitiesExtracted := opportunitiesExtracted s; jobsInserted := jobsInserted s;
     duplicateJobs := duplicateJobs s; resumesGenerated := resumesGenerated s;
     resumesFailed := resumesFailed s; errors := errors s |}.

Definition add_opportunitiesExtracted (n : nat) (s : t) : t :=
  {| running := running s; integrationsFound := integrationsFound s;
     emailsScanned := emailsScanned s; emailsKeywordMatched := emailsKeywordMatched s;
     opportunitiesExtracted := opportunitiesExtracted s + n; jobsInserted := jobsInserted s;
     duplicateJobs := duplicateJobs s; resumesGenerated := resumesGenerated s;
     resumesFailed := resumesFailed s; errors := errors s |}.

Definition inc_jobsInserted (s : t) : t :=
  {| running := running s; integrationsFound := integrationsFound s;
     emailsScanned := emailsScanned s; emailsKeywordMatched := emailsKeywordMatched s;
     opportunitiesExtracted := opportunitiesExtracted s; jobsInserted := jobsInserted s + 1;
     duplicateJobs := duplicateJobs s; resumesGenerated := resumesGenerated s;
     resumesFailed := resumesFailed s; errors := errors s |}.

Definition inc_duplicateJobs (s : t) : t :=
  {| running := running s; integrationsFound := integrationsFound s;
     emailsScanned := emailsScanned s; emailsKeywordMatched := emailsKeywordMatched s;
     opportunitiesExtracted := opportunitiesExtracted s; jobsInserted := jobsInserted s;
     duplicateJobs := duplicateJobs s + 1; resumesGenerated := resumesGenerated s;
     resumesFailed := resumesFailed s; errors := errors s |}.

Definition inc_resumesGenerated (s : t) : t :=
  {| running := running s; integrationsFound := integrationsFound s;
     emailsScanned := emailsScanned s; emailsKeywordMatched := emailsKeywordMatched s;
     opportunitiesExtracted := opportunitiesExtracted s; jobsInserted := jobsInserted s;
     duplicateJobs := duplicateJobs s; resumesGenerated := resumesGenerated s + 1;
     resumesFailed := resumesFailed s; errors := errors s |}.

Definition inc_resumesFailed (s : t) : t :=
  {| running := running s; integrationsFound := integrationsFound s;
     emailsScanned := emailsScanned s; emailsKeywordMatched := emailsKeywordMatched s;
     opportunitiesExtracted := opportunitiesExtracted s; jobsInserted := jobsInserted s;
     duplicateJobs := duplicateJobs s; resumesGenerated := resumesGenerated s;
     resumesFailed := resumesFailed s + 1; errors := errors s |}.

(** [errors.push(msg)] *)
Definition push_error (msg : string) (s : t) : t :=
  {| running := running s; integrationsFound := integrationsFound s;
     emailsScanned := emailsScanned s; emailsKeywordMatched := emailsKeywordMatched s;
     opportunitiesExtracted := opportunitiesExtracted s; jobsInserted := jobsInserted s;
     duplicateJobs := duplicateJobs s; resumesGenerated := resumesGenerated s;
     resumesFailed := resumesFailed s; errors := errors s ++ [msg] |}.

(** The object literal of [resetStats], with the given [running] flag. *)
Definition fresh (r : bool) : t :=
  {| running := r; integrationsFound := 0; emailsScanned := 0;
     emailsKeywordMatched := 0; opportunitiesExtracted := 0; jobsInserted := 0;
     duplicateJobs := 0; resumesGenerated := 0; resumesFailed := 0; errors := [] |}.
End Stats.

(** The row that [handlePoll] inserts into [jobs] ([jobData]). *)
Module JobData.
Record t : Type := {
  email_id : string;
  user_id : string;
  job_fingerprint : string;
  job_title : string;
  company : string;
  location : string;
  description : string;
  job_link : string;
  posting_url : option string;
  apply_url : option string;
  source_subject : string;
  source_from : string;
  source_received_at : option Z;
  source_message_uid : nat;
  source_links : list Link.t;
  status : string;
  extracted_skills : list string;
  extraction_model : string;
  extraction_confidence : option Q;
  extraction_raw : JsVal;
  parse_status : string;
  parse_error : option string
}.
End JobData.

(** A persisted Job: the inserted data with the id the store assigned. *)
Record JobRow : Type := { job_id : nat; job_data : JobData.t }.

(** A persisted Resume. *)
Record ResumeRow : Type := {
  resume_job_id : nat;
  resume_user_id : string;
  resume_json : JsVal;
  resume_pdf_url : string
}.

(** The state outside the process that a run reads and writes: the [jobs]
    and [resumes] tables, and the uid lists handed to [imapMarkAsRead]. *)
Record Store : Type := {
  jobs : list JobRow;
  resumes : list ResumeRow;
  next_id : nat;
  mark_calls : list (list nat)
}.

(** A row of [user_integrations]. *)
Record Integration : Type := {
  integ_user_id : string;
  imap_host : string;
  job_keywords : option (list string);
  keyword_match_scope : string;
  max_emails_per_sync : option Z
}.

(* ================================================================== *)
(** ** Message normalizer: links *)
(* ================================================================== *)

Section Pipeline.
Context (P : Platform) (cfg : Config).

Definition has_url (u : string) (byUrl : list Link.t) : bool :=
  existsb (fun l => String.eqb u (Link.url l)) byUrl.

Fixpoint dedupeLinks_loop (maxLinks : nat) (links : list Link.t)
  (byUrl : list Link.t) : list Link.t :=
  match links with
  | [] => byUrl
  | link :: rest =>
      match normalizeUrl P (JStr (Link.url link)) with
      | None => dedupeLinks_loop maxLinks rest byUrl
      | Some url =>
          let byUrl' :=
            if has_url url byUrl then byUrl
            else byUrl ++ [ {| Link.url := url;
                               Link.text := normalizeString (JStr (Link.text link)) EmptyString |} ] in
          if (maxLinks <=? List.length byUrl')%nat then byUrl'
          else dedupeLinks_loop maxLinks rest byUrl'
      end
  end.

Definition dedupeLinks_max (links : list Link.t) (maxLinks : nat) : list Link.t :=
  dedupeLinks_loop maxLinks links [].

(** [dedupeLinks(links)] with the default [maxLinks = MAX_LINKS_PER_EMAIL] *)
Definition dedupeLinks (links : list Link.t) : list Link.t :=
  dedupeLinks_max links (MAX_LINKS_PER_EMAIL cfg).

(** The loop body of [extractLinksFromHtml]; [matches] are the successive
    matches of the anchor pattern, as (href, inner text with tags replaced
    and white space collapsed). *)
Fixpoint extractLinksFromHtml (matches : list (string * string)) : list Link.t :=
  match matches with
  | [] => []
  | (href, inner) :: rest =>
      match normalizeUrl P (JStr href) with
      | None => extractLinksFromHtml rest
      | Some url =>
          {| Link.url := url; Link.text := normalizeString (JStr inner) EmptyString |}
          :: extractLinksFromHtml rest
      end
  end.

(** The loop body of [extractLinksFromText]; [matches] are the successive
    matches of the bare URL pattern. *)
Fixpoint extractLinksFromText (matches : list string) : list Link.t :=
  match matches with
  | [] => []
  | m :: rest =>
      match normalizeUrl P (JStr m) with
      | None => extractLinksFromText rest
      | Some url => {| Link.url := url; Link.text := EmptyString |} :: extractLinksFromText rest
      end
  end.

(** What [simpleParser] and the IMAP envelope provide to [parseMessage]. *)
Record ParsedMail : Type := {
  parsed_subject : JsVal;
  envelope_subject : JsVal;
  parsed_from_text : JsVal;
  envelope_from_name : JsVal;
  envelope_from_address : JsVal;
  parsed_date : option Z;
  envelope_date : option Z;
  parsed_messageId : JsVal;
  envelope_messageId : JsVal;
  parsed_text : JsVal;
  parsed_html : JsVal;
  html_anchor_matches : list (string * string);
  text_url_matches : list string
}.

(** [a || b] on values *)
Definition js_or (a b : JsVal) : JsVal := if truthy a then a else b.

Definition or_str (a b : string) : string := if is_empty a then b else a.

Definition opt_or {A} (a b : option A) : option A :=
  match a with Some _ => a | None => b end.

(** The decimal digits of a message uid, as a template literal prints it. *)
Definition decimal (n : nat) : string := NilEmpty.string_of_uint (Nat.to_uint n).

Definition parseMessage (m : ParsedMail) (uid : nat) : Email.t :=
  let subject :=
    normalizeString (js_or (parsed_subject m) (envelope_subject m)) "(No Subject)" in
  let from :=
    or_str (normalizeString (parsed_from_text m) EmptyString)
      (or_str (normalizeString (envelope_from_name m) EmptyString)
         (normalizeString (envelope_from_address m) "(Unknown)")) in
  let receivedAt := opt_or (parsed_date m) (envelope_date m) in
  let messageId :=
    or_str (normalizeString (parsed_messageId m) EmptyString)
      (or_str (normalizeString (envelope_messageId m) EmptyString)
         ("imap-" ++ decimal uid)) in
  let textBody := normalizeString (js_or (parsed_text m) (JStr EmptyString)) EmptyString in
  let htmlBody := match parsed_html m with JStr h => h | _ => EmptyString end in
  {| Email.messageId := messageId;
     Email.subject := subject;
     Email.from := from;
     Email.receivedAt := receivedAt;
     Email.textBody := textBody;
     Email.htmlBody := htmlBody;
     Email.links :=
       dedupeLinks (extractLinksFromHtml (if is_empty htmlBody then [] else html_anchor_matches m)
                    ++ extractLinksFromText (if is_empty textBody then [] else text_url_matches m)) |}.

(* ================================================================== *)
(** ** Relevance filter *)
(* ================================================================== *)

(** [keywordMatch({ subject, textBody }, keywords, matchInBody)] *)
Definition keywordMatch (email : Email.t) (keywords : list string)
  (matchInBody : bool) : bool :=
  let subjectLower := toLowerCase (Email.subject email) in
  if existsb (fun keyword => includes subjectLower keyword) keywords then true
  else if negb matchInBody then false
  else
    let bodyLower := toLowerCase (Email.textBody email) in
    existsb (fun keyword => includes bodyLower keyword) keywords.

(** [[...new Set(xs)]]: first occurrences, in order. *)
Fixpoint unique_strings (xs : list string) (seen : list string) : list string :=
  match xs with
  | [] => seen
  | x :: rest => unique_strings rest (set_add_str x seen)
  end.

(** The keyword list of an integration, as [handlePoll] derives it from
    the [job_keywords] column ([None]: not an array). *)
Definition effective_keywords (job_keywords : option (list string)) : list string :=
  match job_keywords with
  | Some (k0 :: rest) =>
      unique_strings
        (filter (fun k => negb (is_empty k))
           (map (fun k => toLowerCase (trim k)) (k0 :: rest))) []
  | _ => DEFAULT_KEYWORDS
  end.

Definition matchInBody_of (keyword_match_scope : string) : bool :=
  String.eqb keyword_match_scope "subject_or_body".

(** The relevance decision of [handlePoll] for one integration. *)
Definition isRelevant (email : Email.t) (job_keywords : option (list string))
  (keyword_match_scope : string) : bool :=
  keywordMatch email (effective_keywords job_keywords) (matchInBody_of keyword_match_scope).

(* ================================================================== *)
(** ** Opportunity extractor *)
(* ================================================================== *)

Definition Math_min (a b : Q) : Q := if Qle_bool a b then a else b.
Definition Math_max (a b : Q) : Q := if Qle_bool a b then b else a.
Definition clamp01 (c : Q) : Q := Math_max 0 (Math_min 1 c).

Definition truthy_opt (a : option string) : bool :=
  match a with Some s => negb (is_empty s) | None => false end.

(** [links[0]?.url || null] *)
Definition first_link_url (links : list Link.t) : option string :=
  match links with
  | l :: _ => or_null (Some (Link.url l))
  | [] => None
  end.

Fixpoint set_field (k : string) (v : JsVal) (fields : list (string * JsVal))
  : list (string * JsVal) :=
  match fields with
  | [] => [(k, v)]
  | (k', v') :: rest =>
      if String.eqb k k' then (k, v) :: rest else (k', v') :: set_field k v rest
  end.

(** [{ ...o, k: v }] *)
Definition with_field (o : JsVal) (k : string) (v : JsVal) : JsVal :=
  match o with
  | JObj fields => JObj (set_field k v fields)
  | _ => JObj [(k, v)]
  end.

(** [{ ...item, raw: r }] *)
Definition with_raw (item : Opportunity.t) (r : JsVal) : Opportunity.t :=
  {| Opportunity.job_title := Opportunity.job_title item;
     Opportunity.company := Opportunity.company item;
     Opportunity.location := Opportunity.location item;
     Opportunity.description := Opportunity.description item;
     Opportunity.required_skills := Opportunity.required_skills item;
     Opportunity.posting_url := Opportunity.posting_url item;
     Opportunity.apply_url := Opportunity.apply_url item;
     Opportunity.confidence := Opportunity.confidence item;
     Opportunity.raw := r;
     Opportunity.enrichment_status := Opportunity.enrichment_status item;
     Opportunity.enrichment_error := Opportunity.enrichment_error item;
     Opportunity.url_context_metadata := Opportunity.url_context_metadata item |}.

(** The sender's display name: [normalizeString(from.split("<")[0], from)] *)
Definition sender_name (from : string) : string :=
  normalizeString (JStr (split_first "<"%char from)) from.

Definition FALLBACK_CONFIDENCE : Q := (35 # 100)%Q.

Definition buildFallbackOpportunity (email : Email.t) : list Opportunity.t :=
  [ {| Opportunity.job_title := Email.subject email;
       Opportunity.company := sender_name (Email.from email);
       Opportunity.location := "Unknown";
       Opportunity.description := truncate (Email.textBody email) (MAX_DESCRIPTION_CHARS cfg);
       Opportunity.required_skills := [];
       Opportunity.posting_url := first_link_url (Email.links email);
       Opportunity.apply_url := first_link_url (Email.links email);
       Opportunity.confidence := Some FALLBACK_CONFIDENCE;
       Opportunity.raw :=
         JObj [("fallback", JBool true); ("email_id", JStr (Email.messageId email))];
       Opportunity.enrichment_status := None;
       Opportunity.enrichment_error := None;
       Opportunity.url_context_metadata := JUndefined |} ].

(** The [.map] callback of the extractor: one model item to a candidate. *)
Definition clean_opportunity (email : Email.t) (opportunity : JsVal) : Opportunity.t :=
  {| Opportunity.job_title :=
       normalizeString (get opportunity "job_title") (Email.subject email);
     Opportunity.company :=
       normalizeString (get opportunity "company") (sender_name (Email.from email));
     Opportunity.location := normalizeString (get opportunity "location") "Unknown";
     Opportunity.description :=
       truncate
         (normalizeString (get opportunity "description")
            (or_str (Email.textBody email) (Email.subject email)))
         (MAX_DESCRIPTION_CHARS cfg);
     Opportunity.required_skills :=
       normalizeStringArray P (get opportunity "required_skills") 50;
     Opportunity.posting_url := normalizeUrl P (get opportunity "posting_url");
     Opportunity.apply_url := normalizeUrl P (get opportunity "apply_url");
     Opportunity.confidence :=
       match get opportunity "confidence" with
       | JNum c => Some (clamp01 c)
       | _ => None
       end;
     Opportunity.raw := opportunity;
     Opportunity.enrichment_status := None;
     Opportunity.enrichment_error := None;
     Opportunity.url_context_metadata := JUndefined |}.

(** The [.filter] callback of the extractor. *)
Definition usable (o : Opportunity.t) : bool :=
  negb (is_empty (normalizeString (JStr (Opportunity.job_title o)) EmptyString))
  || negb (is_empty (normalizeString (JStr (Opportunity.description o)) EmptyString))
  || truthy_opt (Opportunity.apply_url o)
  || truthy_opt (Opportunity.posting_url o).

(** [extractOpportunitiesFromEmail(emailContext)]; [gen] is the outcome of
    its single generation request, consulted only when [ai] is set. *)
Definition extractOpportunitiesFromEmail (emailContext : Email.t) (gen : GenOutcome)
  : list Opportunity.t :=
  if negb (ai cfg) then buildFallbackOpportunity emailContext
  else
    match gen with
    | GenOk parsed responseText _ =>
        let opportunities :=
          match get parsed "opportunities" with
          | JArr items => items
          | _ => []
          end in
        let cleaned := filter usable (map (clean_opportunity emailContext) opportunities) in
        if (0 <? List.length cleaned)%nat then cleaned
        else
          map (fun item =>
                 with_raw item
                   (with_field (Opportunity.raw item) "extraction_response" (JStr responseText)))
              (buildFallbackOpportunity emailContext)
    | GenFail err =>
        map (fun item =>
               with_raw item
                 (with_field (Opportunity.raw item) "extraction_error"
                    (JStr (serializeError P err))))
            (buildFallbackOpportunity emailContext)
    end.

(* ================================================================== *)
(** ** Opportunity enricher *)
(* ================================================================== *)

(** [{ ...opportunity, enrichment_status, enrichment_error,
       url_context_metadata }] *)
Definition with_enrichment (o : Opportunity.t) (status : string)
  (error : option string) (metadata : JsVal) : Opportunity.t :=
  {| Opportunity.job_title := Opportunity.job_title o;
     Opportunity.company := Opportunity.company o;
     Opportunity.location := Opportunity.location o;
     Opportunity.description := Opportunity.description o;
     Opportunity.required_skills := Opportunity.required_skills o;
     Opportunity.posting_url := Opportunity.posting_url o;
     Opportunity.apply_url := Opportunity.apply_url o;
     Opportunity.confidence := Opportunity.confidence o;
     Opportunity.raw := Opportunity.raw o;
     Opportunity.enrichment_status := Some status;
     Opportunity.enrichment_error := error;
     Opportunity.url_context_metadata := metadata |}.

(** The URL list offered to the model: the candidate's two URLs, then the
    email's links, normalized and deduplicated. *)
Definition candidateUrls (opportunity : Opportunity.t) (emailLinks : list Link.t)
  : list string :=
  map Link.url
    (dedupeLinks
       ({| Link.url := or_string (Opportunity.apply_url opportunity) EmptyString;
           Link.text := "apply_url" |}
        :: {| Link.url := or_string (Opportunity.posting_url opportunity) EmptyString;
              Link.text := "posting_url" |}
        :: map (fun link => {| Link.url := Link.url link; Link.text := Link.text link |})
               emailLinks)).

Definition merge_enrichment (opportunity : Opportunity.t) (parsed metadata : JsVal)
  : Opportunity.t :=
  {| Opportunity.job_title :=
       normalizeString (get parsed "job_title") (Opportunity.job_title opportunity);
     Opportunity.company :=
       normalizeString (get parsed "company") (Opportunity.company opportunity);
     Opportunity.location :=
       normalizeString (get parsed "location") (Opportunity.location opportunity);
     Opportunity.description :=
       truncate
         (normalizeString (get parsed "description") (Opportunity.description opportunity))
         (MAX_DESCRIPTION_CHARS cfg);
     Opportunity.required_skills :=
       (let merged :=
          normalizeStringArray P
            (JArr (map JStr (Opportunity.required_skills opportunity))) 60
          ++ normalizeStringArray P (get parsed "required_skills") 60 in
        normalizeStringArray P (JArr (map JStr merged)) 60);
     Opportunity.posting_url :=
       or_null
         (or_else (normalizeUrl P (get parsed "posting_url"))
            (Opportunity.posting_url opportunity));
     Opportunity.apply_url :=
       or_null
         (or_else (normalizeUrl P (get parsed "apply_url"))
            (or_else (Opportunity.apply_url opportunity)
               (or_else (normalizeUrl P (get parsed "posting_url"))
                  (Opportunity.posting_url opportunity))));
     Opportunity.confidence :=
       match get parsed "confidence" with
       | JNum c => Some (clamp01 c)
       | _ => Opportunity.confidence opportunity
       end;
     Opportunity.raw := Opportunity.raw opportunity;
     Opportunity.enrichment_status := Some "enriched";
     Opportunity.enrichment_error := None;
     Opportunity.url_context_metadata := js_or metadata JNull |}.

(** [enrichOpportunityWithUrls(opportunity, emailLinks)]; [gen] is the
    outcome of its single generation request, consulted only when [ai] is
    set and some URL is usable. *)
Definition enrichOpportunityWithUrls (opportunity : Opportunity.t)
  (emailLinks : list Link.t) (gen : GenOutcome) : Opportunity.t :=
  if negb (ai cfg) then with_enrichment opportunity "skipped_no_gemini" None JNull
  else if (List.length (candidateUrls opportunity emailLinks) =? 0)%nat
  then with_enrichment opportunity "skipped_no_urls" None JNull
  else
    match gen with
    | GenOk parsed _ metadata => merge_enrichment opportunity parsed metadata
    | GenFail err =>
        with_enrichment opportunity "error" (Some (serializeError P err)) JNull
    end.

(* ================================================================== *)
(** ** Fingerprint *)
(* ================================================================== *)

(** The descriptor that [buildJobFingerprint] hashes. *)
Definition fingerprint_descriptor (emailId : string) (opportunity : Opportunity.t)
  : string :=
  join "|"
    [ normalizeString (JStr emailId) EmptyString;
      toLowerCase (normalizeString (JStr (Opportunity.job_title opportunity)) EmptyString);
      toLowerCase (normalizeString (JStr (Opportunity.company opportunity)) EmptyString);
      or_string
        (or_else (normalizeUrl P (of_opt (Opportunity.apply_url opportunity)))
                 (normalizeUrl P (of_opt (Opportunity.posting_url opportunity))))
        (slice0 320
           (toLowerCase
              (normalizeString (JStr (Opportunity.description opportunity)) EmptyString))) ].

Definition buildJobFingerprint (emailId : string) (opportunity : Opportunity.t) : string :=
  SHA256.sha256_hex (fingerprint_descriptor emailId opportunity).

(* ================================================================== *)
(** ** Sync orchestrator: one opportunity *)
(* ================================================================== *)

Definition dquote : string := String (ascii_of_nat 34) EmptyString.

(** Outcomes of the external calls made for one opportunity: the
    enrichment request, the transport of the existing-job query and of the
    insert ([Some e]: the call reports [e]), and the resume stage (generate,
    render, upload, insert: the error thrown, or the document and its
    public URL). *)
Record OppWorld : Type := {
  enrich_gen : GenOutcome;
  existing_check_error : option JsError;
  insert_error : option JsError;
  resume_stage : JsError + (JsVal * string)
}.

Record LoopState : Type := {
  store : Store;
  stats : Stats.t;
  messagePersisted : bool
}.

Definition same_job (user_id email_id fingerprint : string) (r : JobRow) : bool :=
  String.eqb (JobData.user_id (job_data r)) user_id
  && String.eqb (JobData.email_id (job_data r)) email_id
  && String.eqb (JobData.job_fingerprint (job_data r)) fingerprint.

(** [from("jobs").select("id").eq(user_id).eq(email_id).eq(job_fingerprint)
    .maybeSingle()]: the unique index [jobs_user_email_fingerprint_key]
    leaves at most one such row. *)
Definition find_existing_job (st : Store) (user_id email_id fingerprint : string)
  : option JobRow :=
  find (same_job user_id email_id fingerprint) (jobs st).

(** [from("jobs").select("*", { count }).eq(user_id).eq(email_id)] *)
Definition count_jobs_of_email (st : Store) (user_id email_id : string) : nat :=
  List.length
    (filter (fun r => String.eqb (JobData.user_id (job_data r)) user_id
                      && String.eqb (JobData.email_id (job_data r)) email_id)
            (jobs st)).

Definition unique_violation : JsError :=
  ErrValue (JObj [("code", JStr "23505");
                  ("message", JStr "duplicate key value violates unique constraint")]).

(** [from("jobs").insert(jobData).select().single()] *)
Definition insert_job (st : Store) (jobData : JobData.t) (transport : option JsError)
  : JsError + (Store * JobRow) :=
  match transport with
  | Some e => inl e
  | None =>
      match find_existing_job st (JobData.user_id jobData) (JobData.email_id jobData)
              (JobData.job_fingerprint jobData) with
      | Some _ => inl unique_violation
      | None =>
          let row := {| job_id := next_id st; job_data := jobData |} in
          inr ({| jobs := jobs st ++ [row]; resumes := resumes st;
                  next_id := S (next_id st); mark_calls := mark_calls st |}, row)
      end
  end.

(** [from("resumes").insert(...)] *)
Definition insert_resume (st : Store) (r : ResumeRow) : Store :=
  {| jobs := jobs st; resumes := resumes st ++ [r];
     next_id := next_id st; mark_calls := mark_calls st |}.

Definition primaryUrl (enriched : Opportunity.t) (emailContext : Email.t) : option string :=
  or_null
    (or_else (Opportunity.apply_url enriched)
       (or_else (Opportunity.posting_url enriched)
          (match Email.links emailContext with
           | l :: _ => Some (Link.url l)
           | [] => None
           end))).

Definition opt_eqb (a : option string) (s : string) : bool :=
  match a with Some x => String.eqb x s | None => false end.

Definition build_jobData (integ : Integration) (uid : nat) (emailContext : Email.t)
  (extracted enriched : Opportunity.t) (fingerprint : string) : JobData.t :=
  let primary := primaryUrl enriched emailContext in
  {| JobData.email_id := Email.messageId emailContext;
     JobData.user_id := integ_user_id integ;
     JobData.job_fingerprint := fingerprint;
     JobData.job_title :=
       normalizeString (JStr (Opportunity.job_title enriched)) (Email.subject emailContext);
     JobData.company :=
       normalizeString (JStr (Opportunity.company enriched))
         (sender_name (Email.from emailContext));
     JobData.location := normalizeString (JStr (Opportunity.location enriched)) "Unknown";
     JobData.description :=
       truncate
         (normalizeString (JStr (Opportunity.description enriched))
            (or_str (Email.textBody emailContext) (Email.subject emailContext)))
         (MAX_DESCRIPTION_CHARS cfg);
     JobData.job_link :=
       or_string primary ("imap://" ++ imap_host integ ++ "/INBOX/" ++ decimal uid);
     JobData.posting_url := or_else (Opportunity.posting_url enriched) primary;
     JobData.apply_url := or_else (Opportunity.apply_url enriched) primary;
     JobData.source_subject := Email.subject emailContext;
     JobData.source_from := Email.from emailContext;
     JobData.source_received_at := Email.receivedAt emailContext;
     JobData.source_message_uid := uid;
     JobData.source_links := Email.links emailContext;
     JobData.status := "prepared";
     JobData.extracted_skills :=
       normalizeStringArray P (JArr (map JStr (Opportunity.required_skills enriched))) 60;
     JobData.extraction_model := GEMINI_MODEL cfg;
     JobData.extraction_confidence := Opportunity.confidence enriched;
     JobData.extraction_raw :=
       JObj [ ("extraction", js_or (Opportunity.raw extracted) JNull);
              ("enrichment_status", of_opt (or_null (Opportunity.enrichment_status enriched)));
              ("enrichment_error", of_opt (or_null (Opportunity.enrichment_error enriched)));
              ("url_context_metadata",
               js_or (Opportunity.url_context_metadata enriched) JNull) ];
     JobData.parse_status :=
       if opt_eqb (Opportunity.enrichment_status enriched) "error" then "partial" else "parsed";
     JobData.parse_error := or_null (Opportunity.enrichment_error enriched) |}.

Definition with_stats (st : LoopState) (f : Stats.t -> Stats.t) : LoopState :=
  {| store := store st; stats := f (stats st); messagePersisted := messagePersisted st |}.

(** The body of [for (const extracted of opportunities)]. *)
Definition process_opportunity (integ : Integration) (uid : nat) (emailContext : Email.t)
  (w : OppWorld) (st : LoopState) (extracted : Opportunity.t) : LoopState :=
  let enriched := enrichOpportunityWithUrls extracted (Email.links emailContext) (enrich_gen w) in
  let fingerprint := buildJobFingerprint (Email.messageId emailContext) enriched in
  match existing_check_error w with
  | Some existingError =>
      with_stats st
        (Stats.push_error
           ("Existing-job check failed for " ++ dquote ++ Opportunity.job_title enriched
            ++ dquote ++ ": " ++ serializeError P existingError))
  | None =>
      match find_existing_job (store st) (integ_user_id integ)
              (Email.messageId emailContext) fingerprint with
      | Some existingJob =>
          {| store := store st;
             stats := Stats.inc_duplicateJobs (stats st);
             messagePersisted := true |}
      | None =>
          let jobData := build_jobData integ uid emailContext extracted enriched fingerprint in
          match insert_job (store st) jobData (insert_error w) with
          | inl insertError =>
              with_stats st
                (Stats.push_error
                   ("Job insert failed for " ++ dquote ++ JobData.job_title jobData
                    ++ dquote ++ ": " ++ serializeError P insertError))
          | inr (store1, insertedJob) =>
              let stats1 := Stats.inc_jobsInserted (stats st) in
              match resume_stage w with
              | inr (json, resumePdfUrl) =>
                  {| store :=
                       insert_resume store1
                         {| resume_job_id := job_id insertedJob;
                            resume_user_id := integ_user_id integ;
                            resume_json := json;
                            resume_pdf_url := resumePdfUrl |};
                     stats := Stats.inc_resumesGenerated stats1;
                     messagePersisted := true |}
              | inl resumeErr =>
                  {| store := store1;
                     stats :=
                       Stats.push_error
                         ("Resume generation failed for " ++ dquote
                          ++ JobData.job_title jobData ++ dquote ++ ": "
                          ++ serializeError P resumeErr)
                         (Stats.inc_resumesFailed stats1);
                     messagePersisted := true |}
              end
          end
      end
  end.

(** The whole opportunity loop of one message; the [i]-th opportunity meets
    the outcomes [opp_world i]. *)
Fixpoint process_opportunities (integ : Integration) (uid : nat) (emailContext : Email.t)
  (opp_world : nat -> OppWorld) (i : nat) (opportunities : list Opportunity.t)
  (st : LoopState) : LoopState :=
  match opportunities with
  | [] => st
  | extracted :: rest =>
      process_opportunities integ uid emailContext opp_world (S i) rest
        (process_opportunity integ uid emailContext (opp_world i) st extracted)
  end.

(* ================================================================== *)
(** ** Sync orchestrator: one message, one integration *)
(* ================================================================== *)

(** A message of the INBOX with the outcomes of the external calls made
    while it is processed. *)
Record MsgWorld : Type := {
  uid : nat;
  has_source : bool;                         (* [message.source] is present *)
  parse_outcome : JsError + ParsedMail;      (* [simpleParser] *)
  email_check_error : option JsError;        (* transport of the per-email count *)
  extract_gen : GenOutcome;
  opp_world : nat -> OppWorld
}.

Record IntegState : Type := {
  i_store : Store;
  i_stats : Stats.t;
  uidsToMark : list nat
}.

Definition skip_message (st : IntegState) (f : Stats.t -> Stats.t) : IntegState :=
  {| i_store := i_store st; i_stats := f (i_stats st); uidsToMark := uidsToMark st |}.

(** The per-email short circuit: the count of jobs already stored for the
    message id is positive. A failed count only logs a warning. *)
Definition email_seen (integ : Integration) (st : IntegState) (raw : MsgWorld)
  (emailContext : Email.t) : bool :=
  match email_check_error raw with
  | Some _ => false
  | None =>
      (0 <? count_jobs_of_email (i_store st) (integ_user_id integ)
              (Email.messageId emailContext))%nat
  end.

(** The state in which the opportunity loop of a relevant message starts. *)
Definition opportunities_entry (st : IntegState) (opportunities : list Opportunity.t)
  : LoopState :=
  {| store := i_store st;
     stats :=
       Stats.add_opportunitiesExtracted (List.length opportunities)
         (Stats.inc_emailsKeywordMatched (i_stats st));
     messagePersisted := false |}.

(** The body of [for (const raw of rawMessages)]. *)
Definition process_message (integ : Integration) (keywords : list string)
  (matchInBody : bool) (st : IntegState) (raw : MsgWorld) : IntegState :=
  match parse_outcome raw with
  | inl err =>
      skip_message st
        (Stats.push_error
           ("Failed to parse message UID " ++ decimal (uid raw) ++ ": " ++ serializeError P err))
  | inr parsed =>
      let emailContext := parseMessage parsed (uid raw) in
      if email_seen integ st raw emailContext then st
      else if negb (keywordMatch emailContext keywords matchInBody) then st
      else
        let opportunities := extractOpportunitiesFromEmail emailContext (extract_gen raw) in
        let st1 :=
          process_opportunities integ (uid raw) emailContext (opp_world raw) 0 opportunities
            (opportunities_entry st opportunities) in
        {| i_store := store st1;
           i_stats := stats st1;
           uidsToMark :=
             if messagePersisted st1 then uidsToMark st ++ [uid raw] else uidsToMark st |}
  end.

Definition effectiveMaxEmails (syncAll : bool) (integ : Integration) : Z :=
  if syncAll then 0%Z
  else match max_emails_per_sync integ with
       | Some n => if (0 <? n)%Z then n else 10%Z
       | None => 10%Z
       end.

(** [xs.slice(-n)] for a positive [n] *)
Definition slice_last {A} (n : nat) (xs : list A) : list A :=
  skipn (List.length xs - n) xs.

(** What [imapFetchUnread] returns for an INBOX holding [inbox]. *)
Definition imapFetchUnread (inbox : list MsgWorld) (maxEmails : Z) : list MsgWorld :=
  filter has_source
    (if (0 <? maxEmails)%Z then slice_last (Z.to_nat maxEmails) inbox else inbox).

(** [String(err)] *)
Definition String_of_error (err : JsError) : string :=
  match err with
  | ErrError name message _ => if is_empty message then name else name ++ ": " ++ message
  | ErrValue v => String_of P v
  end.

(** [err?.message || String(err)] *)
Definition message_or_String (err : JsError) : string :=
  match err with
  | ErrError _ message _ => if is_empty message then String_of_error err else message
  | ErrValue v =>
      if truthy (get v "message") then String_of P (get v "message") else String_of P v
  end.

Definition is_authenticationFailed (err : JsError) : bool :=
  match err with
  | ErrError _ _ a => a
  | ErrValue v => truthy (get v "authenticationFailed")
  end.

(** One integration and the outcomes of its external calls: credential
    decryption, base profile fetch, the IMAP fetch session (the error it
    throws, or the INBOX), and the mark-as-read session. *)
Record IntegWorld : Type := {
  integration : Integration;
  decrypt_error : option JsError;
  baseProfile_error : option JsError;
  fetch_outcome : JsError + list MsgWorld;
  mark_error : option JsError
}.

Definition record_mark_call (st : Store) (uids : list nat) : Store :=
  {| jobs := jobs st; resumes := resumes st; next_id := next_id st;
     mark_calls := mark_calls st ++ [uids] |}.

(** The [catch (err)] of the per-integration [try]. *)
Definition integration_failed (err : JsError) (s : Stats.t) : Stats.t :=
  if is_authenticationFailed err
  then Stats.push_error
         "IMAP authentication failed. If using Gmail, make sure you are using a Google App Password."
         s
  else Stats.push_error (message_or_String err) s.

(** The state in which the message loop of an integration starts. *)
Definition messages_entry (st : Store * Stats.t) (rawMessages : list MsgWorld)
  : IntegState :=
  {| i_store := fst st;
     i_stats := Stats.add_emailsScanned (List.length rawMessages) (snd st);
     uidsToMark := [] |}.

(** The body of [for (const integration of integrations)]. *)
Definition process_integration (syncAll : bool) (st : Store * Stats.t) (w : IntegWorld)
  : Store * Stats.t :=
  let integ := integration w in
  let keywords := effective_keywords (job_keywords integ) in
  let matchInBody := matchInBody_of (keyword_match_scope integ) in
  match decrypt_error w with
  | Some err => (fst st, integration_failed err (snd st))
  | None =>
      match baseProfile_error w with
      | Some err => (fst st, integration_failed err (snd st))
      | None =>
          match fetch_outcome w with
          | inl err => (fst st, integration_failed err (snd st))
          | inr inbox =>
              let rawMessages := imapFetchUnread inbox (effectiveMaxEmails syncAll integ) in
              let st1 :=
                fold_left (process_message integ keywords matchInBody) rawMessages
                  (messages_entry st rawMessages) in
              if (0 <? List.length (uidsToMark st1))%nat then
                (record_mark_call (i_store st1) (uidsToMark st1),
                 match mark_error w with
                 | Some markErr =>
                     Stats.push_error
                       ("Failed to mark messages as read: " ++ serializeError P markErr)
                       (i_stats st1)
                 | None => i_stats st1
                 end)
              else (i_store st1, i_stats st1)
          end
      end
  end.

(* ================================================================== *)
(** ** Sync orchestrator: [handlePoll] *)
(* ================================================================== *)

(** The module-level variable [pollStats] and the objects it has been
    bound to: [resetStats] binds it to a new object, and a run keeps the
    reference it read when it started. *)
Record Heap : Type := {
  objects : list Stats.t;
  pollStats : nat                   (* index of the current object *)
}.

Definition deref (h : Heap) (ref : nat) : Stats.t :=
  nth ref (objects h) (Stats.fresh false).

Definition current (h : Heap) : Stats.t := deref h (pollStats h).

Fixpoint update_nth {A} (n : nat) (f : A -> A) (xs : list A) : list A :=
  match xs, n with
  | [], _ => []
  | x :: rest, O => f x :: rest
  | x :: rest, S k => x :: update_nth k f rest
  end.

Definition modify (ref : nat) (f : Stats.t -> Stats.t) (h : Heap) : Heap :=
  {| objects := update_nth ref f (objects h); pollStats := pollStats h |}.

Definition resetStats (h : Heap) : Heap :=
  {| objects := objects h ++ [Stats.fresh true]; pollStats := List.length (objects h) |}.

Inductive Completion : Type :=
| Returned
| Threw (err : JsError).

Definition is_nullish (err : JsError) : bool :=
  match err with
  | ErrValue JNull | ErrValue JUndefined => true
  | _ => false
  end.

Definition null_message_TypeError : JsError :=
  ErrError "TypeError" "Cannot read properties of null (reading 'message')" false.

(** The [try { ... } catch (err) { ... }] of [handlePoll], acting on the
    status object [stats] the run captured; [query] is the outcome of the
    [user_integrations] query (the value thrown, or the rows). *)
Definition handlePoll_try (syncAll : bool) (query : JsError + list IntegWorld)
  (st : Store * Stats.t) : (Store * Stats.t) * Completion :=
  match query with
  | inl err =>
      if is_nullish err then (st, Threw null_message_TypeError)
      else ((fst st, Stats.push_error (message_or_String err) (snd st)), Returned)
  | inr [] => (st, Returned)
  | inr integrations =>
      (fold_left (process_integration syncAll) integrations
         (fst st, Stats.set_integrationsFound (List.length integrations) (snd st)),
       Returned)
  end.

(** [handlePoll] from its first [await] on, for a run that captured the
    status object at [ref]: the [try]/[catch] on that object, then the
    [finally], which writes through the variable [pollStats]. *)
Definition handlePoll_settle (ref : nat) (syncAll : bool)
  (query : JsError + list IntegWorld) (sigma : Store * Heap) : (Store * Heap) * Completion :=
  let '(st, completion) := handlePoll_try syncAll query (fst sigma, deref (snd sigma) ref) in
  let h1 := modify ref (fun _ => snd st) (snd sigma) in
  let h2 := modify (pollStats h1) (Stats.set_running false) h1 in
  ((fst st, h2), completion).

(** Outcomes of the external calls of one run: [createClient] (it throws
    [e] before the [try] is entered), then the [user_integrations] query. *)
Record RunWorld : Type := {
  createClient_error : option JsError;
  integrations_query : JsError + list IntegWorld
}.

(** [handlePoll({ syncAll })], run to completion with no other handler in
    between. *)
Definition handlePoll (syncAll : bool) (w : RunWorld) (sigma : Store * Heap)
  : (Store * Heap) * Completion :=
  match createClient_error w with
  | Some err => (sigma, Threw err)
  | None => handlePoll_settle (pollStats (snd sigma)) syncAll (integrations_query w) sigma
  end.

(** The [.catch] callback the [/poll] handler attaches to the run. *)
Definition background_catch (err : JsError) (h : Heap) : Heap :=
  modify (pollStats h)
    (fun s => Stats.push_error (String_of_error err) (Stats.set_running false s)) h.

End Pipeline.

(* ================================================================== *)
(** ** HTTP control surface *)
(* ================================================================== *)

(** The server as a transition system over the Node event loop. A handler
    runs without interruption until it suspends; the [/poll] handler
    suspends once, while it reads the request body, and the run it starts
    suspends at its first [await]. Each event below is one uninterrupted
    stretch of code. *)
Module Server.

(** What the handler reads of a request it is called with: [req.method],
    and the outcome of [new URL(req.url, `http://localhost:${PORT}`)], the
    [pathname] of the URL or [None] when the constructor throws. *)
Record Request : Type := { method : string; pathname : option string }.

(** The status code and the body sent; [JUndefined] when no body is sent. *)
Record Response : Type := { status_code : nat; body : JsVal }.

(** A started [handlePoll]: the status object it captured, its option and
    the clock reading when it started. *)
Record Run : Type := { run_ref : nat; run_syncAll : bool; started_at : Z }.

Record State : Type := {
  heap : Heap;
  world : Store;
  awaiting_body : list nat;          (* [/poll] handlers suspended at the body read *)
  active : list (nat * Run);         (* runs that have not settled *)
  now : Z;                           (* wall clock, in milliseconds *)
  crashed : bool                     (* an exception escaped a handler: the
                                        process has exited *)
}.

Inductive Event : Type :=
| Arrives (id : nat) (r : Request)
| BodyRead (id : nat) (reqBody : JsVal) (createClient_error : option JsError)
| Settles (id : nat) (query : JsError + list IntegWorld)
| Elapse (ms : Z).

Definition num (n : nat) : JsVal := JNum (inject_Z (Z.of_nat n)).

(** The object that [JSON.stringify(pollStats)] serializes. *)
Definition stats_json (s : Stats.t) : JsVal :=
  JObj [ ("running", JBool (Stats.running s));
         ("integrationsFound", num (Stats.integrationsFound s));
         ("emailsScanned", num (Stats.emailsScanned s));
         ("emailsKeywordMatched", num (Stats.emailsKeywordMatched s));
         ("opportunitiesExtracted", num (Stats.opportunitiesExtracted s));
         ("jobsInserted", num (Stats.jobsInserted s));
         ("duplicateJobs", num (Stats.duplicateJobs s));
         ("resumesGenerated", num (Stats.resumesGenerated s));
         ("resumesFailed", num (Stats.resumesFailed s));
         ("errors", JArr (map JStr (Stats.errors s))) ].

Definition health_body (h : Heap) : JsVal :=
  JObj [ ("ok", JBool true); ("pollRunning", JBool (Stats.running (current h))) ].

Definition conflict_body (h : Heap) : JsVal :=
  JObj [ ("error", JStr "A sync is already in progress. Please wait for it to finish.");
         ("stats", stats_json (current h)) ].

Definition accepted_body (h : Heap) : JsVal :=
  JObj [ ("message", JStr "Polling started in background");
         ("stats", stats_json (current h)) ].

Definition not_found_body : JsVal := JObj [ ("error", JStr "Not found") ].

Definition initial (st : Store) : State :=
  {| heap := {| objects := [Stats.fresh false]; pollStats := 0 |};
     world := st; awaiting_body := []; active := []; now := 0; crashed := false |}.

Definition remove_id {A} (id : nat) (xs : list (nat * A)) : list (nat * A) :=
  filter (fun p => negb (Nat.eqb (fst p) id)) xs.

Fixpoint lookup_id {A} (id : nat) (xs : list (nat * A)) : option A :=
  match xs with
  | [] => None
  | (k, v) :: rest => if Nat.eqb k id then Some v else lookup_id id rest
  end.

(** How long the run started by request [id] has been going, if it is
    still active. *)
Definition elapsed (s : State) (id : nat) : option Z :=
  match lookup_id id (active s) with
  | Some r => Some (now s - started_at r)%Z
  | None => None
  end.

Section Handlers.
Context (P : Platform) (cfg : Config).

(** [res.writeHead(code, ...); res.end(JSON.stringify(b))]: the response to
    a [HEAD] request carries no body. *)
Definition respond (r : Request) (code : nat) (b : JsVal) : Response :=
  {| status_code := code;
     body := if String.eqb (method r) "HEAD" then JUndefined else b |}.

(** How the handler leaves its first stretch of code: it has answered, it
    is suspended at the read of the request body, or [new URL] has thrown.
    The handler is [async] and nothing catches its rejection. *)
Inductive Arrival : Type :=
| Answered (resp : Response)
| ReadsBody
| Throws.

Definition route (s : State) (r : Request) : Arrival :=
  if String.eqb (method r) "OPTIONS" then
    Answered {| status_code := 204; body := JUndefined |}
  else
    match pathname r with
    | None => Throws
    | Some p =>
        if String.eqb p "/health" then
          Answered (respond r 200 (health_body (heap s)))
        else if String.eqb p "/status" then
          Answered (respond r 200 (stats_json (current (heap s))))
        else if String.eqb p "/poll" && String.eqb (method r) "POST" then
          if Stats.running (current (heap s)) then
            Answered (respond r 409 (conflict_body (heap s)))
          else ReadsBody
        else Answered (respond r 404 not_found_body)
    end.

(** The request handler up to its first suspension. An exception that
    escapes it is an unhandled rejection, which ends the process: no
    response is sent. *)
Definition on_request (s : State) (id : nat) (r : Request) : State * option Response :=
  match route s r with
  | Answered resp => (s, Some resp)
  | ReadsBody =>
      ({| heap := heap s; world := world s;
          awaiting_body := awaiting_body s ++ [id];
          active := active s; now := now s; crashed := crashed s |}, None)
  | Throws =>
      ({| heap := heap s; world := world s; awaiting_body := awaiting_body s;
          active := active s; now := now s; crashed := true |}, None)
  end.

(** [reqBody?.syncAll === true] *)
Definition syncAll_of (reqBody : JsVal) : bool :=
  match get reqBody "syncAll" with
  | JBool true => true
  | _ => false
  end.

(** The [/poll] handler from the end of the body read: [resetStats()],
    the start of [handlePoll] with its [.catch], and the 202 response. When
    [createClient] throws, the rejection reaches the [.catch] callback only
    after the response has been serialized. *)
Definition on_body_read (s : State) (id : nat) (reqBody : JsVal)
  (createClient_error : option JsError) : State * option Response :=
  if existsb (Nat.eqb id) (awaiting_body s) then
    let h1 := resetStats (heap s) in
    let response := {| status_code := 202; body := accepted_body h1 |} in
    let awaiting := filter (fun k => negb (Nat.eqb k id)) (awaiting_body s) in
    match createClient_error with
    | Some err =>
        ({| heap := background_catch P err h1; world := world s;
            awaiting_body := awaiting; active := active s; now := now s;
            crashed := crashed s |},
         Some response)
    | None =>
        ({| heap := h1; world := world s; awaiting_body := awaiting;
            active := active s ++ [(id, {| run_ref := pollStats h1;
                                           run_syncAll := syncAll_of reqBody;
                                           started_at := now s |})];
            now := now s; crashed := crashed s |},
         Some response)
    end
  else (s, None).

(** A started run reaches its end: the rest of [handlePoll], then the
    [.catch] callback when the run threw. *)
Definition on_settle (s : State) (id : nat) (query : JsError + list IntegWorld) : State :=
  match lookup_id id (active s) with
  | None => s
  | Some run =>
      let '((st, h), completion) :=
        handlePoll_settle P cfg (run_ref run) (run_syncAll run) query (world s, heap s) in
      {| heap := match completion with
                 | Returned => h
                 | Threw err => background_catch P err h
                 end;
         world := st;
         awaiting_body := awaiting_body s;
         active := remove_id id (active s);
         now := now s;
         crashed := crashed s |}
  end.

(** One event of the process. Once the process has exited no handler
    runs any more; the clock goes on. *)
Definition step (s : State) (e : Event) : State * option Response :=
  match e with
  | Elapse ms =>
      ({| heap := heap s; world := world s; awaiting_body := awaiting_body s;
          active := active s; now := (now s + ms)%Z; crashed := crashed s |}, None)
  | Arrives id r => if crashed s then (s, None) else on_request s id r
  | BodyRead id reqBody createClient_error =>
      if crashed s then (s, None) else on_body_read s id reqBody createClient_error
  | Settles id query => if crashed s then (s, None) else (on_settle s id query, None)
  end.

(** The state after a sequence of events, and the responses sent. *)
Fixpoint run (s : State) (es : list Event) : State * list Response :=
  match es with
  | [] => (s, [])
  | e :: rest =>
      let '(s1, r) := step s e in
      let '(s2, rs) := run s1 rest in
      (s2, match r with Some x => x :: rs | None => rs end)
  end.

(** A whole exchange with nothing in between: the request arrives and,
    when its handler suspends to read the body, the body read follows at
    once. *)
Definition serve (s : State) (id : nat) (r : Request) (reqBody : JsVal)
  (createClient_error : option JsError) : State * option Response :=
  match on_request s id r with
  | (s1, Some resp) => (s1, Some resp)
  | (s1, None) =>
      match route s r with
      | ReadsBody => on_body_read s1 id reqBody createClient_error
      | _ => (s1, None)
      end
  end.

(** A whole [POST /poll] exchange with nothing in between. *)
Definition post_poll (s : State) (id : nat) (reqBody : JsVal)
  (createClient_error : option JsError) : State * option Response :=
  serve s id {| method := "POST"; pathname := Some "/poll" |} reqBody createClient_error.

(** Executions in which no request arrives while a [/poll] handler reads
    its body. *)
Inductive Exchange : Type :=
| Serve (id : nat) (r : Request) (reqBody : JsVal) (createClient_error : option JsError)
| Settle (id : nat) (query : JsError + list IntegWorld)
| Wait (ms : Z).

Definition exchange (s : State) (x : Exchange) : State :=
  match x with
  | Serve id r reqBody createClient_error =>
      if crashed s then s else fst (serve s id r reqBody createClient_error)
  | Settle id query => if crashed s then s else on_settle s id query
  | Wait ms => fst (step s (Elapse ms))
  end.

Definition run_exchanges (s : State) (xs : list Exchange) : State :=
  fold_left exchange xs s.

End Handlers.

(** The single-flight invariant: no handler is reading a body, the
    variable [pollStats] is bound, and either no run is active and the flag
    is clear, or exactly one run is active, on the current status record,
    and the flag is set. *)
Definition single_flight (s : State) : Prop :=
  awaiting_body s = []
  /\ (pollStats (heap s) < List.length (objects (heap s)))%nat
  /\ match active s with
     | [] => Stats.running (current (heap s)) = false
     | [(_, r)] =>
         run_ref r = pollStats (heap s) /\ Stats.running (current (heap s)) = true
     | _ => False
     end.

End Server.

(* ================================================================== *)
(** ** Specification-side definitions *)
(* ================================================================== *)

(** The fingerprint as the specification words it: the SHA-256 hex digest
    of the ['|']-join of the normalized source message id, the lower-cased
    title, the lower-cased company, and the best available URL (normalized
    apply URL, else normalized posting URL, else the lower-cased description
    cut to its first 320 characters). *)
Definition spec_best_url (P : Platform) (c : Opportunity.t) : string :=
  match normalizeUrl P (of_opt (Opportunity.apply_url c)) with
  | Some u => u
  | None =>
      match normalizeUrl P (of_opt (Opportunity.posting_url c)) with
      | Some u => u
      | None => slice0 320 (toLowerCase (Opportunity.description c))
      end
  end.

Definition spec_fingerprint (P : Platform) (emailId : string) (c : Opportunity.t) : string :=
  SHA256.sha256_hex
    (join "|"
       [ normalizeString (JStr emailId) EmptyString;
         toLowerCase (Opportunity.job_title c);
         toLowerCase (Opportunity.company c);
         spec_best_url P c ]).

(** A string that [trim] leaves unchanged. Every text field of a candidate
    that [extractOpportunitiesFromEmail] or [enrichOpportunityWithUrls]
    builds is one (see [extract_text_normal] and [enrich_text_normal]). *)
Definition trimmed (s : string) : Prop := trim s = s.

Definition text_normal (c : Opportunity.t) : Prop :=
  trimmed (Opportunity.job_title c)
  /\ trimmed (Opportunity.company c)
  /\ trimmed (Opportunity.description c).

(** A well-formed absolute URL whose scheme is http or https: the
    serialization of a URL that the platform parser accepted with protocol
    [http:] or [https:]. *)
Definition HttpUrl (P : Platform) (s : string) : Prop :=
  exists input u,
    URL_parse P input = Some u /\ is_http u = true /\ s = URL_toString u.

Definition has_http_scheme (s : string) : bool :=
  String.prefix "http:" s || String.prefix "https:" s.

(** An optional URL field: absent, or an http(s) URL. *)
Definition url_field_ok (P : Platform) (v : option string) : Prop :=
  match v with
  | None => True
  | Some s => HttpUrl P s /\ has_http_scheme s = true
  end.

Definition job_urls_ok (P : Platform) (d : JobData.t) : Prop :=
  url_field_ok P (JobData.posting_url d) /\ url_field_ok P (JobData.apply_url d).

Definition links_ok (P : Platform) (links : list Link.t) : Prop :=
  Forall (fun l => HttpUrl P (Link.url l) /\ has_http_scheme (Link.url l) = true) links.

(** The candidate fields other than the three enrichment fields. *)
Definition same_candidate (a b : Opportunity.t) : Prop :=
  Opportunity.job_title a = Opportunity.job_title b
  /\ Opportunity.company a = Opportunity.company b
  /\ Opportunity.location a = Opportunity.location b
  /\ Opportunity.description a = Opportunity.description b
  /\ Opportunity.required_skills a = Opportunity.required_skills b
  /\ Opportunity.posting_url a = Opportunity.posting_url b
  /\ Opportunity.apply_url a = Opportunity.apply_url b
  /\ Opportunity.confidence a = Opportunity.confidence b
  /\ Opportunity.raw a = Opportunity.raw b.

(** The first character, if any, is not white space. *)
Definition clean_start (s : string) : Prop :=
  match s with
  | EmptyString => True
  | String c _ => is_space c = false
  end.

(** The text fields of a normalized email are trimmed. *)
Definition email_normal (e : Email.t) : Prop :=
  trimmed (Email.subject e) /\ trimmed (Email.from e) /\ trimmed (Email.textBody e).

(** No URL of the candidate or of the email is usable. *)
Definition no_usable_url (P : Platform) (c : Opportunity.t) (emailLinks : list Link.t) : Prop :=
  normalizeUrl P (JStr (or_string (Opportunity.apply_url c) EmptyString)) = None
  /\ normalizeUrl P (JStr (or_string (Opportunity.posting_url c) EmptyString)) = None
  /\ Forall (fun l => normalizeUrl P (JStr (Link.url l)) = None) emailLinks.

(** A small platform for running the definitions: a URL is accepted when
    it starts with [http://], [https://] or [mailto:]. *)
Definition demo_URL_parse (s : string) : option URL :=
  if String.prefix "http://" s then
    Some {| protocol := "http:"; after_protocol := substring 5 (String.length s - 5) s |}
  else if String.prefix "https://" s then
    Some {| protocol := "https:"; after_protocol := substring 6 (String.length s - 6) s |}
  else if String.prefix "mailto:" s then
    Some {| protocol := "mailto:"; after_protocol := substring 7 (String.length s - 7) s |}
  else None.

Definition demo_platform : Platform :=
  {| URL_parse := demo_URL_parse;
     JSON_stringify := fun _ => "{}";
     Number_toString := fun _ => "0" |}.

(** Sample data for running the definitions. *)
Definition demo_candidate (raw : JsVal) (skills : list string) (conf : option Q)
  : Opportunity.t :=
  {| Opportunity.job_title := "Backend Developer";
     Opportunity.company := "Acme";
     Opportunity.location := "Remote";
     Opportunity.description := "Build APIs";
     Opportunity.required_skills := skills;
     Opportunity.posting_url := Some "https://jobs.example/1";
     Opportunity.apply_url := None;
     Opportunity.confidence := conf;
     Opportunity.raw := raw;
     Opportunity.enrichment_status := None;
     Opportunity.enrichment_error := None;
     Opportunity.url_context_metadata := JUndefined |}.

Definition demo_indeed_email : Email.t :=
  {| Email.messageId := "<m7@indeed.example>";
     Email.subject := "5 new jobs for you on Indeed";
     Email.from := "Indeed <alert@indeed.example>";
     Email.receivedAt := None;
     Email.textBody := "Indeed found new postings that match your search.";
     Email.htmlBody := EmptyString;
     Email.links := [] |}.

Definition demo_bare_candidate : Opportunity.t :=
  {| Opportunity.job_title := "Data Engineer";
     Opportunity.company := "Initech";
     Opportunity.location := "Unknown";
     Opportunity.description := "Pipelines";
     Opportunity.required_skills := ["sql"];
     Opportunity.posting_url := None;
     Opportunity.apply_url := None;
     Opportunity.confidence := None;
     Opportunity.raw := JObj [("job_title", JStr "Data Engineer")];
     Opportunity.enrichment_status := None;
     Opportunity.enrichment_error := None;
     Opportunity.url_context_metadata := JUndefined |}.

(** The two URL fields of a candidate are absent or http(s) URLs. *)
Definition candidate_urls_ok (P : Platform) (c : Opportunity.t) : Prop :=
  url_field_ok P (Opportunity.posting_url c) /\ url_field_ok P (Opportunity.apply_url c).

(** Every persisted Job has its two URL fields absent or http(s) URLs. *)
Definition store_urls_ok (P : Platform) (st : Store) : Prop :=
  Forall (fun r => job_urls_ok P (job_data r)) (jobs st).

Definition demo_mail : ParsedMail :=
  {| parsed_subject := JStr "New role on LinkedIn: Backend Developer ";
     envelope_subject := JUndefined;
     parsed_from_text := JStr "LinkedIn Jobs <jobs@linkedin.example>";
     envelope_from_name := JUndefined;
     envelope_from_address := JUndefined;
     parsed_date := Some 1767225600000%Z;
     envelope_date := None;
     parsed_messageId := JStr "<m1@mail>";
     envelope_messageId := JUndefined;
     parsed_text := JStr "Acme is hiring. See https://jobs.example/1";
     parsed_html := JBool false;
     html_anchor_matches := [];
     text_url_matches := ["https://jobs.example/1"] |}.

Definition demo_opp_world : OppWorld :=
  {| enrich_gen := GenFail (ErrError "Error" "GEMINI_API_KEY is not set" false);
     existing_check_error := None;
     insert_error := None;
     resume_stage := inr (JObj [("name", JStr "Candidate")], "https://storage.example/r.pdf") |}.

Definition demo_message (check : option JsError) : MsgWorld :=
  {| uid := 42;
     has_source := true;
     parse_outcome := inr demo_mail;
     email_check_error := check;
     extract_gen := GenFail (ErrError "Error" "GEMINI_API_KEY is not set" false);
     opp_world := fun _ => demo_opp_world |}.

Definition demo_integration : Integration :=
  {| integ_user_id := "user-1";
     imap_host := "imap.example";
     job_keywords := None;
     keyword_match_scope := "subject";
     max_emails_per_sync := None |}.

(** The same integration, limited to three emails per sync. *)
Definition demo_capped_integration : Integration :=
  {| integ_user_id := "user-1";
     imap_host := "imap.example";
     job_keywords := None;
     keyword_match_scope := "subject";
     max_emails_per_sync := Some 3%Z |}.

Definition demo_world (check : option JsError) : IntegWorld :=
  {| integration := demo_integration;
     decrypt_error := None;
     baseProfile_error := None;
     fetch_outcome := inr [demo_message check];
     mark_error := None |}.

Definition empty_store : Store :=
  {| jobs := []; resumes := []; next_id := 1; mark_calls := [] |}.

(** A first run over the sample mailbox, with the capability disabled. *)
Definition demo_first_run : Store * Stats.t :=
  process_integration demo_platform (default_config false) false
    (empty_store, Stats.fresh true) (demo_world None).

(** A second run in which the per-email count fails, so that the message
    reaches the per-opportunity lookup. *)
Definition demo_second_world : IntegWorld :=
  demo_world (Some (ErrError "Error" "fetch failed" false)).

Definition demo_email : Email.t :=
  parseMessage demo_platform (default_config false) demo_mail 42.

Definition demo_extracted : Opportunity.t :=
  hd demo_bare_candidate (buildFallbackOpportunity (default_config false) demo_email).

Definition POST_poll : Server.Request :=
  {| Server.method := "POST"; Server.pathname := Some "/poll" |}.

Definition GET_health : Server.Request :=
  {| Server.method := "GET"; Server.pathname := Some "/health" |}.

Definition GET_status : Server.Request :=
  {| Server.method := "GET"; Server.pathname := Some "/status" |}.

(** The health body as the specification words it:
    [{ ok: true, running: <flag> }]. *)
Definition spec_health_body (h : Heap) : JsVal :=
  JObj [ ("ok", JBool true); ("running", JBool (Stats.running (current h))) ].

(** Two [POST /poll] requests, the second arriving while the first
    handler is still reading its request body. *)
Definition overlapping_polls : list Server.Event :=
  [ Server.Arrives 1 POST_poll;
    Server.Arrives 2 POST_poll;
    Server.BodyRead 1 (JObj []) None;
    Server.BodyRead 2 (JObj [("syncAll", JBool true)]) None ].

(** A run that is still going when more than [POLL_TIMEOUT_MS] have
    elapsed since it started. *)
Definition slow_run (cfg : Config) : list Server.Event :=
  [ Server.Arrives 1 POST_poll;
    Server.BodyRead 1 (JObj []) None;
    Server.Elapse (POLL_TIMEOUT_MS cfg + 1);
    Server.Arrives 2 GET_status ].

(** The server after one accepted [POST /poll], with the run started. *)
Definition demo_polling (P : Platform) (cfg : Config) : Server.State :=
  fst (Server.run P cfg (Server.initial empty_store)
         [ Server.Arrives 1 POST_poll; Server.BodyRead 1 (JObj []) None ]).

(** The server with one [POST /poll] handler reading its body. *)
Definition demo_reading (P : Platform) (cfg : Config) : Server.State :=
  fst (Server.run P cfg (Server.initial empty_store) [ Server.Arrives 1 POST_poll ]).

(* ================================================================== *)
(** ** Credential key derivation *)
(* ================================================================== *)

(** [s.padEnd(n)]: padded with spaces up to [n] characters. *)
Definition padEnd (n : nat) (s : string) : string :=
  s ++ string_of_list_ascii (repeat " "%char (n - String.length s)).

(** The raw key material that [getKey] hands to [importKey]:
    [secret.padEnd(32).slice(0, 32)]. *)
Definition key_material (secret : string) : string := slice0 32 (padEnd 32 secret).

(** [getKey()] up to the import of the key; [None]: it throws because
    [IMAP_SECRET_KEY] is not set. *)
Definition getKey (IMAP_SECRET_KEY : string) : option string :=
  if is_empty IMAP_SECRET_KEY then None else Some (key_material IMAP_SECRET_KEY).

(** A string in the form [normalizeStringArray] and the keyword
    normalization produce: not empty, trimmed and in lower case. *)
Definition canonical_word (x : string) : Prop :=
  is_empty x = false /\ trimmed x /\ toLowerCase x = x.

(** A confidence score is absent or lies between 0 and 1. *)
Definition confidence_ok (c : option Q) : Prop :=
  match c with
  | None => True
  | Some q => (0 <= q)%Q /\ (q <= 1)%Q
  end.

(** The bounds every candidate of the pipeline meets: a confidence that is
    absent or in [0, 1], a description of at most [MAX_DESCRIPTION_CHARS]
    characters plus the three dots of a cut, and at most [maxSkills]
    distinct canonical skills. *)
Definition candidate_bounded (cfg : Config) (maxSkills : nat) (c : Opportunity.t) : Prop :=
  confidence_ok (Opportunity.confidence c)
  /\ (String.length (Opportunity.description c) <= MAX_DESCRIPTION_CHARS cfg + 3)%nat
  /\ NoDup (Opportunity.required_skills c)
  /\ Forall canonical_word (Opportunity.required_skills c)
  /\ (List.length (Opportunity.required_skills c) <= maxSkills)%nat.

(** The key of the unique index [jobs_user_email_fingerprint_key]. *)
Definition job_key (r : JobRow) : string * string * string :=
  (JobData.user_id (job_data r), JobData.email_id (job_data r),
   JobData.job_fingerprint (job_data r)).

(** No two persisted jobs share (user id, email id, fingerprint), no two
    share an id, and every id in use is below the next one to assign. *)
Definition store_unique (st : Store) : Prop :=
  NoDup (map job_key (jobs st))
  /\ NoDup (map job_id (jobs st))
  /\ Forall (fun r => (job_id r < next_id st)%nat) (jobs st).

(** Some persisted job belongs to the user and the email. *)
Definition email_has_job (st : Store) (user_id email_id : string) : Prop :=
  exists r, In r (jobs st)
            /\ JobData.user_id (job_data r) = user_id
            /\ JobData.email_id (job_data r) = email_id.

(** How the counters and the store of a run relate between two points of
    the run: the flag is untouched, no counter decreases, errors are only
    appended, jobs and resumes are only appended and as many as the
    counters say, every inserted job has its resume generated or failed,
    and inserted plus duplicate opportunities do not exceed the extracted
    ones by more than [dx], nor matched emails the scanned ones by more
    than [dm]. *)
Definition accounted (dx dm : nat) (a b : Store * Stats.t) : Prop :=
  let (st, s) := a in
  let (st', s') := b in
  Stats.running s' = Stats.running s
  /\ (Stats.emailsScanned s <= Stats.emailsScanned s')%nat
  /\ (Stats.emailsKeywordMatched s <= Stats.emailsKeywordMatched s')%nat
  /\ (Stats.opportunitiesExtracted s <= Stats.opportunitiesExtracted s')%nat
  /\ (Stats.duplicateJobs s <= Stats.duplicateJobs s')%nat
  /\ (exists more, Stats.errors s' = Stats.errors s ++ more)
  /\ (exists new, jobs st' = jobs st ++ new
                  /\ Stats.jobsInserted s' = Stats.jobsInserted s + List.length new)
  /\ (exists new, resumes st' = resumes st ++ new
                  /\ Stats.resumesGenerated s' = Stats.resumesGenerated s + List.length new)
  /\ (Stats.resumesFailed s <= Stats.resumesFailed s')%nat
  /\ Stats.jobsInserted s' + Stats.resumesGenerated s + Stats.resumesFailed s
     = Stats.jobsInserted s + Stats.resumesGenerated s' + Stats.resumesFailed s'
  /\ (Stats.jobsInserted s' + Stats.duplicateJobs s' + Stats.opportunitiesExtracted s
      <= Stats.jobsInserted s + Stats.duplicateJobs s + Stats.opportunitiesExtracted s' + dx)%nat
  /\ (Stats.emailsKeywordMatched s' + Stats.emailsScanned s
      <= Stats.emailsKeywordMatched s + Stats.emailsScanned s' + dm)%nat.

(* ================================================================== *)
(** ** Generation requests: [generateStructuredJson] *)
(* ================================================================== *)

(** What the server reads of a [generateContent] response:
    [response.text], [response.candidates?.[0]?.content?.parts] and
    [response.candidates?.[0]?.urlContextMetadata]. *)
Record GenResponse : Type := {
  response_text : JsVal;
  candidate_parts : option (list JsVal);
  candidate_urlContextMetadata : JsVal
}.

Definition newline : string := String "010"%char EmptyString.

(** The [.map] callback on the parts: [normalizeString(part?.text, "")] *)
Definition part_text (part : JsVal) : string :=
  normalizeString (get part "text") EmptyString.

(** [parts?.map(...).filter(Boolean).join("\n")] *)
Definition candidateText (response : GenResponse) : JsVal :=
  match candidate_parts response with
  | Some parts =>
      JStr (join newline (filter (fun t => negb (is_empty t)) (map part_text parts)))
  | None => JUndefined
  end.

(** [generateStructuredJson({ prompt, schema, tools })]; [call] is the
    outcome of [ai.models.generateContent], the value it throws or its
    response, and [JSON_parse] is [JSON.parse], which returns the value or
    the error it throws. *)
Definition generateStructuredJson (P : Platform) (cfg : Config)
  (JSON_parse : string -> JsError + JsVal) (call : JsError + GenResponse) : GenOutcome :=
  if negb (ai cfg) then GenFail (ErrError "Error" "GEMINI_API_KEY is not set" false)
  else
    match call with
    | inl err => GenFail err
    | inr response =>
        let text := normalizeString (response_text response) EmptyString in
        let text :=
          if is_empty text then normalizeString (candidateText response) EmptyString
          else text in
        if is_empty text
        then GenFail (ErrError "Error" "Gemini returned an empty response" false)
        else
          match JSON_parse text with
          | inl err =>
              GenFail (ErrError "Error"
                         ("Gemini returned invalid JSON: " ++ serializeError P err) false)
          | inr parsed => GenOk parsed text (candidate_urlContextMetadata response)
          end
    end.
(* ================================================================== *)
(** * Properties *)
(* ================================================================== *)

(** ** Strings *)

Example sha256_abc :
  SHA256.sha256_hex "abc"
  = "ba7816bf8f01cfea414140de5dae2223b00361a396177a9cb410ff61f20015ad".
Proof. vm_compute. reflexivity. Qed.

Example sha256_two_blocks :
  SHA256.sha256_hex
    "aaaaaaaaaaaaaaaaaaaaaaaaaaaaaaaaaaaaaaaaaaaaaaaaaaaaaaaaaaaaaaaaaaaaaa"
  = "6bd5e5034855a11241f0dee8fc72850ffd9955b28347a86428b5fa19119f6ad0".
Proof. vm_compute. reflexivity. Qed.

Lemma is_empty_true (s : string) : is_empty s = true -> s = EmptyString.
Proof. destruct s; simpl; congruence. Qed.

Lemma length_pos_nonempty (s : string) :
  (0 <? String.length s)%nat = negb (is_empty s).
Proof. destruct s; reflexivity. Qed.

Lemma normalizeString_trim (s : string) :
  normalizeString (JStr s) EmptyString = trim s.
Proof.
  unfold normalizeString. rewrite length_pos_nonempty.
  destruct (trim s); reflexivity.
Qed.

Lemma normalizeString_str (s fallback : string) :
  normalizeString (JStr s) fallback = or_str (trim s) fallback.
Proof.
  unfold normalizeString, or_str. rewrite length_pos_nonempty.
  destruct (trim s); reflexivity.
Qed.

Lemma append_nonempty (a b : string) : is_empty a = false -> is_empty (a ++ b) = false.
Proof. destruct a; simpl; congruence. Qed.

Lemma append_nonempty_r (a b : string) : is_empty b = false -> is_empty (a ++ b) = false.
Proof. destruct a; simpl; [exact (fun x => x) | reflexivity]. Qed.

Lemma is_http_protocol (u : URL) :
  is_http u = true -> protocol u = "http:" \/ protocol u = "https:".
Proof.
  unfold is_http. intros H. apply orb_true_iff in H.
  destruct H as [H | H]; apply String.eqb_eq in H; auto.
Qed.

Lemma prefix_app (p s : string) : String.prefix p (p ++ s) = true.
Proof. induction p as [| c p IH]; simpl; [destruct s; reflexivity |].
  rewrite IH. destruct (ascii_dec c c); congruence. Qed.

Lemma normalizeUrl_some (P : Platform) (v : JsVal) (s : string) :
  normalizeUrl P v = Some s ->
  exists x u, v = JStr x /\ URL_parse P (trim x) = Some u /\ is_http u = true
              /\ s = URL_toString u.
Proof.
  unfold normalizeUrl. destruct v; try discriminate.
  destruct (is_empty (trim s0)); try discriminate.
  destruct (URL_parse P (trim s0)) as [u |] eqn:Hp; try discriminate.
  destruct (is_http u) eqn:Hh; try discriminate.
  intros H. injection H as <-. exists s0, u. auto.
Qed.

Lemma normalizeUrl_HttpUrl (P : Platform) (v : JsVal) (s : string) :
  normalizeUrl P v = Some s -> HttpUrl P s /\ has_http_scheme s = true.
Proof.
  intros H. apply normalizeUrl_some in H. destruct H as (x & u & -> & Hp & Hh & ->).
  split.
  - exists (trim x), u. auto.
  - unfold has_http_scheme, URL_toString.
    destruct (is_http_protocol u Hh) as [-> | ->]; rewrite prefix_app;
      auto using orb_true_r.
Qed.

Lemma has_http_scheme_nonempty (s : string) :
  has_http_scheme s = true -> is_empty s = false.
Proof. destruct s; [discriminate | reflexivity]. Qed.

Lemma normalizeUrl_nonempty (P : Platform) (v : JsVal) (s : string) :
  normalizeUrl P v = Some s -> is_empty s = false.
Proof.
  intros H. apply has_http_scheme_nonempty. eapply normalizeUrl_HttpUrl; eauto.
Qed.

(** ** Trimmed text *)

Lemma trimStart_idem (s : string) : trimStart (trimStart s) = trimStart s.
Proof.
  induction s as [| c r IH]; simpl; [reflexivity |].
  destruct (is_space c) eqn:Hc; [exact IH | simpl; rewrite Hc; reflexivity].
Qed.

Lemma trimEnd_idem (s : string) : trimEnd (trimEnd s) = trimEnd s.
Proof.
  induction s as [| c r IH]; simpl; [reflexivity |].
  destruct (is_space c && is_empty (trimEnd r)) eqn:Hc; [reflexivity |].
  simpl. rewrite IH, Hc. reflexivity.
Qed.

Lemma trimStart_clean (s : string) : clean_start (trimStart s).
Proof.
  induction s as [| c r IH]; simpl; [exact I |].
  destruct (is_space c) eqn:Hc; [exact IH | exact Hc].
Qed.

Lemma trimStart_of_clean (s : string) : clean_start s -> trimStart s = s.
Proof. destruct s as [| c r]; simpl; [reflexivity | intros ->; reflexivity]. Qed.

Lemma trimEnd_clean (s : string) : clean_start s -> clean_start (trimEnd s).
Proof.
  destruct s as [| c r]; simpl; [exact (fun x => x) |].
  intros Hc. rewrite Hc. simpl. exact Hc.
Qed.

Lemma trim_idem (s : string) : trim (trim s) = trim s.
Proof.
  unfold trim.
  rewrite (trimStart_of_clean (trimEnd (trimStart s))).
  - apply trimEnd_idem.
  - apply trimEnd_clean, trimStart_clean.
Qed.

Lemma trimmed_trim (s : string) : trimmed (trim s).
Proof. apply trim_idem. Qed.

Lemma trimmed_iff (s : string) :
  trimmed s <-> clean_start s /\ trimEnd s = s.
Proof.
  unfold trimmed, trim. split.
  - intros H. assert (Hc : clean_start s).
    { rewrite <- H. apply trimEnd_clean, trimStart_clean. }
    split; [exact Hc |]. rewrite (trimStart_of_clean s Hc) in H. exact H.
  - intros [Hc He]. rewrite (trimStart_of_clean s Hc). exact He.
Qed.

Lemma trimEnd_app (x y : string) :
  is_empty y = false -> trimEnd y = y -> trimEnd (x ++ y) = (x ++ y)%string.
Proof.
  intros Hy He. induction x as [| c r IH]; simpl; [exact He |].
  rewrite IH. rewrite (append_nonempty_r r y Hy), andb_false_r. reflexivity.
Qed.

(** ** Fingerprint (claim C1) *)

Lemma best_url_chain (P : Platform) (a p : JsVal) (d : string) :
  or_string (or_else (normalizeUrl P a) (normalizeUrl P p)) d
  = match normalizeUrl P a with
    | Some u => u
    | None => match normalizeUrl P p with Some u => u | None => d end
    end.
Proof.
  destruct (normalizeUrl P a) as [u |] eqn:Ha; simpl.
  - rewrite (normalizeUrl_nonempty P a u Ha). simpl.
    rewrite (normalizeUrl_nonempty P a u Ha). reflexivity.
  - destruct (normalizeUrl P p) as [u |] eqn:Hp; simpl; [| reflexivity].
    rewrite (normalizeUrl_nonempty P p u Hp). reflexivity.
Qed.

Lemma fingerprint_descriptor_eq (P : Platform) (emailId : string) (c : Opportunity.t) :
  fingerprint_descriptor P emailId c
  = join "|"
      [ trim emailId;
        toLowerCase (trim (Opportunity.job_title c));
        toLowerCase (trim (Opportunity.company c));
        match normalizeUrl P (of_opt (Opportunity.apply_url c)) with
        | Some u => u
        | None =>
            match normalizeUrl P (of_opt (Opportunity.posting_url c)) with
            | Some u => u
            | None => slice0 320 (toLowerCase (trim (Opportunity.description c)))
            end
        end ].
Proof.
  unfold fingerprint_descriptor.
  rewrite best_url_chain, !normalizeString_trim. reflexivity.
Qed.

(** *** Every candidate of the pipeline has its text fields trimmed *)

Lemma trimmed_or_str (a b : string) : trimmed a -> trimmed b -> trimmed (or_str a b).
Proof. unfold or_str. destruct (is_empty a); auto. Qed.

Lemma normalizeString_trimmed (v : JsVal) (fallback : string) :
  trimmed fallback -> trimmed (normalizeString v fallback).
Proof.
  intros Hf. destruct v; try exact Hf.
  rewrite normalizeString_str. apply trimmed_or_str; [apply trimmed_trim | exact Hf].
Qed.

Lemma clean_start_slice0_dots (n : nat) (t : string) :
  clean_start t -> clean_start (slice0 n t ++ "...").
Proof.
  destruct n as [| k], t as [| c r]; simpl; intros H; try reflexivity. exact H.
Qed.

Lemma truncate_trimmed (t : string) (n : nat) : trimmed t -> trimmed (truncate t n).
Proof.
  intros Ht. unfold truncate.
  destruct (is_empty t); [reflexivity |].
  destruct (String.length t <=? n)%nat; [exact Ht |].
  apply trimmed_iff. split.
  - apply clean_start_slice0_dots. apply trimmed_iff in Ht. tauto.
  - apply trimEnd_app; reflexivity.
Qed.

Lemma sender_name_trimmed (from : string) : trimmed from -> trimmed (sender_name from).
Proof. apply normalizeString_trimmed. Qed.

Lemma parseMessage_normal (P : Platform) (cfg : Config) (m : ParsedMail) (uid : nat) :
  email_normal (parseMessage P cfg m uid).
Proof.
  unfold email_normal, parseMessage; simpl. repeat split.
  - apply normalizeString_trimmed. reflexivity.
  - repeat apply trimmed_or_str; apply normalizeString_trimmed; reflexivity.
  - apply normalizeString_trimmed. reflexivity.
Qed.

Lemma fallback_text_normal (cfg : Config) (e : Email.t) (c : Opportunity.t) :
  email_normal e -> In c (buildFallbackOpportunity cfg e) -> text_normal c.
Proof.
  intros (Hs & Hf & Hb) [<- | []]. unfold text_normal; simpl.
  auto using sender_name_trimmed, truncate_trimmed.
Qed.

Lemma clean_text_normal (P : Platform) (cfg : Config) (e : Email.t) (o : JsVal) :
  email_normal e -> text_normal (clean_opportunity P cfg e o).
Proof.
  intros (Hs & Hf & Hb). unfold text_normal, clean_opportunity; simpl.
  repeat split.
  - apply normalizeString_trimmed, Hs.
  - apply normalizeString_trimmed, sender_name_trimmed, Hf.
  - apply truncate_trimmed, normalizeString_trimmed, trimmed_or_str; assumption.
Qed.

Lemma extract_text_normal (P : Platform) (cfg : Config) (e : Email.t) (gen : GenOutcome)
  (c : Opportunity.t) :
  email_normal e -> In c (extractOpportunitiesFromEmail P cfg e gen) -> text_normal c.
Proof.
  intros He. unfold extractOpportunitiesFromEmail.
  destruct (negb (ai cfg)); [apply fallback_text_normal, He |].
  destruct gen as [parsed txt meta | err].
  - destruct (0 <? _)%nat.
    + intros Hin. apply filter_In in Hin. destruct Hin as [Hin _].
      apply in_map_iff in Hin. destruct Hin as (o & <- & _).
      apply clean_text_normal, He.
    + intros Hin. apply in_map_iff in Hin. destruct Hin as (x & <- & Hx).
      apply (fallback_text_normal cfg e x He) in Hx. exact Hx.
  - intros Hin. apply in_map_iff in Hin. destruct Hin as (x & <- & Hx).
    apply (fallback_text_normal cfg e x He) in Hx. exact Hx.
Qed.

Lemma enrich_text_normal (P : Platform) (cfg : Config) (c : Opportunity.t)
  (links : list Link.t) (gen : GenOutcome) :
  text_normal c -> text_normal (enrichOpportunityWithUrls P cfg c links gen).
Proof.
  intros (Ht & Hc & Hd). unfold enrichOpportunityWithUrls.
  destruct (negb (ai cfg)); [repeat split; assumption |].
  destruct (_ =? 0)%nat; [repeat split; assumption |].
  destruct gen as [parsed txt meta | err]; [| repeat split; assumption].
  unfold text_normal, merge_enrichment; simpl. repeat split.
  - apply normalizeString_trimmed, Ht.
  - apply normalizeString_trimmed, Hc.
  - apply truncate_trimmed, normalizeString_trimmed, Hd.
Qed.

(** In [handlePoll] the fingerprint of every enriched candidate is the
    specification's digest word for word. *)
Lemma pipeline_fingerprint_matches_spec (P : Platform) (cfg : Config)
  (m : ParsedMail) (uid : nat) (gen1 gen2 : GenOutcome) (extracted : Opportunity.t) :
  let emailContext := parseMessage P cfg m uid in
  In extracted (extractOpportunitiesFromEmail P cfg emailContext gen1) ->
  let enriched :=
    enrichOpportunityWithUrls P cfg extracted (Email.links emailContext) gen2 in
  buildJobFingerprint P (Email.messageId emailContext) enriched
  = spec_fingerprint P (Email.messageId emailContext) enriched.
Proof.
  intros emailContext Hin enriched.
  unfold buildJobFingerprint, spec_fingerprint, spec_best_url.
  rewrite fingerprint_descriptor_eq, normalizeString_trim.
  assert (Hn : text_normal enriched).
  { apply enrich_text_normal. eapply extract_text_normal; [| exact Hin].
    apply parseMessage_normal. }
  destruct Hn as (Ht & Hc & Hd). unfold trimmed in Ht, Hc, Hd.
  rewrite Ht, Hc, Hd. reflexivity.
Qed.

(** C1. [buildJobFingerprint(emailId, candidate)] is the SHA-256 hex digest
    of the ['|']-join of the normalized (trimmed) message id, the
    lower-cased title, the lower-cased company and the best available URL:
    the normalized apply URL, else the normalized posting URL, else the
    first 320 characters of the lower-cased description. The title, company
    and description go through the same normalization as the id before they
    are lower-cased; on a candidate whose text fields are already in that
    normal form, and so on every candidate that [handlePoll] fingerprints,
    the digest is the one of the specification word for word. It is a
    function of these
    fields only: candidates that agree on title, company, description and
    the two URLs have the same fingerprint, whatever their raw payload,
    skills, confidence or enrichment fields. *)
Theorem fingerprint_is_hash_of_semantic_fields
  (P : Platform) (emailId : string) (c : Opportunity.t) :
  buildJobFingerprint P emailId c
  = SHA256.sha256_hex
      (join "|"
         [ trim emailId;
           toLowerCase (trim (Opportunity.job_title c));
           toLowerCase (trim (Opportunity.company c));
           match normalizeUrl P (of_opt (Opportunity.apply_url c)) with
           | Some u => u
           | None =>
               match normalizeUrl P (of_opt (Opportunity.posting_url c)) with
               | Some u => u
               | None => slice0 320 (toLowerCase (trim (Opportunity.description c)))
               end
           end ])
  /\ (text_normal c -> buildJobFingerprint P emailId c = spec_fingerprint P emailId c)
  /\ (forall (cfg : Config) (m : ParsedMail) (uid : nat) (gen1 gen2 : GenOutcome)
             (extracted : Opportunity.t),
        let emailContext := parseMessage P cfg m uid in
        In extracted (extractOpportunitiesFromEmail P cfg emailContext gen1) ->
        let enriched :=
          enrichOpportunityWithUrls P cfg extracted (Email.links emailContext) gen2 in
        buildJobFingerprint P (Email.messageId emailContext) enriched
        = spec_fingerprint P (Email.messageId emailContext) enriched)
  /\ (forall c' : Opportunity.t,
        Opportunity.job_title c' = Opportunity.job_title c ->
        Opportunity.company c' = Opportunity.company c ->
        Opportunity.description c' = Opportunity.description c ->
        Opportunity.apply_url c' = Opportunity.apply_url c ->
        Opportunity.posting_url c' = Opportunity.posting_url c ->
        buildJobFingerprint P emailId c' = buildJobFingerprint P emailId c).
Proof.
  split; [| split; [| split]].
  - unfold buildJobFingerprint. rewrite fingerprint_descriptor_eq. reflexivity.
  - intros (Ht & Hc & Hd).
    unfold buildJobFingerprint, spec_fingerprint, spec_best_url.
    rewrite fingerprint_descriptor_eq, normalizeString_trim.
    unfold trimmed in Ht, Hc, Hd. rewrite Ht, Hc, Hd. reflexivity.
  - intros cfg m uid gen1 gen2 extracted. apply pipeline_fingerprint_matches_spec.
  - intros c' Ht Hc Hd Ha Hp.
    unfold buildJobFingerprint, fingerprint_descriptor.
    rewrite Ht, Hc, Hd, Ha, Hp. reflexivity.
Qed.

Lemma fingerprint_is_hash_of_semantic_fields_witness :
  text_normal (demo_candidate JNull [] None)
  /\ buildJobFingerprint demo_platform "<m1@mail>" (demo_candidate JNull [] None)
     = spec_fingerprint demo_platform "<m1@mail>" (demo_candidate JNull [] None)
  /\ buildJobFingerprint demo_platform "<m1@mail>"
       (demo_candidate (JObj [("b", JNull); ("a", JBool true)]) ["go"] (Some (1 # 2)%Q))
     = buildJobFingerprint demo_platform "<m1@mail>" (demo_candidate JNull [] None).
Proof.
  assert (Hn : text_normal (demo_candidate JNull [] None)).
  { repeat split; reflexivity. }
  destruct (fingerprint_is_hash_of_semantic_fields demo_platform "<m1@mail>"
              (demo_candidate JNull [] None)) as (_ & Hspec & _ & Hpure).
  split; [exact Hn | split].
  - exact (Hspec Hn).
  - apply Hpure; reflexivity.
Defined.

Example fingerprint_value :
  buildJobFingerprint demo_platform " <m1@mail> " (demo_candidate JNull [] None)
  = SHA256.sha256_hex "<m1@mail>|backend developer|acme|https://jobs.example/1".
Proof. vm_compute. reflexivity. Qed.

(** ** Relevance filter (claim C7) *)

Lemma prefix_lower (v s : string) :
  String.prefix v s = true -> String.prefix (toLowerCase v) (toLowerCase s) = true.
Proof.
  revert s. induction v as [| a v IH]; intros s; [destruct s; reflexivity |].
  destruct s as [| b s]; simpl; [discriminate |].
  destruct (ascii_dec a b) as [-> | Hne]; [| discriminate].
  intros H. destruct (ascii_dec (lower_char b) (lower_char b)); [auto | congruence].
Qed.

(** Lower-casing both sides preserves containment. *)
Lemma includes_lower (s v : string) :
  includes s v = true -> includes (toLowerCase s) (toLowerCase v) = true.
Proof.
  induction s as [| c r IH]; simpl; intros H.
  - rewrite orb_false_r in *. apply (prefix_lower v EmptyString H).
  - apply orb_true_iff in H. apply orb_true_iff. destruct H as [H | H].
    + left. apply (prefix_lower v (String c r) H).
    + right. apply IH, H.
Qed.

Lemma unique_strings_seen (xs seen : list string) (x : string) :
  In x seen -> In x (unique_strings xs seen).
Proof.
  revert seen. induction xs as [| y xs IH]; intros seen H; simpl; [exact H |].
  apply IH. unfold set_add_str. destruct (existsb _ seen); [exact H |].
  apply in_or_app. left. exact H.
Qed.

Lemma set_add_str_In (x : string) (seen : list string) : In x (set_add_str x seen).
Proof.
  unfold set_add_str. destruct (existsb (String.eqb x) seen) eqn:He.
  - apply existsb_exists in He. destruct He as (y & Hy & Heq).
    apply String.eqb_eq in Heq. subst. exact Hy.
  - apply in_or_app. right. left. reflexivity.
Qed.

Lemma unique_strings_In (xs seen : list string) (x : string) :
  In x xs -> In x (unique_strings xs seen).
Proof.
  revert seen. induction xs as [| y xs IH]; intros seen; simpl; [tauto |].
  intros [-> | H]; [apply unique_strings_seen, set_add_str_In | apply IH, H].
Qed.

(** A keyword the user configured is matched in lower case. *)
Lemma configured_keyword_effective (ks : list string) (k : string) :
  In k ks -> is_empty (trim k) = false ->
  In (toLowerCase (trim k)) (effective_keywords (Some ks)).
Proof.
  intros Hin Hne. unfold effective_keywords.
  destruct ks as [| k0 ks0]; [destruct Hin |].
  apply unique_strings_In, filter_In. split.
  - apply in_map_iff. exists k. split; [reflexivity | exact Hin].
  - destruct (trim k); [discriminate | reflexivity].
Qed.

(** A subject match decides relevance whatever the body and the scope. *)
Lemma keywordMatch_subject (e : Email.t) (keywords : list string) (matchInBody : bool) :
  existsb (fun keyword => includes (toLowerCase (Email.subject e)) keyword) keywords = true ->
  keywordMatch e keywords matchInBody = true.
Proof. unfold keywordMatch. intros ->. reflexivity. Qed.

(** With the subject-only scope the body does not enter the decision. *)
Lemma keywordMatch_subject_only (e e' : Email.t) (keywords : list string) :
  Email.subject e = Email.subject e' ->
  keywordMatch e keywords false = keywordMatch e' keywords false.
Proof.
  unfold keywordMatch. intros ->.
  destruct (existsb _ keywords); reflexivity.
Qed.

(** With the wider scope the body is looked at only after the subject
    check has failed. *)
Lemma keywordMatch_body_after_subject (e : Email.t) (keywords : list string) :
  keywordMatch e keywords true
  = if existsb (fun keyword => includes (toLowerCase (Email.subject e)) keyword) keywords
    then true
    else existsb (fun keyword => includes (toLowerCase (Email.textBody e)) keyword) keywords.
Proof. unfold keywordMatch. destruct (existsb _ keywords); reflexivity. Qed.

(** For keywords the user configured, matching is case-insensitive
    containment in the subject: when the subject contains [v] and [v] is
    the keyword [k] up to letter case (and surrounding blanks of [k]), the
    email is relevant under either scope. *)
Lemma configured_keyword_any_casing (e : Email.t) (ks : list string) (k v scope : string) :
  In k ks -> is_empty (trim k) = false ->
  toLowerCase v = toLowerCase (trim k) ->
  includes (Email.subject e) v = true ->
  isRelevant e (Some ks) scope = true.
Proof.
  intros Hin Hne Hv Hs. unfold isRelevant. apply keywordMatch_subject.
  apply existsb_exists. exists (toLowerCase (trim k)). split.
  - apply configured_keyword_effective; assumption.
  - rewrite <- Hv. apply includes_lower, Hs.
Qed.

Lemma lower_char_not_upper (c : ascii) : is_upper (lower_char c) = false.
Proof.
  destruct c as [[] [] [] [] [] [] [] []]; reflexivity.
Qed.

Lemma prefix_upper_first (a : ascii) (k s : string) :
  is_upper a = true -> String.prefix (String a k) (toLowerCase s) = false.
Proof.
  intros Ha. destruct s as [| c r]; simpl; [reflexivity |].
  destruct (ascii_dec a (lower_char c)) as [-> | _]; [| reflexivity].
  rewrite lower_char_not_upper in Ha. discriminate.
Qed.

(** A keyword that starts with a capital letter is contained in no
    lower-cased text. *)
Lemma includes_lower_capitalized (a : ascii) (k s : string) :
  is_upper a = true -> includes (toLowerCase s) (String a k) = false.
Proof.
  intros Ha. induction s as [| c r IH].
  - reflexivity.
  - change (String.prefix (String a k) (toLowerCase (String c r))
            || includes (toLowerCase r) (String a k) = false).
    rewrite (prefix_upper_first a k (String c r) Ha), IH. reflexivity.
Qed.

(** C7. With the built-in default keyword list the relevance decision is
    not case-insensitive containment: the list holds the keyword [Indeed]
    with a capital letter, which is compared against the lower-cased
    subject (and body) as it stands and therefore matches no email. An
    email whose subject contains [Indeed] is judged not relevant under
    either scope, and for every email the default list decides as the list
    without that keyword does. *)
Theorem default_keyword_Indeed_matches_nothing :
  In "Indeed" (effective_keywords None)
  /\ includes (Email.subject demo_indeed_email) "Indeed" = true
  /\ isRelevant demo_indeed_email None "subject" = false
  /\ isRelevant demo_indeed_email None "subject_or_body" = false
  /\ (forall (e : Email.t) (keywords : list string) (matchInBody : bool),
        keywordMatch e ("Indeed" :: keywords) matchInBody
        = keywordMatch e keywords matchInBody).
Proof.
  split; [left; reflexivity |].
  split; [vm_compute; reflexivity |].
  split; [vm_compute; reflexivity |].
  split; [vm_compute; reflexivity |].
  intros e keywords matchInBody. unfold keywordMatch. simpl existsb.
  rewrite !includes_lower_capitalized by reflexivity. reflexivity.
Qed.

Example configured_Indeed_matches :
  isRelevant demo_indeed_email (Some [" Indeed "]) "subject" = true.
Proof. vm_compute. reflexivity. Qed.

(** ** Opportunity extractor (claim C5) *)

Lemma fallback_shape (cfg : Config) (e : Email.t) :
  exists c, buildFallbackOpportunity cfg e = [c]
    /\ Opportunity.job_title c = Email.subject e
    /\ Opportunity.company c = sender_name (Email.from e)
    /\ Opportunity.description c = truncate (Email.textBody e) (MAX_DESCRIPTION_CHARS cfg)
    /\ Opportunity.confidence c = Some (35 # 100)%Q
    /\ get (Opportunity.raw c) "fallback" = JBool true
    /\ exists fields, Opportunity.raw c = JObj fields.
Proof. eexists. repeat split. eexists. reflexivity. Qed.

Lemma fallback_annotated (cfg : Config) (e : Email.t) (k : string) (v : JsVal) :
  String.eqb "fallback" k = false ->
  exists c,
    map (fun item => with_raw item (with_field (Opportunity.raw item) k v))
        (buildFallbackOpportunity cfg e) = [c]
    /\ Opportunity.job_title c = Email.subject e
    /\ Opportunity.company c = sender_name (Email.from e)
    /\ Opportunity.description c = truncate (Email.textBody e) (MAX_DESCRIPTION_CHARS cfg)
    /\ Opportunity.confidence c = Some (35 # 100)%Q
    /\ get (Opportunity.raw c) "fallback" = JBool true.
Proof.
  intros Hk. eexists. repeat split. simpl.
  rewrite String.eqb_sym, Hk. reflexivity.
Qed.

(** C5. [extractOpportunitiesFromEmail] is total and never returns an empty
    list. When the generation capability is disabled, when its call fails,
    or when no item of its answer is usable, the result is exactly one
    fallback candidate: its title is the subject, its company the sender's
    name, its description the truncated body text, its confidence 0.35, and
    its raw payload carries [fallback: true]. *)
Theorem extract_at_least_one_candidate
  (P : Platform) (cfg : Config) (e : Email.t) (gen : GenOutcome) :
  extractOpportunitiesFromEmail P cfg e gen <> []
  /\ ((ai cfg = false
       \/ (exists err, gen = GenFail err)
       \/ (exists parsed txt meta,
             gen = GenOk parsed txt meta
             /\ filter usable
                  (map (clean_opportunity P cfg e)
                     match get parsed "opportunities" with
                     | JArr items => items
                     | _ => []
                     end) = []))
      -> exists c,
           extractOpportunitiesFromEmail P cfg e gen = [c]
           /\ Opportunity.job_title c = Email.subject e
           /\ Opportunity.company c = sender_name (Email.from e)
           /\ Opportunity.description c
              = truncate (Email.textBody e) (MAX_DESCRIPTION_CHARS cfg)
           /\ Opportunity.confidence c = Some (35 # 100)%Q
           /\ get (Opportunity.raw c) "fallback" = JBool true).
Proof.
  split.
  - unfold extractOpportunitiesFromEmail.
    destruct (negb (ai cfg)); [discriminate |].
    destruct gen as [parsed txt meta | err]; [| discriminate].
    destruct (filter usable _) as [| c cs]; simpl; discriminate.
  - intros H. unfold extractOpportunitiesFromEmail.
    destruct (ai cfg) eqn:Hai; cbn [negb].
    + destruct H as [H | [(err & ->) | (parsed & txt & meta & -> & Hnone)]].
      * discriminate.
      * apply fallback_annotated. reflexivity.
      * rewrite Hnone. cbn [List.length Nat.ltb Nat.leb].
        apply fallback_annotated. reflexivity.
    + destruct (fallback_shape cfg e) as (c & Hc & H1 & H2 & H3 & H4 & H5 & _).
      exists c. auto 10.
Qed.

Lemma extract_at_least_one_candidate_witness :
  exists c,
    extractOpportunitiesFromEmail demo_platform (default_config true) demo_indeed_email
      (GenFail (ErrError "Error" "quota exceeded" false)) = [c]
    /\ Opportunity.job_title c = "5 new jobs for you on Indeed"
    /\ Opportunity.confidence c = Some (35 # 100)%Q.
Proof.
  destruct (extract_at_least_one_candidate demo_platform (default_config true)
              demo_indeed_email (GenFail (ErrError "Error" "quota exceeded" false)))
    as (_ & H).
  destruct H as (c & Hc & Ht & _ & _ & Hconf & _).
  - right. left. eexists. reflexivity.
  - exists c. split; [exact Hc | split; [exact Ht | exact Hconf]].
Defined.

(** ** Opportunity enricher (claim C6) *)

Lemma dedupeLinks_loop_none (P : Platform) (maxLinks : nat) (links acc : list Link.t) :
  Forall (fun l => normalizeUrl P (JStr (Link.url l)) = None) links ->
  dedupeLinks_loop P maxLinks links acc = acc.
Proof.
  induction 1 as [| l links Hl _ IH]; cbn [dedupeLinks_loop]; [reflexivity |].
  rewrite Hl. exact IH.
Qed.

Lemma no_usable_url_no_candidates (P : Platform) (cfg : Config) (c : Opportunity.t)
  (links : list Link.t) :
  no_usable_url P c links -> candidateUrls P cfg c links = [].
Proof.
  intros (Ha & Hp & Hl). unfold candidateUrls, dedupeLinks, dedupeLinks_max.
  rewrite dedupeLinks_loop_none; [reflexivity |].
  repeat constructor; simpl; try assumption.
  apply Forall_map. simpl. exact Hl.
Qed.

Lemma with_enrichment_same (c : Opportunity.t) (status : string) (error : option string)
  (metadata : JsVal) :
  same_candidate (with_enrichment c status error metadata) c.
Proof. repeat split. Qed.

(** C6. [enrichOpportunityWithUrls] is total. With the capability enabled
    and no usable URL on the candidate or in the email, it returns the
    candidate with [enrichment_status = "skipped_no_urls"]; with the
    capability disabled, the candidate with the skipped status
    ["skipped_no_gemini"]; and when the generation call is made and fails,
    the candidate with [enrichment_status = "error"] and the serialized
    failure in [enrichment_error]. In all three cases every other field of
    the candidate is unchanged. *)
Theorem enrich_degrades_to_original
  (P : Platform) (cfg : Config) (c : Opportunity.t) (links : list Link.t)
  (gen : GenOutcome) :
  let r := enrichOpportunityWithUrls P cfg c links gen in
  (ai cfg = true -> no_usable_url P c links ->
     same_candidate r c
     /\ Opportunity.enrichment_status r = Some "skipped_no_urls"
     /\ Opportunity.enrichment_error r = None)
  /\ (ai cfg = false ->
        same_candidate r c
        /\ Opportunity.enrichment_status r = Some "skipped_no_gemini"
        /\ Opportunity.enrichment_error r = None)
  /\ (forall err, ai cfg = true -> candidateUrls P cfg c links <> [] ->
        gen = GenFail err ->
        same_candidate r c
        /\ Opportunity.enrichment_status r = Some "error"
        /\ Opportunity.enrichment_error r = Some (serializeError P err)).
Proof.
  intros r. subst r. unfold enrichOpportunityWithUrls. split; [| split].
  - intros Hai Hno. rewrite Hai. cbn [negb].
    rewrite (no_usable_url_no_candidates P cfg c links Hno).
    cbn [List.length Nat.eqb].
    split; [apply with_enrichment_same | split; reflexivity].
  - intros Hai. rewrite Hai. cbn [negb].
    split; [apply with_enrichment_same | split; reflexivity].
  - intros err Hai Hurls ->. rewrite Hai. cbn [negb].
    destruct (candidateUrls P cfg c links) as [| u us]; [congruence |].
    cbn [List.length Nat.eqb].
    split; [apply with_enrichment_same | split; reflexivity].
Qed.

Lemma enrich_degrades_to_original_witness :
  let c := demo_bare_candidate in
  Opportunity.enrichment_status
    (enrichOpportunityWithUrls demo_platform (default_config true) c []
       (GenFail (ErrValue JNull))) = Some "skipped_no_urls"
  /\ Opportunity.enrichment_status
       (enrichOpportunityWithUrls demo_platform (default_config false) c []
          (GenFail (ErrValue JNull))) = Some "skipped_no_gemini"
  /\ Opportunity.enrichment_error
       (enrichOpportunityWithUrls demo_platform (default_config true)
          (demo_candidate JNull [] None) []
          (GenFail (ErrError "Error" "Gemini returned an empty response" false)))
     = Some "Gemini returned an empty response".
Proof.
  intros c. split; [| split].
  - destruct (enrich_degrades_to_original demo_platform (default_config true) c []
                (GenFail (ErrValue JNull))) as (H & _ & _).
    apply H; [reflexivity |]. repeat split; constructor.
  - destruct (enrich_degrades_to_original demo_platform (default_config false) c []
                (GenFail (ErrValue JNull))) as (_ & H & _).
    apply H. reflexivity.
  - destruct (enrich_degrades_to_original demo_platform (default_config true)
                (demo_candidate JNull [] None) []
                (GenFail (ErrError "Error" "Gemini returned an empty response" false)))
      as (_ & _ & H).
    apply (H (ErrError "Error" "Gemini returned an empty response" false));
      [reflexivity | vm_compute; discriminate | reflexivity].
Defined.

(** ** URL hygiene (claim C10) *)

Lemma normalizeUrl_field_ok (P : Platform) (v : JsVal) : url_field_ok P (normalizeUrl P v).
Proof.
  destruct (normalizeUrl P v) as [s |] eqn:H; simpl; [| exact I].
  eapply normalizeUrl_HttpUrl, H.
Qed.

Lemma normalizeUrl_rejects (P : Platform) (x : string) :
  match URL_parse P (trim x) with
  | Some u => is_http u = false
  | None => True
  end ->
  normalizeUrl P (JStr x) = None.
Proof.
  unfold normalizeUrl. destruct (is_empty (trim x)); [reflexivity |].
  destruct (URL_parse P (trim x)) as [u |]; [intros ->; reflexivity | reflexivity].
Qed.

Lemma or_else_ok (P : Platform) (a b : option string) :
  url_field_ok P a -> url_field_ok P b -> url_field_ok P (or_else a b).
Proof.
  intros Ha Hb. unfold or_else. destruct a as [s |]; [| exact Hb].
  destruct (is_empty s); [exact Hb | exact Ha].
Qed.

Lemma or_null_ok (P : Platform) (a : option string) :
  url_field_ok P a -> url_field_ok P (or_null a).
Proof. intros Ha. apply or_else_ok; [exact Ha | exact I]. Qed.

Lemma dedupeLinks_loop_ok (P : Platform) (maxLinks : nat) (links acc : list Link.t) :
  links_ok P acc -> links_ok P (dedupeLinks_loop P maxLinks links acc).
Proof.
  revert acc. induction links as [| l links IH]; intros acc Hacc;
    cbn [dedupeLinks_loop]; [exact Hacc |].
  destruct (normalizeUrl P (JStr (Link.url l))) as [u |] eqn:Hu; [| apply IH, Hacc].
  assert (Hacc' : links_ok P
            (if has_url u acc then acc
             else acc ++ [{| Link.url := u;
                             Link.text := normalizeString (JStr (Link.text l)) EmptyString |}])).
  { destruct (has_url u acc); [exact Hacc |].
    apply Forall_app. split; [exact Hacc |].
    constructor; [| constructor]. simpl. eapply normalizeUrl_HttpUrl, Hu. }
  destruct (maxLinks <=? _)%nat; [exact Hacc' | apply IH, Hacc'].
Qed.

Lemma dedupeLinks_ok (P : Platform) (links : list Link.t) (maxLinks : nat) :
  links_ok P (dedupeLinks_max P links maxLinks).
Proof. apply dedupeLinks_loop_ok. constructor. Qed.

Lemma parseMessage_links_ok (P : Platform) (cfg : Config) (m : ParsedMail) (uid : nat) :
  links_ok P (Email.links (parseMessage P cfg m uid)).
Proof. unfold parseMessage; simpl. apply dedupeLinks_ok. Qed.

Lemma first_link_url_ok (P : Platform) (links : list Link.t) :
  links_ok P links -> url_field_ok P (first_link_url links).
Proof.
  intros H. destruct H as [| l links Hl _]; [exact I |].
  unfold first_link_url. apply or_null_ok. exact Hl.
Qed.

Lemma fallback_urls_ok (P : Platform) (cfg : Config) (e : Email.t) (c : Opportunity.t) :
  links_ok P (Email.links e) -> In c (buildFallbackOpportunity cfg e) ->
  candidate_urls_ok P c.
Proof.
  intros Hl [<- | []]. split; simpl; apply first_link_url_ok, Hl.
Qed.

Lemma extract_urls_ok (P : Platform) (cfg : Config) (e : Email.t) (gen : GenOutcome)
  (c : Opportunity.t) :
  links_ok P (Email.links e) ->
  In c (extractOpportunitiesFromEmail P cfg e gen) -> candidate_urls_ok P c.
Proof.
  intros Hl. unfold extractOpportunitiesFromEmail.
  destruct (negb (ai cfg)); [apply fallback_urls_ok, Hl |].
  destruct gen as [parsed txt meta | err].
  - destruct (0 <? _)%nat.
    + intros Hin. apply filter_In in Hin. destruct Hin as [Hin _].
      apply in_map_iff in Hin. destruct Hin as (o & <- & _).
      split; simpl; apply normalizeUrl_field_ok.
    + intros Hin. apply in_map_iff in Hin. destruct Hin as (x & <- & Hx).
      apply (fallback_urls_ok P cfg e x Hl) in Hx. exact Hx.
  - intros Hin. apply in_map_iff in Hin. destruct Hin as (x & <- & Hx).
    apply (fallback_urls_ok P cfg e x Hl) in Hx. exact Hx.
Qed.

Lemma enrich_urls_ok (P : Platform) (cfg : Config) (c : Opportunity.t)
  (links : list Link.t) (gen : GenOutcome) :
  candidate_urls_ok P c ->
  candidate_urls_ok P (enrichOpportunityWithUrls P cfg c links gen).
Proof.
  intros [Hp Ha]. unfold enrichOpportunityWithUrls.
  destruct (negb (ai cfg)); [split; assumption |].
  destruct (_ =? 0)%nat; [split; assumption |].
  destruct gen as [parsed txt meta | err]; [| split; assumption].
  split; simpl.
  - apply or_null_ok, or_else_ok; [apply normalizeUrl_field_ok | exact Hp].
  - apply or_null_ok. repeat apply or_else_ok;
      auto using normalizeUrl_field_ok.
Qed.

Lemma primaryUrl_ok (P : Platform) (enriched : Opportunity.t) (e : Email.t) :
  candidate_urls_ok P enriched -> links_ok P (Email.links e) ->
  url_field_ok P (primaryUrl enriched e).
Proof.
  intros [Hp Ha] Hl. unfold primaryUrl.
  apply or_null_ok. repeat apply or_else_ok; try assumption.
  destruct Hl as [| l links Hl0 _]; [exact I | exact Hl0].
Qed.

Lemma build_jobData_urls_ok (P : Platform) (cfg : Config) (integ : Integration)
  (uid : nat) (e : Email.t) (extracted enriched : Opportunity.t) (fp : string) :
  candidate_urls_ok P enriched -> links_ok P (Email.links e) ->
  job_urls_ok P (build_jobData P cfg integ uid e extracted enriched fp).
Proof.
  intros He Hl. pose proof (primaryUrl_ok P enriched e He Hl) as Hprim.
  destruct He as [Hp Ha].
  split; simpl; apply or_else_ok; assumption.
Qed.

Lemma build_jobData_job_link (P : Platform) (cfg : Config) (integ : Integration)
  (uid : nat) (e : Email.t) (extracted enriched : Opportunity.t) (fp : string) :
  candidate_urls_ok P enriched -> links_ok P (Email.links e) ->
  let link := JobData.job_link (build_jobData P cfg integ uid e extracted enriched fp) in
  has_http_scheme link = true
  \/ link = ("imap://" ++ imap_host integ ++ "/INBOX/" ++ decimal uid)%string.
Proof.
  intros He Hl. pose proof (primaryUrl_ok P enriched e He Hl) as Hprim.
  simpl. unfold or_string. destruct (primaryUrl enriched e) as [s |]; [| right; reflexivity].
  destruct (is_empty s); [right; reflexivity | left; apply Hprim].
Qed.

Lemma process_opportunity_store_ok (P : Platform) (cfg : Config) (integ : Integration)
  (uid : nat) (e : Email.t) (w : OppWorld) (st : LoopState) (extracted : Opportunity.t) :
  links_ok P (Email.links e) -> candidate_urls_ok P extracted ->
  store_urls_ok P (store st) ->
  store_urls_ok P (store (process_opportunity P cfg integ uid e w st extracted)).
Proof.
  intros Hl Hc Hst. unfold process_opportunity.
  destruct (existing_check_error w); [exact Hst |].
  destruct (find_existing_job _ _ _ _); [exact Hst |].
  unfold insert_job.
  destruct (insert_error w); [exact Hst |].
  destruct (find_existing_job _ _ _ _); [exact Hst |].
  assert (Hnew : store_urls_ok P
            {| jobs := jobs (store st) ++
                 [{| job_id := next_id (store st);
                     job_data :=
                       build_jobData P cfg integ uid e extracted
                         (enrichOpportunityWithUrls P cfg extracted (Email.links e)
                            (enrich_gen w))
                         (buildJobFingerprint P (Email.messageId e)
                            (enrichOpportunityWithUrls P cfg extracted (Email.links e)
                               (enrich_gen w))) |}];
               resumes := resumes (store st);
               next_id := S (next_id (store st));
               mark_calls := mark_calls (store st) |}).
  { unfold store_urls_ok; simpl. apply Forall_app. split; [exact Hst |].
    constructor; [| constructor]. simpl.
    apply build_jobData_urls_ok; [apply enrich_urls_ok, Hc | exact Hl]. }
  destruct (resume_stage w) as [err | [json url]]; exact Hnew.
Qed.

Lemma process_opportunities_store_ok (P : Platform) (cfg : Config) (integ : Integration)
  (uid : nat) (e : Email.t) (ow : nat -> OppWorld) (opps : list Opportunity.t) :
  links_ok P (Email.links e) -> Forall (candidate_urls_ok P) opps ->
  forall (i : nat) (st : LoopState),
    store_urls_ok P (store st) ->
    store_urls_ok P (store (process_opportunities P cfg integ uid e ow i opps st)).
Proof.
  intros Hl Hall. induction Hall as [| c opps Hc _ IH]; intros i st Hst; simpl;
    [exact Hst |].
  apply IH. apply process_opportunity_store_ok; assumption.
Qed.

Lemma process_message_store_ok (P : Platform) (cfg : Config) (integ : Integration)
  (keywords : list string) (matchInBody : bool) (st : IntegState) (raw : MsgWorld) :
  store_urls_ok P (i_store st) ->
  store_urls_ok P (i_store (process_message P cfg integ keywords matchInBody st raw)).
Proof.
  intros Hst. unfold process_message.
  destruct (parse_outcome raw) as [err | parsed]; [exact Hst |].
  destruct (email_seen _ _ _ _); [exact Hst |].
  destruct (negb (keywordMatch _ _ _)); [exact Hst |].
  simpl. apply process_opportunities_store_ok.
  - apply parseMessage_links_ok.
  - apply Forall_forall. intros c Hin.
    eapply extract_urls_ok; [apply parseMessage_links_ok | exact Hin].
  - exact Hst.
Qed.

Lemma fold_messages_store_ok (P : Platform) (cfg : Config) (integ : Integration)
  (keywords : list string) (matchInBody : bool) (msgs : list MsgWorld) (st : IntegState) :
  store_urls_ok P (i_store st) ->
  store_urls_ok P
    (i_store (fold_left (process_message P cfg integ keywords matchInBody) msgs st)).
Proof.
  revert st. induction msgs as [| raw msgs IH]; intros st Hst; simpl; [exact Hst |].
  apply IH, process_message_store_ok, Hst.
Qed.

Lemma process_integration_store_ok (P : Platform) (cfg : Config) (syncAll : bool)
  (st : Store * Stats.t) (w : IntegWorld) :
  store_urls_ok P (fst st) ->
  store_urls_ok P (fst (process_integration P cfg syncAll st w)).
Proof.
  intros Hst. unfold process_integration.
  destruct (decrypt_error w); [exact Hst |].
  destruct (baseProfile_error w); [exact Hst |].
  destruct (fetch_outcome w) as [err | inbox]; [exact Hst |].
  destruct (0 <? _)%nat; simpl; apply fold_messages_store_ok; exact Hst.
Qed.

Lemma fold_integrations_store_ok (P : Platform) (cfg : Config) (syncAll : bool)
  (ws : list IntegWorld) (st : Store * Stats.t) :
  store_urls_ok P (fst st) ->
  store_urls_ok P (fst (fold_left (process_integration P cfg syncAll) ws st)).
Proof.
  revert st. induction ws as [| w ws IH]; intros st Hst; simpl; [exact Hst |].
  apply IH, process_integration_store_ok, Hst.
Qed.

Lemma handlePoll_try_store_ok (P : Platform) (cfg : Config) (syncAll : bool)
  (query : JsError + list IntegWorld) (st : Store * Stats.t) :
  store_urls_ok P (fst st) ->
  store_urls_ok P (fst (fst (handlePoll_try P cfg syncAll query st))).
Proof.
  intros Hst. unfold handlePoll_try.
  destruct query as [err | [| w ws]].
  - destruct (is_nullish err); exact Hst.
  - exact Hst.
  - cbn [fst]. apply fold_integrations_store_ok. exact Hst.
Qed.

Lemma handlePoll_store_ok (P : Platform) (cfg : Config) (syncAll : bool) (w : RunWorld)
  (sigma : Store * Heap) :
  store_urls_ok P (fst sigma) ->
  store_urls_ok P (fst (fst (handlePoll P cfg syncAll w sigma))).
Proof.
  intros Hst. unfold handlePoll.
  destruct (createClient_error w); [exact Hst |].
  unfold handlePoll_settle.
  pose proof (handlePoll_try_store_ok P cfg syncAll (integrations_query w)
                (fst sigma, deref (snd sigma) (pollStats (snd sigma))) Hst) as H.
  destruct (handlePoll_try _ _ _ _ _) as [st completion]. exact H.
Qed.

(** C10. Every URL the pipeline stores or forwards is absent or a
    well-formed absolute http(s) URL. [normalizeUrl] returns only
    serializations of URLs the platform parser accepted with protocol
    [http:] or [https:], and rejects what does not parse or has another
    protocol; every link of a normalized email, and of any [dedupeLinks]
    result, is such a URL; a run of [handlePoll] on a job store whose
    [posting_url] and [apply_url] fields are all absent or http(s) URLs
    leaves it so, whatever the external calls return; and the [jobData]
    built for any candidate of a parsed message has both fields absent or
    http(s), with [job_link] an http(s) URL or the synthesized [imap://]
    locator. *)
Theorem stored_urls_are_http (P : Platform) (cfg : Config) :
  (forall (v : JsVal) (s : string),
      normalizeUrl P v = Some s -> HttpUrl P s /\ has_http_scheme s = true)
  /\ (forall x : string,
        match URL_parse P (trim x) with
        | Some u => is_http u = false
        | None => True
        end -> normalizeUrl P (JStr x) = None)
  /\ (forall (links : list Link.t) (maxLinks : nat) (l : Link.t),
        In l (dedupeLinks_max P links maxLinks) ->
        HttpUrl P (Link.url l) /\ has_http_scheme (Link.url l) = true)
  /\ (forall (m : ParsedMail) (uid : nat) (l : Link.t),
        In l (Email.links (parseMessage P cfg m uid)) ->
        HttpUrl P (Link.url l) /\ has_http_scheme (Link.url l) = true)
  /\ (forall (syncAll : bool) (w : RunWorld) (sigma : Store * Heap),
        store_urls_ok P (fst sigma) ->
        store_urls_ok P (fst (fst (handlePoll P cfg syncAll w sigma))))
  /\ (forall (integ : Integration) (m : ParsedMail) (uid : nat) (gen1 gen2 : GenOutcome)
             (extracted : Opportunity.t),
        let e := parseMessage P cfg m uid in
        In extracted (extractOpportunitiesFromEmail P cfg e gen1) ->
        let enriched := enrichOpportunityWithUrls P cfg extracted (Email.links e) gen2 in
        let jobData :=
          build_jobData P cfg integ uid e extracted enriched
            (buildJobFingerprint P (Email.messageId e) enriched) in
        job_urls_ok P jobData
        /\ (has_http_scheme (JobData.job_link jobData) = true
            \/ JobData.job_link jobData
               = ("imap://" ++ imap_host integ ++ "/INBOX/" ++ decimal uid)%string)).
Proof.
  split; [exact (normalizeUrl_HttpUrl P) |].
  split; [exact (normalizeUrl_rejects P) |].
  split.
  { intros links maxLinks l Hin.
    pose proof (dedupeLinks_ok P links maxLinks) as H.
    unfold links_ok in H. rewrite Forall_forall in H. apply (H l Hin). }
  split.
  { intros m uid l Hin.
    pose proof (parseMessage_links_ok P cfg m uid) as H.
    unfold links_ok in H. rewrite Forall_forall in H. apply (H l Hin). }
  split; [exact (handlePoll_store_ok P cfg) |].
  intros integ m uid gen1 gen2 extracted e Hin enriched jobData.
  assert (Hc : candidate_urls_ok P enriched).
  { apply enrich_urls_ok. eapply extract_urls_ok; [| exact Hin].
    apply parseMessage_links_ok. }
  split.
  - apply build_jobData_urls_ok; [exact Hc | apply parseMessage_links_ok].
  - apply build_jobData_job_link; [exact Hc | apply parseMessage_links_ok].
Qed.

(** ** Duplicate opportunities (claim C2) *)








Example demo_first_run_inserts :
  List.length (jobs (fst demo_first_run)) = 1
  /\ Stats.jobsInserted (snd demo_first_run) = 1
  /\ Stats.duplicateJobs (snd demo_first_run) = 0
  /\ mark_calls (fst demo_first_run) = [[42]].
Proof. vm_compute. repeat split. Qed.

Example demo_second_run_counts_duplicate :
  let r := process_integration demo_platform (default_config false) false
             (fst demo_first_run, Stats.fresh true) demo_second_world in
  jobs (fst r) = jobs (fst demo_first_run)
  /\ resumes (fst r) = resumes (fst demo_first_run)
  /\ Stats.duplicateJobs (snd r) = 1
  /\ Stats.jobsInserted (snd r) = 0
  /\ mark_calls (fst r) = [[42]; [42]].
Proof. vm_compute. repeat split. Qed.


Lemma stored_urls_are_http_witness :
  (HttpUrl demo_platform "https://jobs.example/1"
   /\ has_http_scheme "https://jobs.example/1" = true)
  /\ normalizeUrl demo_platform (JStr "mailto:hr@acme.example") = None
  /\ normalizeUrl demo_platform (JStr "javascript:alert(1)") = None
  /\ store_urls_ok demo_platform
       (fst (fst (handlePoll demo_platform (default_config false) false
                    {| createClient_error := None;
                       integrations_query := inr [demo_world None] |}
                    (empty_store, {| objects := [Stats.fresh true]; pollStats := 0 |}))))
  /\ job_urls_ok demo_platform
       (build_jobData demo_platform (default_config false) demo_integration 42 demo_email
          demo_extracted
          (enrichOpportunityWithUrls demo_platform (default_config false) demo_extracted
             (Email.links demo_email) (enrich_gen demo_opp_world))
          (buildJobFingerprint demo_platform (Email.messageId demo_email)
             (enrichOpportunityWithUrls demo_platform (default_config false) demo_extracted
                (Email.links demo_email) (enrich_gen demo_opp_world)))).
Proof.
  destruct (stored_urls_are_http demo_platform (default_config false))
    as (Hnorm & Hrej & Hded & Hmail & Hrun & Hjob).
  split; [| split; [| split; [| split]]].
  - apply (Hnorm (JStr " https://jobs.example/1 ")). reflexivity.
  - apply Hrej. reflexivity.
  - apply Hrej. exact I.
  - apply Hrun. constructor.
  - apply (Hjob demo_integration demo_mail 42
             (GenFail (ErrError "Error" "GEMINI_API_KEY is not set" false))
             (enrich_gen demo_opp_world) demo_extracted).
    left. reflexivity.
Defined.

(** ** The status object *)

Lemma nth_update_nth {A} (n : nat) (f : A -> A) (xs : list A) (d : A) :
  nth n (update_nth n f xs) d = if (n <? List.length xs)%nat then f (nth n xs d) else d.
Proof.
  revert n. induction xs as [| x xs IH]; intros n; [destruct n; reflexivity |].
  destruct n as [| n]; [reflexivity |]. simpl. rewrite IH. reflexivity.
Qed.

Lemma length_update_nth {A} (n : nat) (f : A -> A) (xs : list A) :
  List.length (update_nth n f xs) = List.length xs.
Proof.
  revert n. induction xs as [| x xs IH]; intros n; [destruct n; reflexivity |].
  destruct n as [| n]; simpl; [reflexivity | rewrite IH; reflexivity].
Qed.

Lemma deref_modify (h : Heap) (ref : nat) (f : Stats.t -> Stats.t) :
  deref (modify ref f h) ref
  = if (ref <? List.length (objects h))%nat then f (deref h ref) else Stats.fresh false.
Proof. unfold deref, modify; simpl. apply nth_update_nth. Qed.

Lemma pollStats_modify (h : Heap) (ref : nat) (f : Stats.t -> Stats.t) :
  pollStats (modify ref f h) = pollStats h.
Proof. reflexivity. Qed.

(** After [pollStats.running = false] the current object is not running. *)
Lemma running_after_clear (h : Heap) (f : Stats.t -> Stats.t) :
  (forall s, Stats.running (f s) = false) ->
  Stats.running (current (modify (pollStats h) f h)) = false.
Proof.
  intros Hf. unfold current. rewrite pollStats_modify, deref_modify.
  destruct (_ <? _)%nat; [apply Hf | reflexivity].
Qed.

Lemma current_resetStats (h : Heap) : current (resetStats h) = Stats.fresh true.
Proof.
  unfold current, deref, resetStats; simpl.
  rewrite app_nth2, Nat.sub_diag; [reflexivity | lia].
Qed.

Lemma handlePoll_settle_idle (P : Platform) (cfg : Config) (ref : nat) (syncAll : bool)
  (query : JsError + list IntegWorld) (sigma : Store * Heap) :
  Stats.running (current (snd (fst (handlePoll_settle P cfg ref syncAll query sigma)))) = false.
Proof.
  unfold handlePoll_settle.
  destruct (handlePoll_try _ _ _ _ _) as [st completion]. cbn [fst snd].
  apply running_after_clear. reflexivity.
Qed.

Lemma background_catch_idle (P : Platform) (err : JsError) (h : Heap) :
  Stats.running (current (background_catch P err h)) = false.
Proof. apply running_after_clear. reflexivity. Qed.

Lemma lookup_remove_id {A} (id : nat) (xs : list (nat * A)) :
  Server.lookup_id id (Server.remove_id id xs) = None.
Proof.
  induction xs as [| [k v] xs IH]; simpl; [reflexivity |].
  destruct (Nat.eqb k id) eqn:Hk; simpl; [exact IH |].
  rewrite Hk. exact IH.
Qed.

(** A [POST /poll] that finds the flag clear is not answered at once: the
    handler goes on to read the body. *)
Lemma idle_poll_not_rejected (s : Server.State) (id : nat) :
  Stats.running (current (Server.heap s)) = false ->
  snd (Server.on_request s id POST_poll) = None.
Proof. unfold Server.on_request, Server.route, Server.respond; simpl. intros ->. reflexivity. Qed.

(** ** Release of the single-flight flag (claim C4) *)

(** C4. Every completion of [handlePoll] leaves [pollStats.running] false:
    a normal return and an exception caught inside it through the
    [finally], an exception that escapes it (thrown before the [try], or by
    the [catch] block itself) through the [.catch] callback of the [/poll]
    handler. In the server, once a run has settled, or failed to start, the
    flag is clear and the next [POST /poll] is not answered 409. *)
Theorem run_end_releases_flag (P : Platform) (cfg : Config) :
  (forall (syncAll : bool) (w : RunWorld) (sigma : Store * Heap),
      let result := handlePoll P cfg syncAll w sigma in
      let h := match snd result with
               | Returned => snd (fst result)
               | Threw err => background_catch P err (snd (fst result))
               end in
      Stats.running (current h) = false)
  /\ (forall (s : Server.State) (id : nat) (r : Server.Run)
             (query : JsError + list IntegWorld),
        Server.lookup_id id (Server.active s) = Some r ->
        let s' := Server.on_settle P cfg s id query in
        Stats.running (current (Server.heap s')) = false
        /\ Server.lookup_id id (Server.active s') = None
        /\ forall id', snd (Server.on_request s' id' POST_poll) = None)
  /\ (forall (s : Server.State) (id : nat) (reqBody : JsVal) (err : JsError),
        In id (Server.awaiting_body s) ->
        let s' := fst (Server.on_body_read P s id reqBody (Some err)) in
        Stats.running (current (Server.heap s')) = false
        /\ forall id', snd (Server.on_request s' id' POST_poll) = None).
Proof.
  split; [| split].
  - intros syncAll w sigma result h. subst h result. unfold handlePoll.
    destruct (createClient_error w) as [err |]; cbn [snd fst].
    + apply background_catch_idle.
    + pose proof (handlePoll_settle_idle P cfg (pollStats (snd sigma)) syncAll
                    (integrations_query w) sigma) as H.
      destruct (handlePoll_settle _ _ _ _ _ _) as [[st h] [| err]]; cbn [snd fst] in *.
      * exact H.
      * apply background_catch_idle.
  - intros s id r query Hr s'.
    assert (Hidle : Stats.running (current (Server.heap s')) = false).
    { subst s'. unfold Server.on_settle. rewrite Hr.
      pose proof (handlePoll_settle_idle P cfg (Server.run_ref r) (Server.run_syncAll r)
                    query (Server.world s, Server.heap s)) as H.
      destruct (handlePoll_settle _ _ _ _ _ _) as [[st h] [| err]]; cbn [snd fst] in *.
      - exact H.
      - apply background_catch_idle. }
    split; [exact Hidle | split].
    + subst s'. unfold Server.on_settle. rewrite Hr.
      destruct (handlePoll_settle _ _ _ _ _ _) as [[st h] completion].
      apply lookup_remove_id.
    + intros id'. apply idle_poll_not_rejected, Hidle.
  - intros s id reqBody err Hin s'.
    assert (Hidle : Stats.running (current (Server.heap s')) = false).
    { subst s'. unfold Server.on_body_read.
      assert (Hex : existsb (Nat.eqb id) (Server.awaiting_body s) = true).
      { apply existsb_exists. exists id. split; [exact Hin | apply Nat.eqb_refl]. }
      rewrite Hex. cbn [fst Server.heap]. apply background_catch_idle. }
    split; [exact Hidle |]. intros id'. apply idle_poll_not_rejected, Hidle.
Qed.

Lemma run_end_releases_flag_witness :
  let s1 := demo_polling demo_platform (default_config false) in
  Stats.running (current (Server.heap s1)) = true
  /\ Stats.running
       (current (Server.heap
          (Server.on_settle demo_platform (default_config false) s1 1
             (inl (ErrValue JNull))))) = false
  /\ Stats.running
       (current (Server.heap
          (fst (Server.on_body_read demo_platform
                  (demo_reading demo_platform (default_config false)) 1 (JObj [])
                  (Some (ErrError "Error" "supabaseKey is required." false)))))) = false.
Proof.
  intros s1.
  destruct (run_end_releases_flag demo_platform (default_config false)) as (_ & Hs & Hb).
  split; [reflexivity | split].
  - apply (Hs s1 1 {| Server.run_ref := 1; Server.run_syncAll := false;
                      Server.started_at := 0 |}).
    reflexivity.
  - apply Hb. left. reflexivity.
Defined.

(** ** Health check (claim C9) *)

(** C9, as the specification states it, fails: the health body has no
    [running] field. *)
Lemma health_body_field_is_not_running :
  snd (Server.on_request (Server.initial empty_store) 1 GET_health)
  <> Some {| Server.status_code := 200;
             Server.body := spec_health_body (Server.heap (Server.initial empty_store)) |}
  /\ (forall resp,
        snd (Server.on_request (Server.initial empty_store) 1 GET_health) = Some resp ->
        get (Server.body resp) "running" = JUndefined).
Proof.
  split.
  - vm_compute. discriminate.
  - intros resp H. vm_compute in H. injection H as <-. reflexivity.
Qed.

(** C9, amended. Every [GET /health] request is answered at once with
    status 200 and the body
    [{ ok: true, pollRunning: <running flag of the status record> }], and
    leaves the server state unchanged. *)
Theorem health_reports_pollRunning (s : Server.State) (id : nat) (r : Server.Request) :
  Server.method r = "GET" ->
  Server.pathname r = Some "/health" ->
  Server.on_request s id r
  = (s, Some {| Server.status_code := 200;
                Server.body :=
                  JObj [ ("ok", JBool true);
                         ("pollRunning",
                          JBool (Stats.running (current (Server.heap s)))) ] |}).
Proof.
  intros Hm Hp. unfold Server.on_request, Server.route, Server.respond.
  rewrite Hm, Hp. reflexivity.
Qed.

Lemma health_reports_pollRunning_witness :
  snd (Server.on_request (demo_polling demo_platform (default_config false)) 7 GET_health)
  = Some {| Server.status_code := 200;
            Server.body := JObj [ ("ok", JBool true); ("pollRunning", JBool true) ] |}.
Proof.
  rewrite (health_reports_pollRunning
             (demo_polling demo_platform (default_config false)) 7 GET_health).
  - reflexivity.
  - reflexivity.
  - reflexivity.
Defined.

(** ** Single flight (claim C3) *)

(** A [POST /poll] handled with nothing in between, on an idle server: the
    status record is reset and the answer is 202 with the record just
    reset. *)
Lemma post_poll_idle (P : Platform) (s : Server.State) (id : nat) (reqBody : JsVal) :
  Stats.running (current (Server.heap s)) = false ->
  let '(s', resp) := Server.post_poll P s id reqBody None in
  resp = Some {| Server.status_code := 202;
                 Server.body :=
                   JObj [ ("message", JStr "Polling started in background");
                          ("stats", Server.stats_json (Stats.fresh true)) ] |}
  /\ current (Server.heap s') = Stats.fresh true.
Proof.
  intros Hidle. unfold Server.post_poll, Server.serve, Server.on_request, Server.route, Server.respond. simpl.
  rewrite Hidle. unfold Server.on_body_read. cbn [Server.awaiting_body].
  rewrite existsb_app. cbn [existsb]. rewrite Nat.eqb_refl, orb_true_r. cbn [orb].
  unfold Server.accepted_body. cbn [Server.heap]. rewrite current_resetStats. auto.
Qed.

(** A [POST /poll] that finds the flag set is answered 409 with the
    current record, and changes nothing. *)
Lemma post_poll_running (P : Platform) (s : Server.State) (id : nat) (reqBody : JsVal)
  (createClient_error : option JsError) :
  Stats.running (current (Server.heap s)) = true ->
  Server.post_poll P s id reqBody createClient_error
  = (s, Some {| Server.status_code := 409;
                Server.body :=
                  JObj [ ("error",
                          JStr "A sync is already in progress. Please wait for it to finish.");
                         ("stats", Server.stats_json (current (Server.heap s))) ] |}).
Proof.
  intros Hrun. unfold Server.post_poll, Server.serve, Server.on_request, Server.route, Server.respond. simpl.
  rewrite Hrun. reflexivity.
Qed.

(** C3 fails when two [POST /poll] handlers overlap. The handler tests
    [pollStats.running] on arrival but sets it, through [resetStats], only
    after it has read the request body; a second request that arrives in
    between passes the same test. Both are answered 202, [resetStats] runs
    twice, and two runs are active at once: the first on a status record
    that is no longer the current one. When the first run settles it clears
    the flag of the second run's record, and a third request is accepted
    while the second run is still active. *)
Theorem overlapping_polls_start_two_runs :
  let cfg := default_config false in
  let out := Server.run demo_platform cfg (Server.initial empty_store) overlapping_polls in
  let s := fst out in
  map Server.status_code (snd out) = [202; 202]
  /\ List.length (Server.active s) = 2
  /\ map (fun p => Server.run_ref (snd p)) (Server.active s) = [1; 2]
  /\ pollStats (Server.heap s) = 2
  /\ (let s' := Server.on_settle demo_platform cfg s 1 (inr []) in
      List.length (Server.active s') = 1
      /\ Stats.running (current (Server.heap s')) = false
      /\ snd (Server.on_request s' 3 POST_poll) = None).
Proof. vm_compute. repeat split. Qed.

(** ** Overall timeout (claim C8) *)

Lemma elapse_changes_only_clock (P : Platform) (cfg : Config) (s : Server.State) (ms : Z) :
  let s' := fst (Server.step P cfg s (Server.Elapse ms)) in
  Server.heap s' = Server.heap s
  /\ Server.world s' = Server.world s
  /\ Server.active s' = Server.active s
  /\ Server.awaiting_body s' = Server.awaiting_body s
  /\ Server.now s' = (Server.now s + ms)%Z.
Proof. repeat split. Qed.

(** C8 fails: no timeout is raced against a run. [POLL_TIMEOUT_MS] is
    read from the environment and used nowhere, and no transition of the
    server depends on the clock. A run that has been going for more than
    [POLL_TIMEOUT_MS] is still active, the status record still says
    [running] with no error recorded, and when the run later settles no
    timeout error is recorded either. *)
Theorem run_outlives_poll_timeout :
  let cfg := default_config false in
  let out := Server.run demo_platform cfg (Server.initial empty_store) (slow_run cfg) in
  let s := fst out in
  Server.elapsed s 1 = Some (POLL_TIMEOUT_MS cfg + 1)%Z
  /\ Stats.running (current (Server.heap s)) = true
  /\ Stats.errors (current (Server.heap s)) = []
  /\ (let s' := Server.on_settle demo_platform cfg s 1 (inr [demo_world None]) in
      Stats.running (current (Server.heap s')) = false
      /\ Stats.errors (current (Server.heap s')) = []
      /\ Stats.jobsInserted (current (Server.heap s')) = 1).
Proof.
  vm_compute. repeat split.
Qed.

(** *** Without overlapping handlers the flag is a lock *)

Lemma length_objects_modify (h : Heap) (ref : nat) (f : Stats.t -> Stats.t) :
  List.length (objects (modify ref f h)) = List.length (objects h).
Proof. apply length_update_nth. Qed.

Lemma handlePoll_settle_heap_shape (P : Platform) (cfg : Config) (ref : nat)
  (syncAll : bool) (query : JsError + list IntegWorld) (sigma : Store * Heap) :
  let h := snd (fst (handlePoll_settle P cfg ref syncAll query sigma)) in
  pollStats h = pollStats (snd sigma)
  /\ List.length (objects h) = List.length (objects (snd sigma)).
Proof.
  unfold handlePoll_settle.
  destruct (handlePoll_try _ _ _ _ _) as [st completion]. cbn [fst snd].
  split; [reflexivity |]. rewrite !length_objects_modify. reflexivity.
Qed.

Lemma serve_keeps_single_flight (P : Platform) (s : Server.State) (id : nat)
  (r : Server.Request) (reqBody : JsVal) (createClient_error : option JsError) :
  Server.single_flight s ->
  Server.single_flight (fst (Server.serve P s id r reqBody createClient_error)).
Proof.
  intros Hinv. unfold Server.serve, Server.on_request, Server.route, Server.respond.
  destruct (String.eqb (Server.method r) "OPTIONS"); [exact Hinv |].
  destruct (Server.pathname r) as [p |]; [| exact Hinv].
  destruct (String.eqb p "/health"); [exact Hinv |].
  destruct (String.eqb p "/status"); [exact Hinv |].
  destruct (_ && _); [| exact Hinv].
  destruct (Stats.running (current (Server.heap s))) eqn:Hrun; [exact Hinv |].
  destruct Hinv as (Haw & Hbound & Hact).
  destruct (Server.active s) as [| [k run] [| x xs]] eqn:Ha;
    [| destruct Hact as [_ Hact]; congruence | destruct Hact].
  unfold Server.on_body_read. cbn [Server.awaiting_body Server.heap Server.active].
  rewrite Haw. cbn [app existsb filter]. rewrite Nat.eqb_refl. cbn [orb negb].
  destruct createClient_error as [err |]; cbn [fst]; unfold Server.single_flight;
    cbn [Server.awaiting_body Server.heap Server.active Server.run_ref app].
  - split; [reflexivity |]. split.
    + unfold background_catch. rewrite length_objects_modify, pollStats_modify.
      unfold resetStats; simpl. rewrite length_app; simpl. lia.
    + apply background_catch_idle.
  - split; [reflexivity |]. split.
    + unfold resetStats; simpl. rewrite length_app; simpl. lia.
    + split; [reflexivity |]. rewrite current_resetStats. reflexivity.
Qed.

Lemma settle_keeps_single_flight (P : Platform) (cfg : Config) (s : Server.State)
  (id : nat) (query : JsError + list IntegWorld) :
  Server.single_flight s -> Server.single_flight (Server.on_settle P cfg s id query).
Proof.
  intros Hinv. unfold Server.on_settle.
  destruct (Server.lookup_id id (Server.active s)) as [run |] eqn:Hl; [| exact Hinv].
  destruct Hinv as (Haw & Hbound & Hact).
  destruct (Server.active s) as [| [k r] [| x xs]] eqn:Ha;
    [discriminate | | destruct Hact].
  simpl in Hl. destruct (Nat.eqb k id) eqn:Hk; [| discriminate].
  injection Hl as <-.
  pose proof (handlePoll_settle_idle P cfg (Server.run_ref r) (Server.run_syncAll r)
                query (Server.world s, Server.heap s)) as Hidle.
  pose proof (handlePoll_settle_heap_shape P cfg (Server.run_ref r) (Server.run_syncAll r)
                query (Server.world s, Server.heap s)) as [Hps Hlen].
  destruct (handlePoll_settle _ _ _ _ _ _) as [[st h] completion].
  cbn [fst snd] in Hidle, Hps, Hlen.
  unfold Server.single_flight.
  cbn [Server.awaiting_body Server.heap Server.active Server.remove_id filter fst].
  rewrite Hk. cbn [negb].
  split; [exact Haw |]. destruct completion as [| err].
  - split; [rewrite Hps, Hlen; exact Hbound | exact Hidle].
  - split; [| apply background_catch_idle].
    unfold background_catch. rewrite length_objects_modify, pollStats_modify.
    rewrite Hps, Hlen. exact Hbound.
Qed.

(** X19. As long as no request arrives while a [/poll] handler is
    reading its body, the running flag is a lock: in every state reachable
    from the initial one, at most one run is active, it works on the
    current status record, and a run is active exactly when the flag is
    set. *)
Lemma sequential_single_flight (P : Platform) (cfg : Config) (st : Store)
  (xs : list Server.Exchange) :
  let s := Server.run_exchanges P cfg (Server.initial st) xs in
  Server.single_flight s
  /\ (List.length (Server.active s) <= 1)%nat
  /\ (Stats.running (current (Server.heap s)) = true <-> Server.active s <> []).
Proof.
  assert (Hinv : forall xs s, Server.single_flight s ->
                              Server.single_flight (Server.run_exchanges P cfg s xs)).
  { clear xs. induction xs as [| x xs IH]; intros s Hs; [exact Hs |].
    apply IH. destruct x as [id r reqBody ce | id query | ms]; cbn [Server.exchange].
    - destruct (Server.crashed s); [exact Hs | apply serve_keeps_single_flight, Hs].
    - destruct (Server.crashed s); [exact Hs | apply settle_keeps_single_flight, Hs].
    - exact Hs. }
  intros s. assert (Hs : Server.single_flight s).
  { apply Hinv. repeat split. simpl. lia. }
  split; [exact Hs |].
  destruct Hs as (_ & _ & Hact).
  destruct (Server.active s) as [| [k r] [| x xs']]; [| | destruct Hact].
  - split; [simpl; lia |]. rewrite Hact. split; [discriminate | congruence].
  - destruct Hact as [_ Hrun]. split; [simpl; lia |]. rewrite Hrun.
    split; [discriminate | reflexivity].
Qed.

(* ================================================================== *)
(** * Further properties of the code *)
(* ================================================================== *)

(** ** String helpers *)

Lemma str_length_app (a b : string) :
  String.length (a ++ b) = String.length a + String.length b.
Proof. induction a as [| c a IH]; simpl; [reflexivity | rewrite IH; reflexivity]. Qed.

Lemma length_slice0 (n : nat) (s : string) :
  String.length (slice0 n s) = Nat.min n (String.length s).
Proof.
  revert s. induction n as [| n IH]; intros s; [reflexivity |].
  destruct s as [| c s]; simpl; [reflexivity | rewrite IH; reflexivity].
Qed.

Lemma slice0_app (n : nat) (a b : string) :
  (n <= String.length a)%nat -> slice0 n (a ++ b) = slice0 n a.
Proof.
  revert a. induction n as [| n IH]; intros a H; [reflexivity |].
  destruct a as [| c a]; simpl in *; [lia |]. rewrite IH; [reflexivity | lia].
Qed.

Lemma slice0_slice0 (n : nat) (s : string) : slice0 n (slice0 n s) = slice0 n s.
Proof.
  revert s. induction n as [| n IH]; intros s; [reflexivity |].
  destruct s as [| c s]; simpl; [reflexivity | rewrite IH; reflexivity].
Qed.

Lemma slice0_all (n : nat) (s : string) : (String.length s <= n)%nat -> slice0 n s = s.
Proof.
  revert s. induction n as [| n IH]; intros s H.
  - destruct s; [reflexivity | simpl in H; lia].
  - destruct s as [| c s]; simpl in *; [reflexivity | rewrite IH; [reflexivity | lia]].
Qed.

Lemma str_app_assoc (a b c : string) : ((a ++ b) ++ c = a ++ (b ++ c))%string.
Proof. induction a as [| x a IH]; simpl; [reflexivity | rewrite IH; reflexivity]. Qed.

Lemma spaces_app (k m : nat) :
  string_of_list_ascii (repeat " "%char (k + m))
  = (string_of_list_ascii (repeat " "%char k)
     ++ string_of_list_ascii (repeat " "%char m))%string.
Proof. induction k as [| k IH]; simpl; [reflexivity | rewrite IH; reflexivity]. Qed.

Lemma length_spaces (k : nat) :
  String.length (string_of_list_ascii (repeat " "%char k)) = k.
Proof. induction k as [| k IH]; simpl; [reflexivity | rewrite IH; reflexivity]. Qed.

(** X1. [truncate(text, maxChars)] returns a text of at most
    [maxChars + 3] characters: the text itself when it fits, otherwise its
    first [maxChars] characters followed by three dots; in both cases the
    first [maxChars] characters of the result are those of the text. *)
Theorem truncate_bounds (text : string) (maxChars : nat) :
  (String.length (truncate text maxChars) <= maxChars + 3)%nat
  /\ ((String.length text <= maxChars)%nat -> truncate text maxChars = text)
  /\ ((maxChars < String.length text)%nat ->
        truncate text maxChars = (slice0 maxChars text ++ "...")%string
        /\ String.length (truncate text maxChars) = maxChars + 3)
  /\ slice0 maxChars (truncate text maxChars) = slice0 maxChars text.
Proof.
  unfold truncate. destruct text as [| c r]; [simpl; repeat split; try lia;
    destruct maxChars; reflexivity |].
  cbn [is_empty].
  destruct (Nat.leb_spec (String.length (String c r)) maxChars) as [Hle | Hgt].
  - repeat split; try lia.
  - assert (Hlen : String.length (slice0 maxChars (String c r) ++ "...") = maxChars + 3).
    { rewrite str_length_app, length_slice0. simpl String.length in *. lia. }
    repeat split; try lia.
    rewrite slice0_app; [apply slice0_slice0 |].
    rewrite length_slice0. lia.
Qed.

Lemma truncate_bounds_witness :
  truncate "abcdefgh" 5 = "abcde..." /\ truncate "abc" 5 = "abc".
Proof.
  destruct (truncate_bounds "abcdefgh" 5) as (_ & _ & Hlong & _).
  destruct (truncate_bounds "abc" 5) as (_ & Hshort & _).
  split.
  - apply Hlong. simpl. lia.
  - apply Hshort. simpl. lia.
Defined.

(** ** Credential key (getKey) *)

(** X2. The key material [getKey] imports is always exactly 32
    characters: a shorter secret is padded with spaces, a longer one is cut,
    so only the first 32 characters of [IMAP_SECRET_KEY] matter and
    trailing spaces of a short secret do not; with an empty secret [getKey]
    throws. *)
Theorem key_material_is_32_chars (secret : string) :
  String.length (key_material secret) = 32
  /\ (forall rest : string,
        (32 <= String.length secret)%nat ->
        key_material (secret ++ rest) = key_material secret)
  /\ (forall k : nat,
        (String.length secret + k <= 32)%nat ->
        key_material (secret ++ string_of_list_ascii (repeat " "%char k))
        = key_material secret)
  /\ (getKey secret = None <-> secret = EmptyString).
Proof.
  unfold key_material, padEnd. split; [| split; [| split]].
  - rewrite length_slice0, str_length_app, length_spaces. lia.
  - intros rest H.
    rewrite (slice0_app 32 (secret ++ rest)) by (rewrite str_length_app; lia).
    rewrite (slice0_app 32 secret rest) by lia.
    rewrite (slice0_app 32 secret) by lia. reflexivity.
  - intros k H. rewrite str_length_app, length_spaces.
    f_equal. rewrite str_app_assoc. f_equal.
    rewrite <- spaces_app. f_equal. f_equal. lia.
  - unfold getKey. destruct secret; simpl; split; congruence.
Qed.

Lemma key_material_is_32_chars_witness :
  key_material "0123456789abcdef0123456789abcdefXYZ" = key_material "0123456789abcdef0123456789abcdef"
  /\ key_material "secret  " = key_material "secret".
Proof.
  split.
  - apply (proj1 (proj2 (key_material_is_32_chars "0123456789abcdef0123456789abcdef")) "XYZ").
    simpl. lia.
  - apply (proj1 (proj2 (proj2 (key_material_is_32_chars "secret"))) 2).
    simpl. lia.
Defined.

(** ** Lower case and trimming commute *)

Lemma lower_char_idem (c : ascii) : lower_char (lower_char c) = lower_char c.
Proof. destruct c as [[] [] [] [] [] [] [] []]; reflexivity. Qed.

Lemma is_space_lower (c : ascii) : is_space (lower_char c) = is_space c.
Proof. destruct c as [[] [] [] [] [] [] [] []]; reflexivity. Qed.

Lemma toLowerCase_idem (s : string) : toLowerCase (toLowerCase s) = toLowerCase s.
Proof.
  induction s as [| c s IH]; simpl; [reflexivity |].
  rewrite lower_char_idem, IH. reflexivity.
Qed.

Lemma is_empty_lower (s : string) : is_empty (toLowerCase s) = is_empty s.
Proof. destruct s; reflexivity. Qed.

Lemma lower_trimStart (s : string) : toLowerCase (trimStart s) = trimStart (toLowerCase s).
Proof.
  induction s as [| c s IH]; simpl; [reflexivity |].
  rewrite is_space_lower. destruct (is_space c); [exact IH | reflexivity].
Qed.

Lemma lower_trimEnd (s : string) : toLowerCase (trimEnd s) = trimEnd (toLowerCase s).
Proof.
  induction s as [| c s IH]; simpl; [reflexivity |].
  rewrite is_space_lower, <- IH, is_empty_lower.
  destruct (is_space c && is_empty (trimEnd s)); reflexivity.
Qed.

Lemma lower_trim (s : string) : toLowerCase (trim s) = trim (toLowerCase s).
Proof. unfold trim. rewrite lower_trimEnd, lower_trimStart. reflexivity. Qed.

Lemma canonical_trim_lower (s : string) :
  is_empty (trim (toLowerCase s)) = false -> canonical_word (trim (toLowerCase s)).
Proof.
  intros H. split; [exact H | split; [apply trimmed_trim |]].
  rewrite lower_trim, toLowerCase_idem. reflexivity.
Qed.

(** ** Sets kept in insertion order *)

Lemma NoDup_snoc {A} (l : list A) (x : A) : NoDup l -> ~ In x l -> NoDup (l ++ [x]).
Proof.
  induction 1 as [| y l Hy Hl IH]; intros Hx; simpl.
  - constructor; [intros [] | constructor].
  - constructor.
    + intros Hin. apply in_app_or in Hin. destruct Hin as [Hin | [-> | []]];
        [exact (Hy Hin) | apply Hx; left; reflexivity].
    + apply IH. intros Hin. apply Hx. right. exact Hin.
Qed.

Lemma set_add_str_NoDup (x : string) (l : list string) :
  NoDup l -> NoDup (set_add_str x l).
Proof.
  intros H. unfold set_add_str. destruct (existsb (String.eqb x) l) eqn:He; [exact H |].
  apply NoDup_snoc; [exact H |]. intros Hin.
  assert (existsb (String.eqb x) l = true).
  { apply existsb_exists. exists x. split; [exact Hin | apply String.eqb_refl]. }
  congruence.
Qed.

Lemma set_add_str_length (x : string) (l : list string) :
  (List.length (set_add_str x l) <= S (List.length l))%nat.
Proof.
  unfold set_add_str. destruct (existsb _ l); [lia |].
  rewrite length_app. simpl. lia.
Qed.

Lemma set_add_str_Forall (Q : string -> Prop) (x : string) (l : list string) :
  Q x -> Forall Q l -> Forall Q (set_add_str x l).
Proof.
  intros Hx Hl. unfold set_add_str. destruct (existsb _ l); [exact Hl |].
  apply Forall_app. split; [exact Hl | constructor; [exact Hx | constructor]].
Qed.

(** ** normalizeStringArray *)

Lemma normalizeStringArray_loop_spec (P : Platform) (max : nat) (values : list JsVal) :
  forall unique : list string,
    NoDup unique -> Forall canonical_word unique ->
    (List.length unique < Nat.max 1 max)%nat ->
    let r := normalizeStringArray_loop P max values unique in
    NoDup r /\ Forall canonical_word r /\ (List.length r <= Nat.max 1 max)%nat.
Proof.
  induction values as [| v values IH]; intros unique Hnd Hall Hlen; cbn zeta.
  - cbn [normalizeStringArray_loop]. repeat split; [exact Hnd | exact Hall | lia].
  - cbn [normalizeStringArray_loop]. rewrite normalizeString_trim.
    destruct (is_empty (trim (toLowerCase (String_of P v)))) eqn:He;
      [apply IH; assumption |].
    pose proof (set_add_str_NoDup (trim (toLowerCase (String_of P v))) unique Hnd) as Hnd'.
    pose proof (set_add_str_length (trim (toLowerCase (String_of P v))) unique) as Hlen'.
    pose proof (set_add_str_Forall canonical_word _ unique
                  (canonical_trim_lower _ He) Hall) as Hall'.
    destruct (Nat.leb_spec max
                (List.length (set_add_str (trim (toLowerCase (String_of P v))) unique)))
      as [Hge | Hlt].
    + repeat split; [exact Hnd' | exact Hall' | lia].
    + apply IH; [exact Hnd' | exact Hall' | lia].
Qed.

Lemma normalizeStringArray_canonical_props (P : Platform) (values : JsVal) (max : nat) :
  let r := normalizeStringArray P values max in
  NoDup r
  /\ Forall canonical_word r
  /\ (List.length r <= Nat.max 1 max)%nat
  /\ ((forall items, values <> JArr items) -> r = []).
Proof.
  cbn zeta. unfold normalizeStringArray.
  destruct values as [| | b | q | s | items | fields];
    try (repeat split; solve [constructor | cbn [List.length]; lia]).
  pose proof (normalizeStringArray_loop_spec P max items [] (NoDup_nil _)
                (Forall_nil _)) as H.
  cbn zeta in H. destruct H as (H1 & H2 & H3); [cbn [List.length]; lia |].
  repeat split; try assumption. intros Hno. exfalso. apply (Hno items). reflexivity.
Qed.

(** X3. [normalizeStringArray(values, max)] returns pairwise distinct
    strings, each non-empty, trimmed and in lower case, and at most [max]
    of them (one when [max] is 0, because the size is tested only after an
    insertion); a value that is not an array gives the empty list. *)
Theorem normalizeStringArray_canonical (P : Platform) (values : JsVal) (max : nat) :
  let r := normalizeStringArray P values max in
  NoDup r
  /\ Forall canonical_word r
  /\ (List.length r <= Nat.max 1 max)%nat
  /\ ((forall items, values <> JArr items) -> r = []).
Proof. exact (normalizeStringArray_canonical_props P values max). Qed.

Lemma normalizeStringArray_canonical_witness :
  normalizeStringArray demo_platform (JStr "go, rust") 40 = []
  /\ normalizeStringArray demo_platform
       (JArr [JStr " Go "; JStr "go"; JStr "  "; JStr "Rust"; JStr "SQL"]) 2
     = ["go"; "rust"].
Proof.
  split.
  - apply (normalizeStringArray_canonical demo_platform (JStr "go, rust") 40).
    intros items. discriminate.
  - reflexivity.
Defined.

(** ** dedupeLinks *)

Lemma has_url_false (u : string) (acc : list Link.t) :
  has_url u acc = false -> ~ In u (map Link.url acc).
Proof.
  intros H Hin. apply in_map_iff in Hin. destruct Hin as (l & <- & Hl).
  assert (has_url (Link.url l) acc = true).
  { apply existsb_exists. exists l. split; [exact Hl | apply String.eqb_refl]. }
  congruence.
Qed.

(** What [dedupeLinks] keeps of a link. *)
Lemma dedupeLinks_loop_spec (P : Platform) (maxLinks : nat) (links : list Link.t)
  (Q : Link.t -> Prop) :
  (forall src u, In src links -> normalizeUrl P (JStr (Link.url src)) = Some u ->
                 Q {| Link.url := u;
                      Link.text := normalizeString (JStr (Link.text src)) EmptyString |}) ->
  forall acc : list Link.t,
    NoDup (map Link.url acc) -> Forall Q acc ->
    (List.length acc < Nat.max 1 maxLinks)%nat ->
    let r := dedupeLinks_loop P maxLinks links acc in
    NoDup (map Link.url r) /\ Forall Q r /\ (List.length r <= Nat.max 1 maxLinks)%nat.
Proof.
  induction links as [| l links IH]; intros HQ acc Hnd Hall Hlen; cbn zeta.
  - cbn [dedupeLinks_loop]. repeat split; [exact Hnd | exact Hall | lia].
  - cbn [dedupeLinks_loop].
    assert (HQ' : forall src u, In src links ->
              normalizeUrl P (JStr (Link.url src)) = Some u ->
              Q {| Link.url := u;
                   Link.text := normalizeString (JStr (Link.text src)) EmptyString |}).
    { intros src u Hin. apply HQ. right. exact Hin. }
    destruct (normalizeUrl P (JStr (Link.url l))) as [u |] eqn:Hu;
      [| apply IH; assumption].
    set (acc' := if has_url u acc then acc
                 else acc ++ [{| Link.url := u;
                                 Link.text := normalizeString (JStr (Link.text l))
                                                EmptyString |}]).
    assert (H' : NoDup (map Link.url acc') /\ Forall Q acc'
                 /\ (List.length acc' <= S (List.length acc))%nat).
    { subst acc'. destruct (has_url u acc) eqn:Hh; [repeat split; try assumption; lia |].
      repeat split.
      - rewrite map_app. simpl. apply NoDup_snoc; [exact Hnd | apply has_url_false, Hh].
      - apply Forall_app. split; [exact Hall |].
        constructor; [| constructor]. apply HQ; [left; reflexivity | exact Hu].
      - rewrite length_app. simpl. lia. }
    destruct H' as (Hnd' & Hall' & Hlen').
    destruct (Nat.leb_spec maxLinks (List.length acc')) as [Hge | Hlt].
    + repeat split; [exact Hnd' | exact Hall' | lia].
    + apply IH; [exact HQ' | exact Hnd' | exact Hall' | lia].
Qed.

Lemma dedupeLinks_distinct_bounded_props (P : Platform) (links : list Link.t) (maxLinks : nat) :
  let r := dedupeLinks_max P links maxLinks in
  NoDup (map Link.url r)
  /\ (List.length r <= Nat.max 1 maxLinks)%nat
  /\ Forall (fun l =>
               exists src, In src links
                 /\ normalizeUrl P (JStr (Link.url src)) = Some (Link.url l)
                 /\ Link.text l = normalizeString (JStr (Link.text src)) EmptyString) r.
Proof.
  cbn zeta. unfold dedupeLinks_max.
  pose proof (dedupeLinks_loop_spec P maxLinks links
                (fun l => exists src, In src links
                   /\ normalizeUrl P (JStr (Link.url src)) = Some (Link.url l)
                   /\ Link.text l = normalizeString (JStr (Link.text src)) EmptyString))
    as H.
  cbn zeta in H. destruct (H) with (acc := @nil Link.t) as (H1 & H2 & H3).
  - intros src u Hin Hu. exists src. simpl. auto.
  - constructor.
  - constructor.
  - cbn [List.length]. lia.
  - auto.
Qed.

(** X4. [dedupeLinks(links, maxLinks)] returns links with pairwise
    distinct URLs, at most [maxLinks] of them (one when [maxLinks] is 0),
    and each of them is an input link with its URL normalized and its text
    trimmed; input links whose URL does not normalize are dropped. *)
Theorem dedupeLinks_distinct_bounded (P : Platform) (links : list Link.t) (maxLinks : nat) :
  let r := dedupeLinks_max P links maxLinks in
  NoDup (map Link.url r)
  /\ (List.length r <= Nat.max 1 maxLinks)%nat
  /\ Forall (fun l =>
               exists src, In src links
                 /\ normalizeUrl P (JStr (Link.url src)) = Some (Link.url l)
                 /\ Link.text l = normalizeString (JStr (Link.text src)) EmptyString) r.
Proof. exact (dedupeLinks_distinct_bounded_props P links maxLinks). Qed.

Example dedupeLinks_sample :
  dedupeLinks_max demo_platform
    [ {| Link.url := " https://a.example/1 "; Link.text := " Apply " |};
      {| Link.url := "mailto:hr@a.example"; Link.text := "Mail" |};
      {| Link.url := "https://a.example/1"; Link.text := "Again" |};
      {| Link.url := "http://b.example"; Link.text := EmptyString |};
      {| Link.url := "https://c.example"; Link.text := "C" |} ] 2
  = [ {| Link.url := "https://a.example/1"; Link.text := "Apply" |};
      {| Link.url := "http://b.example"; Link.text := EmptyString |} ].
Proof. reflexivity. Qed.

(** ** Message normalizer *)

Lemma normalizeString_nonempty (v : JsVal) (fallback : string) :
  is_empty fallback = false -> is_empty (normalizeString v fallback) = false.
Proof.
  intros Hf. destruct v; try exact Hf.
  rewrite normalizeString_str. unfold or_str.
  destruct (is_empty (trim s)) eqn:He; [exact Hf | exact He].
Qed.

Lemma or_str_nonempty_r (a b : string) : is_empty b = false -> is_empty (or_str a b) = false.
Proof. intros Hb. unfold or_str. destruct (is_empty a) eqn:Ha; [exact Hb | exact Ha]. Qed.

Lemma normalizeString_blank (v : JsVal) :
  is_empty (normalizeString v EmptyString) = true ->
  normalizeString v EmptyString = EmptyString.
Proof. apply is_empty_true. Qed.

(** A text without white space is trimmed. *)
Lemma no_space_trimmed (s : string) :
  Forall (fun c => is_space c = false) (list_ascii_of_string s) -> trimmed s.
Proof.
  intros H. apply trimmed_iff. split.
  - destruct s as [| c r]; [exact I |]. inversion H; assumption.
  - induction s as [| c r IH]; [reflexivity |].
    inversion H as [| ? ? Hc Hr]; subst. cbn [trimEnd].
    rewrite Hc, (IH Hr). reflexivity.
Qed.

Lemma string_of_uint_no_space (d : Decimal.uint) :
  Forall (fun c => is_space c = false) (list_ascii_of_string (NilEmpty.string_of_uint d)).
Proof. induction d; simpl; constructor; auto. Qed.

(** The synthesized message id has no white space. *)
Lemma imap_id_trimmed (uid : nat) : trimmed ("imap-" ++ decimal uid).
Proof.
  apply no_space_trimmed. unfold decimal. simpl.
  repeat (constructor; [reflexivity |]). apply string_of_uint_no_space.
Qed.

Lemma parseMessage_envelope_props (P : Platform) (cfg : Config) (m : ParsedMail) (uid : nat) :
  let e := parseMessage P cfg m uid in
  is_empty (Email.messageId e) = false
  /\ is_empty (Email.subject e) = false
  /\ is_empty (Email.from e) = false
  /\ trimmed (Email.messageId e)
  /\ trimmed (Email.subject e) /\ trimmed (Email.from e) /\ trimmed (Email.textBody e)
  /\ NoDup (map Link.url (Email.links e))
  /\ (List.length (Email.links e) <= Nat.max 1 (MAX_LINKS_PER_EMAIL cfg))%nat
  /\ ((0 < MAX_LINKS_PER_EMAIL cfg)%nat ->
      (List.length (Email.links e) <= MAX_LINKS_PER_EMAIL cfg)%nat)
  /\ (is_empty (normalizeString (parsed_messageId m) EmptyString) = true ->
      is_empty (normalizeString (envelope_messageId m) EmptyString) = true ->
      Email.messageId e = ("imap-" ++ decimal uid)%string)
  /\ (forall uid' : nat,
        is_empty (normalizeString (parsed_messageId m) EmptyString) = false
        \/ is_empty (normalizeString (envelope_messageId m) EmptyString) = false ->
        Email.messageId (parseMessage P cfg m uid') = Email.messageId e).
Proof.
  cbn zeta.
  destruct (parseMessage_normal P cfg m uid) as (Hs & Hf & Hb).
  destruct (dedupeLinks_distinct_bounded_props P
              (extractLinksFromHtml P
                 (if is_empty match parsed_html m with JStr h => h | _ => EmptyString end
                  then [] else html_anchor_matches m)
               ++ extractLinksFromText P
                    (if is_empty (normalizeString (js_or (parsed_text m) (JStr EmptyString))
                                    EmptyString)
                     then [] else text_url_matches m))
              (MAX_LINKS_PER_EMAIL cfg)) as (Hnd & Hlen & _).
  unfold parseMessage; cbn [Email.messageId Email.subject Email.from Email.textBody Email.links].
  split; [repeat apply or_str_nonempty_r; reflexivity |].
  split; [apply normalizeString_nonempty; reflexivity |].
  split; [repeat apply or_str_nonempty_r; apply normalizeString_nonempty; reflexivity |].
  split.
  { apply trimmed_or_str; [apply normalizeString_trimmed; reflexivity |].
    apply trimmed_or_str; [apply normalizeString_trimmed; reflexivity |].
    apply imap_id_trimmed. }
  split; [exact Hs |]. split; [exact Hf |]. split; [exact Hb |].
  split; [exact Hnd |]. split; [exact Hlen |].
  split; [intros Hpos; unfold dedupeLinks; lia |].
  split.
  - intros H1 H2. unfold or_str. rewrite H1, H2. reflexivity.
  - intros uid' [H | H]; unfold or_str.
    + rewrite H. reflexivity.
    + rewrite H. destruct (is_empty (normalizeString (parsed_messageId m) EmptyString));
        reflexivity.
Qed.

(** X5. The email [parseMessage] returns always has a non-empty message
    id, subject and sender, all three trimmed like the body text; its links
    have pairwise distinct URLs and there are at most [MAX_LINKS_PER_EMAIL]
    of them when that is positive, and at most one when it is 0. When
    neither the parsed mail nor the envelope carries a usable message id,
    the id is ["imap-"] followed by the uid, and otherwise it does not
    depend on the uid. *)
Theorem parseMessage_envelope (P : Platform) (cfg : Config) (m : ParsedMail) (uid : nat) :
  let e := parseMessage P cfg m uid in
  is_empty (Email.messageId e) = false
  /\ is_empty (Email.subject e) = false
  /\ is_empty (Email.from e) = false
  /\ trimmed (Email.messageId e)
  /\ trimmed (Email.subject e) /\ trimmed (Email.from e) /\ trimmed (Email.textBody e)
  /\ NoDup (map Link.url (Email.links e))
  /\ (List.length (Email.links e) <= Nat.max 1 (MAX_LINKS_PER_EMAIL cfg))%nat
  /\ ((0 < MAX_LINKS_PER_EMAIL cfg)%nat ->
      (List.length (Email.links e) <= MAX_LINKS_PER_EMAIL cfg)%nat)
  /\ (is_empty (normalizeString (parsed_messageId m) EmptyString) = true ->
      is_empty (normalizeString (envelope_messageId m) EmptyString) = true ->
      Email.messageId e = ("imap-" ++ decimal uid)%string)
  /\ (forall uid' : nat,
        is_empty (normalizeString (parsed_messageId m) EmptyString) = false
        \/ is_empty (normalizeString (envelope_messageId m) EmptyString) = false ->
        Email.messageId (parseMessage P cfg m uid') = Email.messageId e).
Proof. exact (parseMessage_envelope_props P cfg m uid). Qed.

Lemma parseMessage_envelope_witness :
  Email.messageId
    (parseMessage demo_platform (default_config false)
       {| parsed_subject := JUndefined; envelope_subject := JUndefined;
          parsed_from_text := JUndefined; envelope_from_name := JUndefined;
          envelope_from_address := JUndefined; parsed_date := None; envelope_date := None;
          parsed_messageId := JStr "  "; envelope_messageId := JUndefined;
          parsed_text := JUndefined; parsed_html := JBool false;
          html_anchor_matches := []; text_url_matches := [] |} 17)
  = "imap-17"
  /\ Email.messageId (parseMessage demo_platform (default_config false) demo_mail 1)
     = Email.messageId (parseMessage demo_platform (default_config false) demo_mail 42).
Proof.
  split.
  - apply (parseMessage_envelope demo_platform (default_config false)); reflexivity.
  - apply (parseMessage_envelope demo_platform (default_config false) demo_mail 42).
    left. reflexivity.
Defined.

(** ** Keyword configuration *)

Lemma unique_strings_NoDup (xs seen : list string) :
  NoDup seen -> NoDup (unique_strings xs seen).
Proof.
  revert seen. induction xs as [| x xs IH]; intros seen H; simpl; [exact H |].
  apply IH, set_add_str_NoDup, H.
Qed.

Lemma set_add_str_inv (x y : string) (seen : list string) :
  In y (set_add_str x seen) -> y = x \/ In y seen.
Proof.
  unfold set_add_str. destruct (existsb _ seen); [auto |].
  intros H. apply in_app_or in H. destruct H as [H | [<- | []]]; auto.
Qed.

Lemma unique_strings_inv (xs seen : list string) (y : string) :
  In y (unique_strings xs seen) -> In y xs \/ In y seen.
Proof.
  revert seen. induction xs as [| x xs IH]; intros seen H; simpl in *; [auto |].
  apply IH in H. destruct H as [H | H]; [auto |].
  apply set_add_str_inv in H. destruct H as [-> | H]; auto.
Qed.

Lemma keywordMatch_nil (e : Email.t) (matchInBody : bool) :
  keywordMatch e [] matchInBody = false.
Proof. unfold keywordMatch. simpl. destruct matchInBody; reflexivity. Qed.

(** X6. For a non-empty configured keyword list, the keywords
    [handlePoll] matches with are exactly the non-blank configured ones,
    trimmed and lower-cased, without repetition. The built-in default list
    is used only when the configured list is missing or empty: a list
    whose entries are all blank leaves no keyword at all, and then no email
    is relevant. *)
Theorem configured_keywords_canonical (ks : list string) :
  ks <> [] ->
  let r := effective_keywords (Some ks) in
  NoDup r
  /\ Forall canonical_word r
  /\ (forall x, In x r <->
                exists k, In k ks /\ x = toLowerCase (trim k) /\ is_empty (trim k) = false)
  /\ ((forall k, In k ks -> is_empty (trim k) = true) ->
      r = [] /\ forall e scope, isRelevant e (Some ks) scope = false).
Proof.
  intros Hne. cbn zeta.
  assert (Hiff : forall x, In x (effective_keywords (Some ks)) <->
            exists k, In k ks /\ x = toLowerCase (trim k) /\ is_empty (trim k) = false).
  { intros x. split.
    - intros Hin. unfold effective_keywords in Hin.
      destruct ks as [| k0 rest]; [congruence |].
      apply unique_strings_inv in Hin. destruct Hin as [Hin | []].
      apply filter_In in Hin. destruct Hin as [Hin Hx].
      apply in_map_iff in Hin. destruct Hin as (k & <- & Hk).
      exists k. repeat split; [exact Hk |].
      rewrite is_empty_lower in Hx. destruct (is_empty (trim k)); [discriminate | reflexivity].
    - intros (k & Hk & -> & Hb). apply configured_keyword_effective; assumption. }
  split; [| split; [| split]].
  - unfold effective_keywords. destruct ks as [| k0 rest]; [congruence |].
    apply unique_strings_NoDup. constructor.
  - apply Forall_forall. intros x Hx. apply Hiff in Hx.
    destruct Hx as (k & _ & -> & Hb).
    rewrite lower_trim. apply canonical_trim_lower.
    rewrite <- lower_trim, is_empty_lower. exact Hb.
  - exact Hiff.
  - intros Hblank.
    assert (Hnil : effective_keywords (Some ks) = []).
    { destruct (effective_keywords (Some ks)) as [| x xs] eqn:Hr; [reflexivity |].
      assert (Hx : In x (x :: xs)) by (left; reflexivity).
      apply Hiff in Hx. destruct Hx as (k & Hk & _ & Hb).
      rewrite (Hblank k Hk) in Hb. discriminate. }
    split; [exact Hnil |]. intros e scope. unfold isRelevant. rewrite Hnil.
    apply keywordMatch_nil.
Qed.

Lemma configured_keywords_canonical_witness :
  effective_keywords (Some [" Remote "; "remote"; ""; "GO"]) = ["remote"; "go"]
  /\ isRelevant demo_indeed_email (Some ["  "; ""]) "subject_or_body" = false.
Proof.
  split; [reflexivity |].
  apply (configured_keywords_canonical ["  "; ""]); [discriminate |].
  intros k [<- | [<- | []]]; reflexivity.
Defined.

(** X7. Widening the relevance filter never loses an email: an email
    that is relevant with some keywords and scope is still relevant after
    keywords are added and after the scope is widened from the subject to
    subject or body. *)
Theorem keywordMatch_monotone (e : Email.t) (keywords more : list string)
  (matchInBody : bool) :
  keywordMatch e keywords matchInBody = true ->
  keywordMatch e (keywords ++ more) matchInBody = true
  /\ keywordMatch e (more ++ keywords) matchInBody = true
  /\ keywordMatch e keywords true = true.
Proof.
  unfold keywordMatch. intros H. rewrite !existsb_app.
  repeat match goal with
         | H0 : context [existsb ?f ?l] |- _ => destruct (existsb f l)
         | |- context [existsb ?f ?l] => destruct (existsb f l)
         end;
    destruct matchInBody; simpl in *; try discriminate; repeat split.
Qed.

Lemma keywordMatch_monotone_witness :
  keywordMatch demo_email ["linkedin"; "acme"] true = true.
Proof.
  apply (keywordMatch_monotone demo_email ["linkedin"] ["acme"] false). reflexivity.
Defined.

(** ** Bounds on candidates *)

Lemma clamp01_range (c : Q) : (0 <= clamp01 c)%Q /\ (clamp01 c <= 1)%Q.
Proof.
  unfold clamp01, Math_max, Math_min.
  destruct (Qle_bool 1 c) eqn:H1.
  - change (Qle_bool 0 1) with true. cbv iota. split; [discriminate | apply Qle_refl].
  - assert (Hc : (c <= 1)%Q).
    { apply Qlt_le_weak, Qnot_le_lt. intros H. apply Qle_bool_iff in H. congruence. }
    destruct (Qle_bool 0 c) eqn:H0.
    + split; [apply Qle_bool_iff, H0 | exact Hc].
    + split; [apply Qle_refl | discriminate].
Qed.

Lemma truncate_length (t : string) (n : nat) :
  (String.length (truncate t n) <= n + 3)%nat.
Proof.
  unfold truncate. destruct (is_empty t); [simpl; lia |].
  destruct (Nat.leb_spec (String.length t) n); [lia |].
  rewrite str_length_app, length_slice0. simpl. lia.
Qed.

Lemma truncate_nonempty (t : string) (n : nat) :
  is_empty t = false -> is_empty (truncate t n) = false.
Proof.
  intros H. unfold truncate. rewrite H.
  destruct (String.length t <=? n)%nat; [exact H |].
  apply append_nonempty_r. reflexivity.
Qed.

Lemma fallback_bounded (cfg : Config) (e : Email.t) (c : Opportunity.t) :
  In c (buildFallbackOpportunity cfg e) -> candidate_bounded cfg 50 c.
Proof.
  intros [<- | []]. unfold candidate_bounded; simpl.
  repeat split; try constructor; try discriminate; try lia.
  apply truncate_length.
Qed.

Lemma with_raw_bounded (cfg : Config) (n : nat) (c : Opportunity.t) (r : JsVal) :
  candidate_bounded cfg n c -> candidate_bounded cfg n (with_raw c r).
Proof. exact (fun H => H). Qed.

Lemma extract_candidates_bounded_props (P : Platform) (cfg : Config) (e : Email.t)
  (gen : GenOutcome) (c : Opportunity.t) :
  In c (extractOpportunitiesFromEmail P cfg e gen) ->
  candidate_bounded cfg 50 c
  /\ (is_empty (Email.subject e) = false -> is_empty (Opportunity.job_title c) = false)
  /\ is_empty (Opportunity.location c) = false.
Proof.
  unfold extractOpportunitiesFromEmail.
  assert (Hfb : forall x, In x (buildFallbackOpportunity cfg e) ->
            candidate_bounded cfg 50 x
            /\ (is_empty (Email.subject e) = false -> is_empty (Opportunity.job_title x) = false)
            /\ is_empty (Opportunity.location x) = false).
  { intros x Hx. split; [apply (fallback_bounded cfg e x Hx) |].
    destruct Hx as [<- | []]. simpl. auto. }
  assert (Hmap : forall k v x,
            In x (map (fun item => with_raw item (with_field (Opportunity.raw item) k v))
                    (buildFallbackOpportunity cfg e)) ->
            candidate_bounded cfg 50 x
            /\ (is_empty (Email.subject e) = false -> is_empty (Opportunity.job_title x) = false)
            /\ is_empty (Opportunity.location x) = false).
  { intros k v x Hx. apply in_map_iff in Hx. destruct Hx as (y & <- & Hy).
    apply (Hfb y Hy). }
  destruct (negb (ai cfg)); [apply Hfb |].
  destruct gen as [parsed txt meta | err]; [| apply Hmap].
  destruct (0 <? _)%nat; [| apply Hmap].
  intros Hin. apply filter_In in Hin. destruct Hin as [Hin _].
  apply in_map_iff in Hin. destruct Hin as (o & <- & _).
  destruct (normalizeStringArray_canonical_props P (get o "required_skills") 50)
    as (Hnd & Hcan & Hlen & _).
  change (Nat.max 1 50) with 50 in Hlen.
  assert (Hconf : confidence_ok (Opportunity.confidence (clean_opportunity P cfg e o))).
  { simpl. destruct (get o "confidence"); simpl; try exact I. apply clamp01_range. }
  split; [| split].
  - split; [exact Hconf |].
    split; [apply truncate_length |]. split; [exact Hnd |]. split; [exact Hcan | exact Hlen].
  - intros Hs. apply normalizeString_nonempty, Hs.
  - apply normalizeString_nonempty. reflexivity.
Qed.

(** X8. Every candidate [extractOpportunitiesFromEmail] returns, from
    the model or as fallback, has a confidence that is absent or between 0
    and 1, a description of at most [MAX_DESCRIPTION_CHARS + 3] characters,
    and at most 50 skills, pairwise distinct, trimmed and in lower case;
    when the email has a subject, its title is not empty. *)
Theorem extract_candidates_bounded (P : Platform) (cfg : Config) (e : Email.t)
  (gen : GenOutcome) (c : Opportunity.t) :
  In c (extractOpportunitiesFromEmail P cfg e gen) ->
  candidate_bounded cfg 50 c
  /\ (is_empty (Email.subject e) = false -> is_empty (Opportunity.job_title c) = false)
  /\ is_empty (Opportunity.location c) = false.
Proof. exact (extract_candidates_bounded_props P cfg e gen c). Qed.

Lemma extract_candidates_bounded_witness :
  candidate_bounded (default_config false) 50 demo_extracted.
Proof.
  apply (extract_candidates_bounded demo_platform (default_config false) demo_email
           (GenFail (ErrValue JNull)) demo_extracted).
  left. reflexivity.
Defined.

(** ** What enrichment keeps *)

Lemma or_else_truthy_l (a b : option string) :
  truthy_opt a = true -> truthy_opt (or_else a b) = true.
Proof.
  unfold truthy_opt, or_else. destruct a as [s |]; [| discriminate].
  destruct (is_empty s) eqn:He; simpl; intros H; [discriminate | rewrite He; reflexivity].
Qed.

Lemma or_else_truthy_r (a b : option string) :
  truthy_opt b = true -> truthy_opt (or_else a b) = true.
Proof.
  intros Hb. unfold or_else. destruct a as [s |]; [| exact Hb].
  destruct (is_empty s) eqn:He; [exact Hb | simpl; rewrite He; reflexivity].
Qed.

Lemma or_null_truthy (a : option string) : truthy_opt (or_null a) = truthy_opt a.
Proof.
  unfold or_null, or_else, truthy_opt. destruct a as [s |]; [| reflexivity].
  destruct (is_empty s) eqn:He; [reflexivity | rewrite He; reflexivity].
Qed.

Lemma enrich_keeps_information_props (P : Platform) (cfg : Config) (c : Opportunity.t)
  (links : list Link.t) (gen : GenOutcome) (n : nat) :
  let r := enrichOpportunityWithUrls P cfg c links gen in
  (is_empty (Opportunity.job_title c) = false -> is_empty (Opportunity.job_title r) = false)
  /\ (is_empty (Opportunity.company c) = false -> is_empty (Opportunity.company r) = false)
  /\ (is_empty (Opportunity.location c) = false -> is_empty (Opportunity.location r) = false)
  /\ (is_empty (Opportunity.description c) = false ->
      is_empty (Opportunity.description r) = false)
  /\ (truthy_opt (Opportunity.posting_url c) = true ->
      truthy_opt (Opportunity.posting_url r) = true)
  /\ (truthy_opt (Opportunity.apply_url c) = true ->
      truthy_opt (Opportunity.apply_url r) = true)
  /\ (Opportunity.enrichment_status r = Some "enriched" ->
      truthy_opt (Opportunity.posting_url c) = true ->
      truthy_opt (Opportunity.apply_url r) = true)
  /\ Opportunity.raw r = Opportunity.raw c
  /\ ((n <= 60)%nat -> candidate_bounded cfg n c -> candidate_bounded cfg 60 r)
  /\ In (Opportunity.enrichment_status r)
       [Some "skipped_no_gemini"; Some "skipped_no_urls"; Some "enriched"; Some "error"].
Proof.
  cbn zeta. unfold enrichOpportunityWithUrls.
  assert (Hweak : (n <= 60)%nat -> candidate_bounded cfg n c -> candidate_bounded cfg 60 c).
  { intros Hn (H1 & H2 & H3 & H4 & H5). repeat split; try assumption. lia. }
  assert (Hdegraded : forall status error metadata,
            In (Some status)
               [Some "skipped_no_gemini"; Some "skipped_no_urls"; Some "enriched";
                Some "error"] ->
            status <> "enriched" ->
            let r := with_enrichment c status error metadata in
            (is_empty (Opportunity.job_title c) = false ->
             is_empty (Opportunity.job_title r) = false)
            /\ (is_empty (Opportunity.company c) = false ->
                is_empty (Opportunity.company r) = false)
            /\ (is_empty (Opportunity.location c) = false ->
                is_empty (Opportunity.location r) = false)
            /\ (is_empty (Opportunity.description c) = false ->
                is_empty (Opportunity.description r) = false)
            /\ (truthy_opt (Opportunity.posting_url c) = true ->
                truthy_opt (Opportunity.posting_url r) = true)
            /\ (truthy_opt (Opportunity.apply_url c) = true ->
                truthy_opt (Opportunity.apply_url r) = true)
            /\ (Opportunity.enrichment_status r = Some "enriched" ->
                truthy_opt (Opportunity.posting_url c) = true ->
                truthy_opt (Opportunity.apply_url r) = true)
            /\ Opportunity.raw r = Opportunity.raw c
            /\ ((n <= 60)%nat -> candidate_bounded cfg n c -> candidate_bounded cfg 60 r)
            /\ In (Opportunity.enrichment_status r)
                 [Some "skipped_no_gemini"; Some "skipped_no_urls"; Some "enriched";
                  Some "error"]).
  { intros status error metadata Hin Hne. cbn zeta. simpl.
    repeat (split; [solve [auto] |]).
    split; [intros H; injection H as H; contradiction |].
    split; [reflexivity |]. split; [exact Hweak | exact Hin]. }
  destruct (negb (ai cfg)); [apply Hdegraded; [simpl; auto | discriminate] |].
  destruct (_ =? 0)%nat; [apply Hdegraded; [simpl; auto | discriminate] |].
  destruct gen as [parsed txt meta | err];
    [| apply Hdegraded; [simpl; auto 6 | discriminate]].
  unfold merge_enrichment; simpl.
  split; [apply normalizeString_nonempty |].
  split; [apply normalizeString_nonempty |].
  split; [apply normalizeString_nonempty |].
  split; [intros H; apply truncate_nonempty, normalizeString_nonempty, H |].
  split; [intros H; rewrite or_null_truthy; apply or_else_truthy_r, H |].
  split; [intros H; rewrite or_null_truthy; apply or_else_truthy_r, or_else_truthy_l, H |].
  split; [intros _ H; rewrite or_null_truthy; repeat apply or_else_truthy_r; exact H |].
  split; [reflexivity |].
  split; [| auto].
  intros Hn (Hc & _).
  destruct (normalizeStringArray_canonical_props P
              (JArr (map JStr
                 (normalizeStringArray P (JArr (map JStr (Opportunity.required_skills c))) 60
                  ++ normalizeStringArray P (get parsed "required_skills") 60))) 60)
    as (Hnd & Hcan & Hlen & _).
  change (Nat.max 1 60) with 60 in Hlen.
  split.
  { simpl. destruct (get parsed "confidence"); simpl; try exact Hc. apply clamp01_range. }
  split; [apply truncate_length |].
  split; [exact Hnd |]. split; [exact Hcan | exact Hlen].
Qed.

(** X9. Enrichment never loses what the candidate had: a non-empty
    title, company, location or description stays non-empty, a posting or
    apply URL stays present, the raw payload is unchanged, the confidence
    stays absent or within [0, 1] and the description within its bound, and
    the merged skills are at most 60, distinct and canonical. When the
    model's answer is merged, a candidate that had a posting URL also has
    an apply URL. The status is one of the four the function sets. *)
Theorem enrich_keeps_information (P : Platform) (cfg : Config) (c : Opportunity.t)
  (links : list Link.t) (gen : GenOutcome) (n : nat) :
  let r := enrichOpportunityWithUrls P cfg c links gen in
  (is_empty (Opportunity.job_title c) = false -> is_empty (Opportunity.job_title r) = false)
  /\ (is_empty (Opportunity.company c) = false -> is_empty (Opportunity.company r) = false)
  /\ (is_empty (Opportunity.location c) = false -> is_empty (Opportunity.location r) = false)
  /\ (is_empty (Opportunity.description c) = false ->
      is_empty (Opportunity.description r) = false)
  /\ (truthy_opt (Opportunity.posting_url c) = true ->
      truthy_opt (Opportunity.posting_url r) = true)
  /\ (truthy_opt (Opportunity.apply_url c) = true ->
      truthy_opt (Opportunity.apply_url r) = true)
  /\ (Opportunity.enrichment_status r = Some "enriched" ->
      truthy_opt (Opportunity.posting_url c) = true ->
      truthy_opt (Opportunity.apply_url r) = true)
  /\ Opportunity.raw r = Opportunity.raw c
  /\ ((n <= 60)%nat -> candidate_bounded cfg n c -> candidate_bounded cfg 60 r)
  /\ In (Opportunity.enrichment_status r)
       [Some "skipped_no_gemini"; Some "skipped_no_urls"; Some "enriched"; Some "error"].
Proof. exact (enrich_keeps_information_props P cfg c links gen n). Qed.

Lemma enrich_keeps_information_witness :
  truthy_opt
    (Opportunity.apply_url
       (enrichOpportunityWithUrls demo_platform (default_config true)
          (demo_candidate JNull [] None) []
          (GenOk (JObj [("job_title", JStr " ")]) "{}" JUndefined))) = true
  /\ candidate_bounded (default_config true) 60
       (enrichOpportunityWithUrls demo_platform (default_config true)
          (demo_candidate JNull [] None) []
          (GenOk (JObj [("confidence", JNum (7 # 2)%Q)]) "{}" JUndefined)).
Proof.
  split.
  - pose proof (enrich_keeps_information demo_platform (default_config true)
                  (demo_candidate JNull [] None) []
                  (GenOk (JObj [("job_title", JStr " ")]) "{}" JUndefined) 0) as H.
    cbv zeta in H. destruct H as (_ & _ & _ & _ & _ & _ & Henriched & _).
    apply Henriched; vm_compute; reflexivity.
  - pose proof (enrich_keeps_information demo_platform (default_config true)
                  (demo_candidate JNull [] None) []
                  (GenOk (JObj [("confidence", JNum (7 # 2)%Q)]) "{}" JUndefined) 0) as H.
    cbv zeta in H. destruct H as (_ & _ & _ & _ & _ & _ & _ & _ & Hbounded & _).
    apply Hbounded; [lia |].
    split; [exact I |]. split; [vm_compute; lia |].
    split; [constructor |]. split; [constructor | simpl; lia].
Defined.

(** ** The job row *)

(** X10. In the row [handlePoll] inserts, [apply_url] is always the
    primary URL: the enriched apply URL, else the enriched posting URL, else
    the email's first link, else null. [posting_url] is null exactly when
    [apply_url] is, neither is ever the empty string, and [job_link] is
    that same URL, or the synthesized [imap://] locator when there is none.
    In particular a candidate without apply URL but with a posting URL is
    stored with [apply_url] equal to the posting URL. *)
Theorem jobData_urls_coherent (P : Platform) (cfg : Config) (integ : Integration)
  (uid : nat) (e : Email.t) (extracted enriched : Opportunity.t) (fp : string) :
  let jobData := build_jobData P cfg integ uid e extracted enriched fp in
  let locator := ("imap://" ++ imap_host integ ++ "/INBOX/" ++ decimal uid)%string in
  JobData.apply_url jobData = primaryUrl enriched e
  /\ (JobData.apply_url jobData = None <-> JobData.posting_url jobData = None)
  /\ JobData.apply_url jobData <> Some EmptyString
  /\ JobData.posting_url jobData <> Some EmptyString
  /\ (forall u, JobData.apply_url jobData = Some u -> JobData.job_link jobData = u)
  /\ (JobData.apply_url jobData = None -> JobData.job_link jobData = locator)
  /\ (forall p, truthy_opt (Opportunity.apply_url enriched) = false ->
                Opportunity.posting_url enriched = Some p -> is_empty p = false ->
                JobData.apply_url jobData = Some p /\ JobData.posting_url jobData = Some p).
Proof.
  cbn zeta. unfold build_jobData, primaryUrl; simpl.
  unfold or_null, or_else, or_string, truthy_opt.
  destruct (Opportunity.apply_url enriched) as [a |];
    destruct (Opportunity.posting_url enriched) as [p |];
    destruct (Email.links e) as [| l ls];
    try destruct (is_empty a) eqn:Ha; try destruct (is_empty p) eqn:Hp;
    try destruct (is_empty (Link.url l)) eqn:Hl;
    simpl; rewrite ?Ha, ?Hp, ?Hl; simpl; rewrite ?Ha, ?Hp, ?Hl;
    repeat split; intros;
    repeat match goal with
           | H : Some _ = Some _ |- _ => injection H as H; subst
           end;
    simpl in *; try discriminate; try congruence; try reflexivity.
  all: intros Hc; injection Hc as Hc; try rewrite Hc in *; simpl in *;
    discriminate.
Qed.

Lemma jobData_urls_coherent_witness :
  JobData.apply_url
    (build_jobData demo_platform (default_config false) demo_integration 42 demo_email
       demo_bare_candidate (demo_candidate JNull [] None) "f")
  = Some "https://jobs.example/1"
  /\ JobData.job_link
       (build_jobData demo_platform (default_config false) demo_integration 42 demo_email
          demo_bare_candidate (demo_candidate JNull [] None) "f")
     = "https://jobs.example/1".
Proof.
  destruct (jobData_urls_coherent demo_platform (default_config false) demo_integration 42
              demo_email demo_bare_candidate (demo_candidate JNull [] None) "f")
    as (_ & _ & _ & _ & Hlink & _ & Hp).
  destruct (Hp "https://jobs.example/1") as [Ha _]; try reflexivity.
  split; [exact Ha | apply Hlink, Ha].
Defined.

(** ** Shape of the fingerprint *)

Lemma round_length (st : list Z) (kw : Z * Z) :
  List.length st = 8 -> List.length (SHA256.round st kw) = 8.
Proof.
  intros H.
  destruct st as [| a [| b [| c [| d [| e [| f [| g [| h [| x st]]]]]]]]];
    simpl in H; try discriminate. reflexivity.
Qed.

Lemma fold_round_length (kws : list (Z * Z)) (st : list Z) :
  List.length st = 8 -> List.length (fold_left SHA256.round kws st) = 8.
Proof.
  revert st. induction kws as [| kw kws IH]; intros st H; simpl; [exact H |].
  apply IH, round_length, H.
Qed.

Lemma compress_length (h block : list Z) :
  List.length h = 8 -> List.length (SHA256.compress h block) = 8.
Proof.
  intros H. unfold SHA256.compress.
  rewrite length_map, length_combine, fold_round_length, H; [reflexivity | exact H].
Qed.

Lemma digest_length (bs : list Z) : List.length (SHA256.digest bs) = 8.
Proof.
  unfold SHA256.digest.
  generalize (SHA256.blocks (List.length (SHA256.pad bs) / 64) (SHA256.pad bs)).
  intros blocks.
  assert (H : List.length SHA256.H0 = 8) by reflexivity.
  revert H. generalize SHA256.H0. induction blocks as [| b blocks IH]; intros h H; simpl.
  - exact H.
  - apply IH, compress_length, H.
Qed.

Lemma hex32_length (w : Z) : String.length (SHA256.hex32 w) = 8.
Proof. reflexivity. Qed.

Lemma concat_hex_length (ws : list Z) :
  String.length (String.concat EmptyString (map SHA256.hex32 ws)) = 8 * List.length ws.
Proof.
  induction ws as [| w ws IH]; [reflexivity |].
  destruct ws as [| w' ws].
  - simpl. lia.
  - change (String.length
              (SHA256.hex32 w ++ EmptyString
               ++ String.concat EmptyString (map SHA256.hex32 (w' :: ws)))
            = 8 * List.length (w :: w' :: ws)).
    rewrite str_length_app. cbn [append]. rewrite IH, hex32_length.
    cbn [List.length]. lia.
Qed.

Lemma sha256_hex_length (s : string) : String.length (SHA256.sha256_hex s) = 64.
Proof.
  unfold SHA256.sha256_hex. rewrite concat_hex_length, digest_length. reflexivity.
Qed.

(** X11. For every candidate of a parsed message, the row
    [handlePoll] builds has a non-empty message id, title, company and
    location, a description of at most [MAX_DESCRIPTION_CHARS + 3]
    characters, at most 60 skills that are distinct, trimmed and in lower
    case, a confidence that is absent or within [0, 1], the status
    [prepared], a parse status that is [partial] exactly when enrichment
    ended in [error] and [parsed] otherwise, and a fingerprint of 64
    characters. *)
Theorem pipeline_jobData_wellformed (P : Platform) (cfg : Config) (integ : Integration)
  (m : ParsedMail) (uid : nat) (gen1 gen2 : GenOutcome) (extracted : Opportunity.t) :
  let e := parseMessage P cfg m uid in
  In extracted (extractOpportunitiesFromEmail P cfg e gen1) ->
  let enriched := enrichOpportunityWithUrls P cfg extracted (Email.links e) gen2 in
  let jobData :=
    build_jobData P cfg integ uid e extracted enriched
      (buildJobFingerprint P (Email.messageId e) enriched) in
  is_empty (JobData.email_id jobData) = false
  /\ is_empty (JobData.job_title jobData) = false
  /\ is_empty (JobData.company jobData) = false
  /\ is_empty (JobData.location jobData) = false
  /\ (String.length (JobData.description jobData) <= MAX_DESCRIPTION_CHARS cfg + 3)%nat
  /\ NoDup (JobData.extracted_skills jobData)
  /\ Forall canonical_word (JobData.extracted_skills jobData)
  /\ (List.length (JobData.extracted_skills jobData) <= 60)%nat
  /\ confidence_ok (JobData.extraction_confidence jobData)
  /\ JobData.status jobData = "prepared"
  /\ (JobData.parse_status jobData = "partial"
      <-> Opportunity.enrichment_status enriched = Some "error")
  /\ (JobData.parse_status jobData = "partial" \/ JobData.parse_status jobData = "parsed")
  /\ String.length (JobData.job_fingerprint jobData) = 64.
Proof.
  intros e Hin enriched jobData.
  destruct (parseMessage_envelope_props P cfg m uid) as (Hid & Hsub & Hfrom & _).
  fold e in Hid, Hsub, Hfrom.
  destruct (extract_candidates_bounded_props P cfg e gen1 extracted Hin) as (Hb & _ & _).
  destruct (enrich_keeps_information_props P cfg extracted (Email.links e) gen2 50)
    as (_ & _ & _ & _ & _ & _ & _ & _ & Hkeep & _).
  fold enriched in Hkeep.
  assert (Hbe : candidate_bounded cfg 60 enriched) by (apply Hkeep; [lia | exact Hb]).
  destruct Hbe as (Hconf & _).
  destruct (normalizeStringArray_canonical_props P
              (JArr (map JStr (Opportunity.required_skills enriched))) 60)
    as (Hnd & Hcan & Hlen & _).
  change (Nat.max 1 60) with 60 in Hlen.
  subst jobData. unfold build_jobData.
  cbn [JobData.email_id JobData.job_title JobData.company JobData.location
       JobData.description JobData.extracted_skills JobData.extraction_confidence
       JobData.status JobData.parse_status JobData.job_fingerprint].
  split; [exact Hid |].
  split; [apply normalizeString_nonempty, Hsub |].
  split; [apply normalizeString_nonempty, normalizeString_nonempty, Hfrom |].
  split; [apply normalizeString_nonempty; reflexivity |].
  split; [apply truncate_length |].
  split; [exact Hnd |]. split; [exact Hcan |]. split; [exact Hlen |].
  split; [exact Hconf |]. split; [reflexivity |].
  split; [| split; [| apply sha256_hex_length]].
  - unfold opt_eqb. destruct (Opportunity.enrichment_status enriched) as [s |].
    + destruct (String.eqb_spec s "error") as [-> | Hne]; split; intros H;
        try reflexivity; try discriminate.
      injection H as H. contradiction.
    + split; discriminate.
  - destruct (opt_eqb _ _); auto.
Qed.

Lemma pipeline_jobData_wellformed_witness :
  String.length
    (JobData.job_fingerprint
       (build_jobData demo_platform (default_config false) demo_integration 42 demo_email
          demo_extracted
          (enrichOpportunityWithUrls demo_platform (default_config false) demo_extracted
             (Email.links demo_email) (enrich_gen demo_opp_world))
          (buildJobFingerprint demo_platform (Email.messageId demo_email)
             (enrichOpportunityWithUrls demo_platform (default_config false) demo_extracted
                (Email.links demo_email) (enrich_gen demo_opp_world))))) = 64.
Proof.
  apply (pipeline_jobData_wellformed demo_platform (default_config false) demo_integration
           demo_mail 42 (GenFail (ErrValue JNull)) (enrich_gen demo_opp_world)
           demo_extracted).
  left. reflexivity.
Defined.

(** ** The job store *)

Lemma same_job_key (u e f : string) (r : JobRow) :
  same_job u e f r = true <-> job_key r = (u, e, f).
Proof.
  unfold same_job, job_key. rewrite !andb_true_iff, !String.eqb_eq.
  split; [intros [[-> ->] ->]; reflexivity | intros H; injection H; auto].
Qed.

Lemma find_existing_job_none (st : Store) (u e f : string) :
  find_existing_job st u e f = None <-> ~ In (u, e, f) (map job_key (jobs st)).
Proof.
  unfold find_existing_job. split.
  - intros Hnone Hin. apply in_map_iff in Hin. destruct Hin as (r & Hk & Hr).
    apply (find_none _ _ Hnone) in Hr. apply same_job_key in Hk. congruence.
  - intros Hno. destruct (find _ (jobs st)) as [r |] eqn:Hf; [| reflexivity].
    apply find_some in Hf. destruct Hf as [Hr Hk]. apply same_job_key in Hk.
    exfalso. apply Hno. rewrite <- Hk. apply in_map, Hr.
Qed.

Lemma find_snoc {A} (f : A -> bool) (l : list A) (x : A) :
  find f (l ++ [x])
  = match find f l with
    | Some y => Some y
    | None => if f x then Some x else None
    end.
Proof.
  induction l as [| y l IH]; simpl; [reflexivity |].
  destruct (f y); [reflexivity | exact IH].
Qed.

Lemma count_jobs_positive (st : Store) (u e : string) :
  (0 < count_jobs_of_email st u e)%nat <-> email_has_job st u e.
Proof.
  unfold count_jobs_of_email, email_has_job. split.
  - intros H. destruct (filter _ (jobs st)) as [| r rs] eqn:Hf; [simpl in H; lia |].
    assert (Hin : In r (filter (fun r => String.eqb (JobData.user_id (job_data r)) u
                                         && String.eqb (JobData.email_id (job_data r)) e)
                          (jobs st))) by (rewrite Hf; left; reflexivity).
    apply filter_In in Hin. destruct Hin as [Hin Hk].
    apply andb_true_iff in Hk. destruct Hk as [Hu He].
    apply String.eqb_eq in Hu, He. exists r. auto.
  - intros (r & Hin & Hu & He).
    assert (Hf : In r (filter (fun r => String.eqb (JobData.user_id (job_data r)) u
                                        && String.eqb (JobData.email_id (job_data r)) e)
                         (jobs st))).
    { apply filter_In. split; [exact Hin |]. rewrite Hu, He, !String.eqb_refl. reflexivity. }
    destruct (filter _ (jobs st)); [destruct Hf | simpl; lia].
Qed.

Lemma insert_job_ok (st st' : Store) (d : JobData.t) (transport : option JsError)
  (row : JobRow) :
  insert_job st d transport = inr (st', row) ->
  transport = None
  /\ find_existing_job st (JobData.user_id d) (JobData.email_id d) (JobData.job_fingerprint d)
     = None
  /\ row = {| job_id := next_id st; job_data := d |}
  /\ st' = {| jobs := jobs st ++ [row]; resumes := resumes st;
              next_id := S (next_id st); mark_calls := mark_calls st |}.
Proof.
  unfold insert_job. destruct transport; [discriminate |].
  destruct (find_existing_job _ _ _ _); [discriminate |].
  intros H. injection H as <- <-. auto.
Qed.

Lemma insert_job_unique (st st' : Store) (d : JobData.t) (transport : option JsError)
  (row : JobRow) :
  insert_job st d transport = inr (st', row) -> store_unique st -> store_unique st'.
Proof.
  intros H (Hk & Hi & Hlt). apply insert_job_ok in H.
  destruct H as (_ & Hnone & -> & ->). unfold store_unique; simpl.
  rewrite !map_app. simpl. split; [| split].
  - apply NoDup_snoc; [exact Hk |]. apply find_existing_job_none, Hnone.
  - apply NoDup_snoc; [exact Hi |]. intros Hin. apply in_map_iff in Hin.
    destruct Hin as (r & Hr & Hin). rewrite Forall_forall in Hlt.
    specialize (Hlt r Hin). lia.
  - apply Forall_app. split.
    + eapply Forall_impl; [| exact Hlt]. simpl. intros r Hr. lia.
    + constructor; [simpl; lia | constructor].
Qed.

(** X12. Insert and lookup agree with the unique index. A successful
    [insert_job] happens only when the transport worked and no job had the
    same (user, email, fingerprint); afterwards the lookup for that triple
    returns the inserted row, the per-email count is positive, lookups for
    every other triple are unchanged, and a store without duplicate keys or
    ids stays so. A failed insert is the transport error or the unique
    violation. *)
Theorem insert_then_lookup (st : Store) (d : JobData.t) (transport : option JsError) :
  match insert_job st d transport with
  | inr (st', row) =>
      transport = None
      /\ job_data row = d
      /\ find_existing_job st (JobData.user_id d) (JobData.email_id d)
           (JobData.job_fingerprint d) = None
      /\ find_existing_job st' (JobData.user_id d) (JobData.email_id d)
           (JobData.job_fingerprint d) = Some row
      /\ (0 < count_jobs_of_email st' (JobData.user_id d) (JobData.email_id d))%nat
      /\ (forall u e f,
            (u, e, f) <> (JobData.user_id d, JobData.email_id d, JobData.job_fingerprint d) ->
            find_existing_job st' u e f = find_existing_job st u e f)
      /\ (store_unique st -> store_unique st')
      /\ resumes st' = resumes st
  | inl err =>
      transport = Some err
      \/ (transport = None /\ err = unique_violation
          /\ exists j, find_existing_job st (JobData.user_id d) (JobData.email_id d)
                         (JobData.job_fingerprint d) = Some j)
  end.
Proof.
  destruct (insert_job st d transport) as [err | [st' row]] eqn:Hins.
  - unfold insert_job in Hins. destruct transport as [e |]; [left; congruence |].
    destruct (find_existing_job _ _ _ _) as [j |]; [| discriminate].
    right. injection Hins as <-. eauto.
  - pose proof (insert_job_unique st st' d transport row Hins) as Huniq.
    apply insert_job_ok in Hins. destruct Hins as (Ht & Hnone & Hrow & Hst).
    split; [exact Ht |]. split; [subst row; reflexivity |]. split; [exact Hnone |].
    assert (Hkey : same_job (JobData.user_id d) (JobData.email_id d)
                     (JobData.job_fingerprint d) row = true).
    { apply same_job_key. subst row. reflexivity. }
    split; [| split; [| split; [| split]]].
    + subst st'. unfold find_existing_job in *. simpl. rewrite find_snoc, Hnone, Hkey.
      reflexivity.
    + apply count_jobs_positive. exists row. subst st' row. simpl.
      split; [apply in_or_app; right; left; reflexivity | auto].
    + intros u e f Hne. subst st'. unfold find_existing_job. simpl. rewrite find_snoc.
      destruct (find (same_job u e f) (jobs st)); [reflexivity |].
      destruct (same_job u e f row) eqn:Hs; [| reflexivity].
      apply same_job_key in Hs. subst row. unfold job_key in Hs. simpl in Hs. congruence.
    + exact Huniq.
    + subst st'. reflexivity.
Qed.

Lemma insert_then_lookup_witness :
  store_unique (fst demo_first_run)
  /\ insert_job (fst demo_first_run)
       (job_data (hd {| job_id := 0;
                        job_data := build_jobData demo_platform (default_config false)
                                      demo_integration 42 demo_email demo_extracted
                                      demo_extracted "f" |}
                    (jobs (fst demo_first_run)))) None
     = inl unique_violation.
Proof.
  assert (Hempty : store_unique empty_store).
  { repeat split; constructor. }
  pose proof (insert_then_lookup empty_store
                (build_jobData demo_platform (default_config false) demo_integration 42
                   demo_email demo_extracted
                   (enrichOpportunityWithUrls demo_platform (default_config false)
                      demo_extracted (Email.links demo_email) (enrich_gen demo_opp_world))
                   (buildJobFingerprint demo_platform (Email.messageId demo_email)
                      (enrichOpportunityWithUrls demo_platform (default_config false)
                         demo_extracted (Email.links demo_email)
                         (enrich_gen demo_opp_world)))) None) as H.
  cbv beta iota delta [insert_job] in H.
  change (find_existing_job empty_store _ _ _) with (@None JobRow) in H.
  cbv beta iota in H.
  destruct H as (_ & _ & _ & _ & _ & _ & Huniq & _).
  split.
  - vm_compute. vm_compute in Huniq. exact (Huniq Hempty).
  - vm_compute. reflexivity.
Defined.

(** *** Invariants of the store along a run *)

Section StoreInvariant.
Context (P : Platform) (cfg : Config).
Variable Inv : Store -> Prop.
Hypothesis Inv_insert_job :
  forall st st' d transport row,
    insert_job st d transport = inr (st', row) -> Inv st -> Inv st'.
Hypothesis Inv_insert_resume : forall st r, Inv st -> Inv (insert_resume st r).
Hypothesis Inv_mark : forall st uids, Inv st -> Inv (record_mark_call st uids).

Lemma process_opportunity_inv (integ : Integration) (uid : nat) (e : Email.t)
  (w : OppWorld) (st : LoopState) (x : Opportunity.t) :
  Inv (store st) -> Inv (store (process_opportunity P cfg integ uid e w st x)).
Proof.
  intros H. unfold process_opportunity.
  destruct (existing_check_error w); [exact H |].
  destruct (find_existing_job _ _ _ _); [exact H |].
  destruct (insert_job _ _ _) as [err | [store1 row]] eqn:Hins; [exact H |].
  pose proof (Inv_insert_job _ _ _ _ _ Hins H) as H1.
  destruct (resume_stage w) as [err | [json url]]; simpl; auto.
Qed.

Lemma process_opportunities_inv (integ : Integration) (uid : nat) (e : Email.t)
  (ow : nat -> OppWorld) (opps : list Opportunity.t) :
  forall (i : nat) (st : LoopState),
    Inv (store st) -> Inv (store (process_opportunities P cfg integ uid e ow i opps st)).
Proof.
  induction opps as [| x opps IH]; intros i st H; simpl; [exact H |].
  apply IH, process_opportunity_inv, H.
Qed.

Lemma process_message_inv (integ : Integration) (keywords : list string)
  (matchInBody : bool) (st : IntegState) (raw : MsgWorld) :
  Inv (i_store st) -> Inv (i_store (process_message P cfg integ keywords matchInBody st raw)).
Proof.
  intros H. unfold process_message.
  destruct (parse_outcome raw) as [err | parsed]; [exact H |].
  destruct (email_seen _ _ _ _); [exact H |].
  destruct (negb (keywordMatch _ _ _)); [exact H |].
  simpl. apply process_opportunities_inv. exact H.
Qed.

Lemma fold_messages_inv (integ : Integration) (keywords : list string)
  (matchInBody : bool) (msgs : list MsgWorld) :
  forall st : IntegState,
    Inv (i_store st) ->
    Inv (i_store (fold_left (process_message P cfg integ keywords matchInBody) msgs st)).
Proof.
  induction msgs as [| raw msgs IH]; intros st H; simpl; [exact H |].
  apply IH, process_message_inv, H.
Qed.

Lemma process_integration_inv (syncAll : bool) (st : Store * Stats.t) (w : IntegWorld) :
  Inv (fst st) -> Inv (fst (process_integration P cfg syncAll st w)).
Proof.
  intros H. unfold process_integration.
  destruct (decrypt_error w); [exact H |].
  destruct (baseProfile_error w); [exact H |].
  destruct (fetch_outcome w) as [err | inbox]; [exact H |].
  destruct (0 <? _)%nat; simpl; [apply Inv_mark |]; apply fold_messages_inv; exact H.
Qed.

Lemma handlePoll_try_inv (syncAll : bool) (query : JsError + list IntegWorld)
  (st : Store * Stats.t) :
  Inv (fst st) -> Inv (fst (fst (handlePoll_try P cfg syncAll query st))).
Proof.
  intros H. unfold handlePoll_try.
  destruct query as [err | [| w ws]]; [destruct (is_nullish err); exact H | exact H |].
  cbn [fst].
  assert (Hfold : forall ws0 st0, Inv (fst st0) ->
            Inv (fst (fold_left (process_integration P cfg syncAll) ws0 st0))).
  { intros ws0. induction ws0 as [| w0 ws0 IH]; intros st0 H0; simpl; [exact H0 |].
    apply IH, process_integration_inv, H0. }
  apply Hfold. exact H.
Qed.

Lemma handlePoll_inv (syncAll : bool) (w : RunWorld) (sigma : Store * Heap) :
  Inv (fst sigma) -> Inv (fst (fst (handlePoll P cfg syncAll w sigma))).
Proof.
  intros H. unfold handlePoll.
  destruct (createClient_error w); [exact H |].
  unfold handlePoll_settle.
  pose proof (handlePoll_try_inv syncAll (integrations_query w)
                (fst sigma, deref (snd sigma) (pollStats (snd sigma))) H) as H'.
  destruct (handlePoll_try _ _ _ _ _) as [st completion]. exact H'.
Qed.

End StoreInvariant.

(** X13. A run of [handlePoll] keeps the job store consistent with its
    unique index: if no two persisted jobs share (user id, email id,
    fingerprint) or an id before the run, none do after it, whatever the
    mailbox holds and whatever the external calls return. *)
Theorem handlePoll_keeps_store_unique (P : Platform) (cfg : Config) (syncAll : bool)
  (w : RunWorld) (sigma : Store * Heap) :
  store_unique (fst sigma) ->
  store_unique (fst (fst (handlePoll P cfg syncAll w sigma))).
Proof.
  apply (handlePoll_inv P cfg store_unique).
  - intros st st' d transport row. apply insert_job_unique.
  - intros st r H. exact H.
  - intros st uids H. exact H.
Qed.

Lemma handlePoll_keeps_store_unique_witness :
  store_unique
    (fst (fst (handlePoll demo_platform (default_config false) false
                 {| createClient_error := None;
                    integrations_query := inr [demo_world None; demo_second_world] |}
                 (empty_store, {| objects := [Stats.fresh true]; pollStats := 0 |})))).
Proof.
  apply handlePoll_keeps_store_unique. repeat split; constructor.
Defined.

(** *** A message that produced a job is not processed again *)

Lemma email_has_job_insert (u e : string) (st st' : Store) (d : JobData.t)
  (transport : option JsError) (row : JobRow) :
  insert_job st d transport = inr (st', row) ->
  email_has_job st u e -> email_has_job st' u e.
Proof.
  intros H (r & Hin & Hu & He). apply insert_job_ok in H.
  destruct H as (_ & _ & _ & ->). exists r. simpl.
  split; [apply in_or_app; left; exact Hin | auto].
Qed.

Lemma process_opportunity_flag_has_job (P : Platform) (cfg : Config) (integ : Integration)
  (uid : nat) (e : Email.t) (w : OppWorld) (st : LoopState) (x : Opportunity.t) :
  (messagePersisted st = true ->
   email_has_job (store st) (integ_user_id integ) (Email.messageId e)) ->
  messagePersisted (process_opportunity P cfg integ uid e w st x) = true ->
  email_has_job (store (process_opportunity P cfg integ uid e w st x))
    (integ_user_id integ) (Email.messageId e).
Proof.
  intros Hinv. unfold process_opportunity.
  destruct (existing_check_error w); [exact Hinv |].
  destruct (find_existing_job _ _ _ _) as [j |] eqn:Hfind.
  - intros _. simpl. unfold find_existing_job in Hfind. apply find_some in Hfind.
    destruct Hfind as [Hin Hk]. apply same_job_key in Hk. unfold job_key in Hk.
    injection Hk as Hu He _. exists j. auto.
  - destruct (insert_job _ _ _) as [err | [store1 row]] eqn:Hins; [exact Hinv |].
    apply insert_job_ok in Hins. destruct Hins as (_ & _ & Hrow & Hst).
    assert (Hj : email_has_job store1 (integ_user_id integ) (Email.messageId e)).
    { exists row. subst store1 row. simpl.
      split; [apply in_or_app; right; left; reflexivity | auto]. }
    destruct (resume_stage w) as [err | [json url]]; intros _; simpl; [exact Hj |].
    destruct Hj as (r & Hr & Hu & He). exists r. simpl. auto.
Qed.

Lemma process_opportunities_flag_has_job (P : Platform) (cfg : Config)
  (integ : Integration) (uid : nat) (e : Email.t) (ow : nat -> OppWorld)
  (opps : list Opportunity.t) :
  forall (i : nat) (st : LoopState),
    (messagePersisted st = true ->
     email_has_job (store st) (integ_user_id integ) (Email.messageId e)) ->
    messagePersisted (process_opportunities P cfg integ uid e ow i opps st) = true ->
    email_has_job (store (process_opportunities P cfg integ uid e ow i opps st))
      (integ_user_id integ) (Email.messageId e).
Proof.
  induction opps as [| x opps IH]; intros i st Hinv; simpl; [exact Hinv |].
  apply IH. apply process_opportunity_flag_has_job, Hinv.
Qed.

(** X14. Once a message has been marked for read, it is skipped from
    then on: if [process_message] adds the message's uid to the list to
    mark, a job for that user and message id is in the store, and any later
    processing of a message with the same message id whose per-email count
    succeeds leaves the state as it is: nothing is inserted, no counter,
    not even the duplicate counter, changes, and the uid is not marked
    again. Jobs are never removed, so this holds in every later state. *)
Theorem marked_message_is_skipped_later (P : Platform) (cfg : Config)
  (integ : Integration) (keywords : list string) (matchInBody : bool)
  (st : IntegState) (raw : MsgWorld) (parsed : ParsedMail) :
  parse_outcome raw = inr parsed ->
  let st1 := process_message P cfg integ keywords matchInBody st raw in
  let id := Email.messageId (parseMessage P cfg parsed (uid raw)) in
  uidsToMark st1 <> uidsToMark st ->
  email_has_job (i_store st1) (integ_user_id integ) id
  /\ forall (keywords' : list string) (matchInBody' : bool) (st2 : IntegState)
            (raw' : MsgWorld) (parsed' : ParsedMail),
       (forall r, In r (jobs (i_store st1)) -> In r (jobs (i_store st2))) ->
       parse_outcome raw' = inr parsed' ->
       Email.messageId (parseMessage P cfg parsed' (uid raw')) = id ->
       email_check_error raw' = None ->
       process_message P cfg integ keywords' matchInBody' st2 raw' = st2.
Proof.
  intros Hparse st1 id Hmarked.
  assert (Hjob : email_has_job (i_store st1) (integ_user_id integ) id).
  { subst st1 id. unfold process_message in *. rewrite Hparse in *.
    destruct (email_seen _ _ _ _); [congruence |].
    destruct (negb (keywordMatch _ _ _)); [congruence |].
    cbn [i_store uidsToMark] in *.
    destruct (messagePersisted _) eqn:Hflag; [| congruence].
    apply process_opportunities_flag_has_job; [discriminate | exact Hflag]. }
  split; [exact Hjob |].
  intros keywords' matchInBody' st2 raw' parsed' Hincl Hparse' Hid Hcheck.
  unfold process_message. rewrite Hparse'.
  assert (Hseen : email_seen integ st2 raw' (parseMessage P cfg parsed' (uid raw')) = true).
  { unfold email_seen. rewrite Hcheck, Hid. apply Nat.ltb_lt, count_jobs_positive.
    destruct Hjob as (r & Hr & Hu & He). exists r. auto. }
  rewrite Hseen. reflexivity.
Qed.

Lemma marked_message_is_skipped_later_witness :
  process_message demo_platform (default_config false) demo_integration
    (effective_keywords None) false
    (process_message demo_platform (default_config false) demo_integration
       (effective_keywords None) false
       (messages_entry (empty_store, Stats.fresh true) [demo_message None])
       (demo_message None))
    (demo_message None)
  = process_message demo_platform (default_config false) demo_integration
      (effective_keywords None) false
      (messages_entry (empty_store, Stats.fresh true) [demo_message None])
      (demo_message None).
Proof.
  destruct (marked_message_is_skipped_later demo_platform (default_config false)
              demo_integration (effective_keywords None) false
              (messages_entry (empty_store, Stats.fresh true) [demo_message None])
              (demo_message None) demo_mail) as [_ H].
  - reflexivity.
  - vm_compute. discriminate.
  - apply (H (effective_keywords None) false _ (demo_message None) demo_mail);
      auto; reflexivity.
Defined.

(** ** Accounting of the counters *)

#[local] Arguments accounted : simpl never.

Lemma accounted_refl (a : Store * Stats.t) : accounted 0 0 a a.
Proof.
  destruct a as [st s]. unfold accounted.
  repeat split; try lia; try (exists []; rewrite app_nil_r; simpl; split; [reflexivity | lia]).
  exists []. rewrite app_nil_r. reflexivity.
Qed.

Lemma accounted_trans (dx dm dx' dm' : nat) (a b c : Store * Stats.t) :
  accounted dx dm a b -> accounted dx' dm' b c -> accounted (dx + dx') (dm + dm') a c.
Proof.
  destruct a as [st s], b as [st1 s1], c as [st2 s2]. unfold accounted.
  intros (R & A1 & A2 & A3 & A4 & (m & Hm) & (j & Hj & Hjn) & (r & Hr & Hrn) & A5 & A6 & A7 & A8)
         (R' & B1 & B2 & B3 & B4 & (m' & Hm') & (j' & Hj' & Hjn') & (r' & Hr' & Hrn')
          & B5 & B6 & B7 & B8).
  repeat split; try lia; try congruence.
  - exists (m ++ m'). rewrite Hm', Hm, app_assoc. reflexivity.
  - exists (j ++ j'). rewrite Hj', Hj, app_assoc, length_app. split; [reflexivity | lia].
  - exists (r ++ r'). rewrite Hr', Hr, app_assoc, length_app. split; [reflexivity | lia].
Qed.

Lemma accounted_weaken (dx dm dx' dm' : nat) (a b : Store * Stats.t) :
  (dx <= dx')%nat -> (dm <= dm')%nat -> accounted dx dm a b -> accounted dx' dm' a b.
Proof.
  destruct a as [st s], b as [st1 s1]. unfold accounted.
  intros Hx Hm (R & A1 & A2 & A3 & A4 & Hm' & Hj & Hr & A5 & A6 & A7 & A8).
  repeat split; try assumption; lia.
Qed.

(** Appending one error changes nothing that is counted. *)
Lemma accounted_push_error (st : Store) (s : Stats.t) (msg : string) :
  accounted 0 0 (st, s) (st, Stats.push_error msg s).
Proof.
  unfold accounted; simpl.
  repeat split; try lia; try (exists []; rewrite app_nil_r; simpl; split; [reflexivity | lia]).
  exists [msg]. reflexivity.
Qed.

Ltac accounted_here :=
  unfold accounted; simpl;
  repeat split; try lia; try reflexivity;
  try (exists []; rewrite app_nil_r; simpl; solve [reflexivity | split; [reflexivity | lia]]);
  try (eexists; simpl; solve [reflexivity | split; [reflexivity | simpl; lia]]).

Lemma process_opportunity_accounted (P : Platform) (cfg : Config) (integ : Integration)
  (uid : nat) (e : Email.t) (w : OppWorld) (st : LoopState) (x : Opportunity.t) :
  let st' := process_opportunity P cfg integ uid e w st x in
  accounted 1 0 (store st, stats st) (store st', stats st')
  /\ Stats.opportunitiesExtracted (stats st') = Stats.opportunitiesExtracted (stats st)
  /\ Stats.emailsKeywordMatched (stats st') = Stats.emailsKeywordMatched (stats st)
  /\ Stats.emailsScanned (stats st') = Stats.emailsScanned (stats st).
Proof.
  cbn zeta. unfold process_opportunity.
  destruct (existing_check_error w).
  { split; [accounted_here | simpl; auto]. }
  destruct (find_existing_job _ _ _ _).
  { split; [accounted_here | simpl; auto]. }
  destruct (insert_job _ _ _) as [err | [store1 row]] eqn:Hins.
  { split; [accounted_here | simpl; auto]. }
  apply insert_job_ok in Hins. destruct Hins as (_ & _ & _ & ->).
  destruct (resume_stage w) as [err | [json url]];
    (split; [accounted_here | simpl; auto]).
Qed.

Lemma process_opportunities_accounted (P : Platform) (cfg : Config) (integ : Integration)
  (uid : nat) (e : Email.t) (ow : nat -> OppWorld) (opps : list Opportunity.t) :
  forall (i : nat) (st : LoopState),
    let st' := process_opportunities P cfg integ uid e ow i opps st in
    accounted (List.length opps) 0 (store st, stats st) (store st', stats st')
    /\ Stats.opportunitiesExtracted (stats st') = Stats.opportunitiesExtracted (stats st)
    /\ Stats.emailsKeywordMatched (stats st') = Stats.emailsKeywordMatched (stats st)
    /\ Stats.emailsScanned (stats st') = Stats.emailsScanned (stats st).
Proof.
  induction opps as [| x opps IH]; intros i st; cbn zeta.
  - simpl. split; [apply accounted_refl | auto].
  - cbn [process_opportunities List.length].
    destruct (process_opportunity_accounted P cfg integ uid e (ow i) st x)
      as (H1 & E1 & E2 & E3).
    destruct (IH (S i) (process_opportunity P cfg integ uid e (ow i) st x))
      as (H2 & F1 & F2 & F3).
    split; [| repeat split; congruence].
    change (S (List.length opps)) with (1 + List.length opps).
    change 0 with (0 + 0). eapply accounted_trans; [exact H1 | exact H2].
Qed.

Lemma process_message_accounted (P : Platform) (cfg : Config) (integ : Integration)
  (keywords : list string) (matchInBody : bool) (st : IntegState) (raw : MsgWorld) :
  let st' := process_message P cfg integ keywords matchInBody st raw in
  accounted 0 1 (i_store st, i_stats st) (i_store st', i_stats st')
  /\ Stats.emailsScanned (i_stats st') = Stats.emailsScanned (i_stats st).
Proof.
  cbn zeta. unfold process_message.
  destruct (parse_outcome raw) as [err | parsed].
  { simpl. split; [| reflexivity].
    eapply accounted_weaken; [| | apply accounted_push_error]; lia. }
  destruct (email_seen _ _ _ _).
  { split; [| reflexivity]. eapply accounted_weaken; [| | apply accounted_refl]; lia. }
  destruct (negb (keywordMatch _ _ _)).
  { split; [| reflexivity]. eapply accounted_weaken; [| | apply accounted_refl]; lia. }
  cbn [i_store i_stats].
  set (opps := extractOpportunitiesFromEmail P cfg (parseMessage P cfg parsed (uid raw))
                 (extract_gen raw)).
  destruct (process_opportunities_accounted P cfg integ (uid raw)
              (parseMessage P cfg parsed (uid raw)) (opp_world raw) opps 0
              (opportunities_entry st opps)) as (H & E1 & E2 & E3).
  set (st1 := process_opportunities P cfg integ (uid raw)
                (parseMessage P cfg parsed (uid raw)) (opp_world raw) 0 opps
                (opportunities_entry st opps)) in *.
  unfold opportunities_entry in H, E1, E2, E3. cbn [store stats] in H.
  simpl in E1, E2, E3. split; [| exact E3].
  unfold accounted in *. simpl in H.
  destruct H as (R & A1 & A2 & A3 & A4 & Hm & Hj & Hr & A5 & A6 & A7 & A8).
  repeat split; try assumption; try lia.
Qed.

Lemma fold_messages_accounted (P : Platform) (cfg : Config) (integ : Integration)
  (keywords : list string) (matchInBody : bool) (msgs : list MsgWorld) :
  forall st : IntegState,
    let st' := fold_left (process_message P cfg integ keywords matchInBody) msgs st in
    accounted 0 (List.length msgs) (i_store st, i_stats st) (i_store st', i_stats st')
    /\ Stats.emailsScanned (i_stats st') = Stats.emailsScanned (i_stats st).
Proof.
  induction msgs as [| raw msgs IH]; intros st; cbn zeta.
  - simpl. split; [apply accounted_refl | reflexivity].
  - cbn [fold_left List.length].
    destruct (process_message_accounted P cfg integ keywords matchInBody st raw) as (H1 & E1).
    destruct (IH (process_message P cfg integ keywords matchInBody st raw)) as (H2 & E2).
    split; [| congruence].
    change (S (List.length msgs)) with (1 + List.length msgs).
    change 0 with (0 + 0). eapply accounted_trans; [exact H1 | exact H2].
Qed.

Lemma integration_failed_accounted (P : Platform) (err : JsError) (st : Store) (s : Stats.t) :
  accounted 0 0 (st, s) (st, integration_failed P err s).
Proof.
  unfold integration_failed. destruct (is_authenticationFailed err);
    apply accounted_push_error.
Qed.

Lemma process_integration_accounted (P : Platform) (cfg : Config) (syncAll : bool)
  (st : Store * Stats.t) (w : IntegWorld) :
  accounted 0 0 (fst st, snd st)
    (fst (process_integration P cfg syncAll st w), snd (process_integration P cfg syncAll st w)).
Proof.
  unfold process_integration.
  destruct (decrypt_error w); [apply integration_failed_accounted |].
  destruct (baseProfile_error w); [apply integration_failed_accounted |].
  destruct (fetch_outcome w) as [err | inbox]; [apply integration_failed_accounted |].
  set (msgs := imapFetchUnread inbox (effectiveMaxEmails syncAll (integration w))).
  destruct (fold_messages_accounted P cfg (integration w)
              (effective_keywords (job_keywords (integration w)))
              (matchInBody_of (keyword_match_scope (integration w))) msgs
              (messages_entry st msgs)) as (H & E).
  set (st1 := fold_left _ msgs (messages_entry st msgs)) in *.
  unfold messages_entry in H, E. cbn [i_store i_stats] in H. simpl in E.
  assert (Hcore : accounted 0 0 (fst st, snd st) (i_store st1, i_stats st1)).
  { unfold accounted in *. simpl in H.
    destruct H as (R & A1 & A2 & A3 & A4 & Hm & Hj & Hr & A5 & A6 & A7 & A8).
    repeat split; try assumption; try lia. }
  destruct (0 <? _)%nat; cbn [fst snd]; [| exact Hcore].
  change 0 with (0 + 0). eapply accounted_trans; [exact Hcore |].
  unfold record_mark_call.
  destruct (mark_error w).
  - unfold accounted; simpl. repeat split; try lia;
      try (exists []; rewrite app_nil_r; simpl; split; [reflexivity | lia]).
    eexists. reflexivity.
  - unfold accounted; simpl. repeat split; try lia;
      try (exists []; rewrite app_nil_r; simpl; solve [reflexivity | split; [reflexivity | lia]]).
Qed.

Lemma fold_integrations_accounted (P : Platform) (cfg : Config) (syncAll : bool)
  (ws : list IntegWorld) :
  forall st : Store * Stats.t,
    accounted 0 0 (fst st, snd st)
      (fst (fold_left (process_integration P cfg syncAll) ws st),
       snd (fold_left (process_integration P cfg syncAll) ws st)).
Proof.
  induction ws as [| w ws IH]; intros st; simpl; [apply accounted_refl |].
  change 0 with (0 + 0). eapply accounted_trans;
    [apply process_integration_accounted | apply IH].
Qed.

Lemma handlePoll_try_accounted (P : Platform) (cfg : Config) (syncAll : bool)
  (query : JsError + list IntegWorld) (st : Store * Stats.t) :
  accounted 0 0 (fst st, snd st)
    (fst (fst (handlePoll_try P cfg syncAll query st)),
     snd (fst (handlePoll_try P cfg syncAll query st))).
Proof.
  unfold handlePoll_try. destruct query as [err | [| w ws]].
  - destruct (is_nullish err); cbn [fst snd];
      [apply accounted_refl | apply accounted_push_error].
  - apply accounted_refl.
  - cbn [fst snd].
    change 0 with (0 + 0). eapply accounted_trans;
      [| apply (fold_integrations_accounted P cfg syncAll (w :: ws))].
    accounted_here.
Qed.

Lemma current_after_settle (P : Platform) (cfg : Config) (syncAll : bool)
  (query : JsError + list IntegWorld) (st : Store) (h : Heap) :
  (pollStats h < List.length (objects h))%nat ->
  let r := handlePoll_settle P cfg (pollStats h) syncAll query (st, h) in
  let t := handlePoll_try P cfg syncAll query (st, current h) in
  fst (fst r) = fst (fst t)
  /\ current (snd (fst r)) = Stats.set_running false (snd (fst t)).
Proof.
  intros Hvalid. cbn zeta. unfold handlePoll_settle. cbn [fst snd].
  fold (current h).
  destruct (handlePoll_try P cfg syncAll query (st, current h)) as [[st' s'] completion].
  cbn [fst snd]. split; [reflexivity |].
  unfold current. rewrite !pollStats_modify, deref_modify, length_objects_modify.
  apply Nat.ltb_lt in Hvalid. rewrite Hvalid. rewrite deref_modify, Hvalid. reflexivity.
Qed.

Lemma handlePoll_fresh_accounted (P : Platform) (cfg : Config) (syncAll : bool)
  (w : RunWorld) (st : Store) (h : Heap) :
  let r := handlePoll P cfg syncAll w (st, resetStats h) in
  exists s, accounted 0 0 (st, Stats.fresh true) (fst (fst r), s)
            /\ (current (snd (fst r)) = s \/ current (snd (fst r)) = Stats.set_running false s).
Proof.
  cbn zeta. unfold handlePoll.
  destruct (createClient_error w).
  - exists (Stats.fresh true). cbn [fst snd]. rewrite current_resetStats.
    split; [apply accounted_refl | left; reflexivity].
  - destruct (current_after_settle P cfg syncAll (integrations_query w) st (resetStats h))
      as (Hst & Hcur).
    { unfold resetStats; simpl. rewrite length_app; simpl. lia. }
    cbn [fst snd]. rewrite current_resetStats in *.
    exists (snd (fst (handlePoll_try P cfg syncAll (integrations_query w)
                        (st, Stats.fresh true)))).
    split; [| right; exact Hcur].
    rewrite Hst.
    apply (handlePoll_try_accounted P cfg syncAll (integrations_query w)
             (st, Stats.fresh true)).
Qed.

(** X15. After a run started by [/poll] (status record just reset),
    the counters say what happened to the store: jobs and resumes were only
    appended, never removed or changed; [jobsInserted] is the number of
    jobs appended and [resumesGenerated] the number of resumes appended;
    and every inserted job is counted once more, as a generated or as a
    failed resume. This holds whatever the mailboxes hold and whatever the
    external calls return. *)
Theorem run_counters_match_store (P : Platform) (cfg : Config) (syncAll : bool)
  (w : RunWorld) (st : Store) (h : Heap) :
  let r := handlePoll P cfg syncAll w (st, resetStats h) in
  let st' := fst (fst r) in
  let s' := current (snd (fst r)) in
  (exists new, jobs st' = jobs st ++ new /\ Stats.jobsInserted s' = List.length new)
  /\ (exists new, resumes st' = resumes st ++ new
                  /\ Stats.resumesGenerated s' = List.length new)
  /\ Stats.jobsInserted s' = Stats.resumesGenerated s' + Stats.resumesFailed s'.
Proof.
  cbn zeta. destruct (handlePoll_fresh_accounted P cfg syncAll w st h) as (s & Hacc & Hcur).
  assert (Hs : Stats.jobsInserted (current (snd (fst (handlePoll P cfg syncAll w
                                                        (st, resetStats h)))))
               = Stats.jobsInserted s
               /\ Stats.resumesGenerated (current (snd (fst (handlePoll P cfg syncAll w
                                                              (st, resetStats h)))))
                  = Stats.resumesGenerated s
               /\ Stats.resumesFailed (current (snd (fst (handlePoll P cfg syncAll w
                                                           (st, resetStats h)))))
                  = Stats.resumesFailed s).
  { destruct Hcur as [-> | ->]; repeat split. }
  destruct Hs as (-> & -> & ->).
  unfold accounted in Hacc. simpl in Hacc.
  destruct Hacc as (_ & _ & _ & _ & _ & _ & (j & Hj & Hjn) & (r & Hr & Hrn) & _ & Heq & _).
  split; [exists j; auto |]. split; [exists r; auto | lia].
Qed.

(** X16. After a run started by [/poll], the counters form a funnel:
    emails matched by keyword are at most the emails scanned, and jobs
    inserted plus duplicates, and likewise resumes generated plus resumes
    failed, are at most the opportunities extracted. *)
Theorem run_counters_funnel (P : Platform) (cfg : Config) (syncAll : bool)
  (w : RunWorld) (st : Store) (h : Heap) :
  let s' := current (snd (fst (handlePoll P cfg syncAll w (st, resetStats h)))) in
  (Stats.emailsKeywordMatched s' <= Stats.emailsScanned s')%nat
  /\ (Stats.jobsInserted s' + Stats.duplicateJobs s' <= Stats.opportunitiesExtracted s')%nat
  /\ (Stats.resumesGenerated s' + Stats.resumesFailed s' <= Stats.opportunitiesExtracted s')%nat.
Proof.
  cbn zeta. destruct (handlePoll_fresh_accounted P cfg syncAll w st h) as (s & Hacc & Hcur).
  unfold accounted in Hacc. simpl in Hacc.
  destruct Hacc as (_ & _ & _ & _ & _ & _ & _ & _ & _ & Heq & H1 & H2).
  destruct Hcur as [-> | ->]; simpl; repeat split; lia.
Qed.

Example run_counters_sample :
  let r := handlePoll demo_platform (default_config false) false
             {| createClient_error := None;
                integrations_query := inr [demo_world None; demo_second_world] |}
             (empty_store, resetStats {| objects := [Stats.fresh false]; pollStats := 0 |}) in
  current (snd (fst r))
  = {| Stats.running := false; Stats.integrationsFound := 2; Stats.emailsScanned := 2;
       Stats.emailsKeywordMatched := 2; Stats.opportunitiesExtracted := 2;
       Stats.jobsInserted := 1; Stats.duplicateJobs := 1; Stats.resumesGenerated := 1;
       Stats.resumesFailed := 0; Stats.errors := [] |}
  /\ mark_calls (fst (fst r)) = [[42]; [42]].
Proof. vm_compute. split; reflexivity. Qed.

(** ** Mailbox sessions *)

Lemma filter_length_le {A} (f : A -> bool) (l : list A) :
  (List.length (filter f l) <= List.length l)%nat.
Proof. induction l as [| x l IH]; simpl; [lia | destruct (f x); simpl; lia]. Qed.

(** X17. The fetch takes the newest messages up to the effective cap.
    With [syncAll] the cap is 0, meaning no limit, and every message of the
    INBOX that has a source is fetched. Otherwise the cap is the
    integration's [max_emails_per_sync] whenever that is a positive number,
    and 10 when it is unset or not positive; the messages fetched are
    those with a source among the last [cap] messages of the INBOX, in
    INBOX order, so there are at most [cap] of them. *)
Theorem fetch_takes_newest_up_to_cap (syncAll : bool) (integ : Integration)
  (inbox : list MsgWorld) :
  let cap := effectiveMaxEmails syncAll integ in
  let fetched := imapFetchUnread inbox cap in
  (syncAll = true -> cap = 0%Z /\ fetched = filter has_source inbox)
  /\ (syncAll = false ->
      (forall n, max_emails_per_sync integ = Some n -> (0 < n)%Z -> cap = n)
      /\ (forall n, max_emails_per_sync integ = Some n -> (n <= 0)%Z -> cap = 10%Z)
      /\ (max_emails_per_sync integ = None -> cap = 10%Z)
      /\ (0 < cap)%Z
      /\ (List.length fetched <= Z.to_nat cap)%nat
      /\ exists older newest,
           inbox = older ++ newest
           /\ List.length newest = Nat.min (Z.to_nat cap) (List.length inbox)
           /\ fetched = filter has_source newest).
Proof.
  cbn zeta. unfold effectiveMaxEmails, imapFetchUnread. split.
  - intros ->. split; reflexivity.
  - intros ->.
    set (cap := match max_emails_per_sync integ with
                | Some n => if (0 <? n)%Z then n else 10%Z
                | None => 10%Z
                end).
    assert (Hcap : (forall n, max_emails_per_sync integ = Some n -> (0 < n)%Z -> cap = n)
                   /\ (forall n, max_emails_per_sync integ = Some n -> (n <= 0)%Z ->
                                 cap = 10%Z)
                   /\ (max_emails_per_sync integ = None -> cap = 10%Z)
                   /\ (0 < cap)%Z).
    { subst cap. destruct (max_emails_per_sync integ) as [k |].
      - destruct (Z.ltb_spec 0 k) as [Hk | Hk].
        + split; [intros n Hn _; congruence |].
          split; [intros n Hn Hle; injection Hn as <-; lia |].
          split; [discriminate | exact Hk].
        + split; [intros n Hn Hpos; injection Hn as <-; lia |].
          split; [reflexivity |]. split; [reflexivity | lia].
      - split; [discriminate |]. split; [discriminate |]. split; [reflexivity | lia]. }
    destruct Hcap as (Hconf & Hnonpos & Hunset & Hpos).
    assert (Hlt : (0 <? cap)%Z = true) by (apply Z.ltb_lt; exact Hpos).
    rewrite Hlt. unfold slice_last.
    assert (Hlen : List.length (skipn (List.length inbox - Z.to_nat cap) inbox)
                   = Nat.min (Z.to_nat cap) (List.length inbox)).
    { rewrite length_skipn. lia. }
    split; [exact Hconf |]. split; [exact Hnonpos |]. split; [exact Hunset |].
    split; [exact Hpos |]. split.
    + pose proof (filter_length_le has_source
                    (skipn (List.length inbox - Z.to_nat cap) inbox)). lia.
    + exists (firstn (List.length inbox - Z.to_nat cap) inbox),
             (skipn (List.length inbox - Z.to_nat cap) inbox).
      split; [symmetry; apply firstn_skipn |]. split; [exact Hlen | reflexivity].
Qed.

Lemma fetch_takes_newest_up_to_cap_witness :
  effectiveMaxEmails false demo_capped_integration = 3%Z
  /\ (List.length (imapFetchUnread (repeat (demo_message None) 25)
                     (effectiveMaxEmails false demo_capped_integration)) <= 3)%nat
  /\ effectiveMaxEmails false demo_integration = 10%Z
  /\ effectiveMaxEmails true demo_capped_integration = 0%Z.
Proof.
  pose proof (fetch_takes_newest_up_to_cap false demo_capped_integration
                (repeat (demo_message None) 25)) as H.
  cbv zeta in H. destruct H as [_ H]. destruct (H eq_refl) as (Hconf & _ & _ & _ & Hlen & _).
  pose proof (Hconf 3%Z eq_refl eq_refl) as Hcap.
  split; [exact Hcap |]. split; [rewrite Hcap in Hlen; exact Hlen |].
  pose proof (fetch_takes_newest_up_to_cap false demo_integration []) as H2.
  cbv zeta in H2. destruct H2 as [_ H2]. destruct (H2 eq_refl) as (_ & _ & Hunset & _).
  split; [exact (Hunset eq_refl) |].
  pose proof (fetch_takes_newest_up_to_cap true demo_capped_integration []) as H3.
  cbv zeta in H3. destruct H3 as [H3 _]. destruct (H3 eq_refl) as [H4 _]. exact H4.
Defined.

Lemma mark_calls_insert_job (c : list (list nat)) (st st' : Store) (d : JobData.t)
  (transport : option JsError) (row : JobRow) :
  insert_job st d transport = inr (st', row) -> mark_calls st = c -> mark_calls st' = c.
Proof.
  intros H Hc. apply insert_job_ok in H. destruct H as (_ & _ & _ & ->). exact Hc.
Qed.

Lemma process_message_uids (P : Platform) (cfg : Config) (integ : Integration)
  (keywords : list string) (matchInBody : bool) (st : IntegState) (raw : MsgWorld) :
  let st' := process_message P cfg integ keywords matchInBody st raw in
  uidsToMark st' = uidsToMark st \/ uidsToMark st' = uidsToMark st ++ [uid raw].
Proof.
  cbn zeta. unfold process_message.
  destruct (parse_outcome raw); [left; reflexivity |].
  destruct (email_seen _ _ _ _); [left; reflexivity |].
  destruct (negb (keywordMatch _ _ _)); [left; reflexivity |].
  cbn [uidsToMark]. destruct (messagePersisted _); auto.
Qed.

Lemma fold_messages_uids (P : Platform) (cfg : Config) (integ : Integration)
  (keywords : list string) (matchInBody : bool) (msgs : list MsgWorld) :
  forall st : IntegState,
    exists added,
      uidsToMark (fold_left (process_message P cfg integ keywords matchInBody) msgs st)
      = uidsToMark st ++ added
      /\ forall u, In u added -> exists raw, In raw msgs /\ uid raw = u.
Proof.
  induction msgs as [| raw msgs IH]; intros st; simpl.
  - exists []. rewrite app_nil_r. split; [reflexivity | intros u []].
  - destruct (IH (process_message P cfg integ keywords matchInBody st raw))
      as (added & Heq & Hsrc).
    destruct (process_message_uids P cfg integ keywords matchInBody st raw) as [H | H];
      rewrite H in Heq.
    + exists added. split; [exact Heq |]. intros u Hu.
      destruct (Hsrc u Hu) as (r & Hr & Hru). exists r. auto.
    + exists (uid raw :: added). rewrite <- app_assoc in Heq. split; [exact Heq |].
      intros u [<- | Hu]; [exists raw; auto |].
      destruct (Hsrc u Hu) as (r & Hr & Hru). exists r. auto.
Qed.

(** X18. An integration opens the mark-as-read session at most once,
    and only with a non-empty uid list: its uids are uids of messages the
    fetch of this run returned. When the credential cannot
    be decrypted, the base profile cannot be read or the fetch fails, no
    message is marked and the store is untouched. *)
Theorem mark_session_only_for_fetched (P : Platform) (cfg : Config) (syncAll : bool)
  (st : Store * Stats.t) (w : IntegWorld) :
  let r := process_integration P cfg syncAll st w in
  (mark_calls (fst r) = mark_calls (fst st)
   \/ exists uids inbox,
        mark_calls (fst r) = mark_calls (fst st) ++ [uids]
        /\ uids <> []
        /\ fetch_outcome w = inr inbox
        /\ forall u, In u uids ->
             exists raw,
               In raw (imapFetchUnread inbox (effectiveMaxEmails syncAll (integration w)))
               /\ uid raw = u)
  /\ ((decrypt_error w <> None \/ baseProfile_error w <> None
       \/ exists err, fetch_outcome w = inl err) -> fst r = fst st).
Proof.
  cbn zeta. unfold process_integration. split.
  - destruct (decrypt_error w); [left; reflexivity |].
    destruct (baseProfile_error w); [left; reflexivity |].
    destruct (fetch_outcome w) as [err | inbox]; [left; reflexivity |].
    set (msgs := imapFetchUnread inbox (effectiveMaxEmails syncAll (integration w))).
    set (step := process_message P cfg (integration w)
                   (effective_keywords (job_keywords (integration w)))
                   (matchInBody_of (keyword_match_scope (integration w)))).
    assert (Hmc : mark_calls (i_store (fold_left step msgs (messages_entry st msgs)))
                  = mark_calls (fst st)).
    { apply (fold_messages_inv P cfg (fun s => mark_calls s = mark_calls (fst st))).
      - intros s s' d transport row. apply mark_calls_insert_job.
      - intros s r H. exact H.
      - reflexivity. }
    destruct (fold_messages_uids P cfg (integration w)
                (effective_keywords (job_keywords (integration w)))
                (matchInBody_of (keyword_match_scope (integration w))) msgs
                (messages_entry st msgs)) as (added & Heq & Hsrc).
    fold step in Heq. cbn [messages_entry uidsToMark app] in Heq.
    destruct (0 <? _)%nat eqn:Hpos; cbn [fst]; [| left; exact Hmc].
    right. exists (uidsToMark (fold_left step msgs (messages_entry st msgs))), inbox.
    unfold record_mark_call. cbn [mark_calls]. rewrite Hmc.
    split; [reflexivity |]. split.
    + apply Nat.ltb_lt in Hpos. intros Hnil. rewrite Hnil in Hpos. simpl in Hpos. lia.
    + split; [reflexivity |]. rewrite Heq. exact Hsrc.
  - intros [H | [H | (err & H)]].
    + destruct (decrypt_error w); [reflexivity | congruence].
    + destruct (decrypt_error w); [reflexivity |].
      destruct (baseProfile_error w); [reflexivity | congruence].
    + destruct (decrypt_error w); [reflexivity |].
      destruct (baseProfile_error w); [reflexivity |].
      rewrite H. reflexivity.
Qed.

Lemma mark_session_only_for_fetched_witness :
  fst (process_integration demo_platform (default_config false) false
         (empty_store, Stats.fresh true)
         {| integration := demo_integration; decrypt_error := None;
            baseProfile_error := None;
            fetch_outcome := inl (ErrError "Error" "Invalid credentials" true);
            mark_error := None |})
  = empty_store.
Proof.
  apply (mark_session_only_for_fetched demo_platform (default_config false) false
           (empty_store, Stats.fresh true)).
  right. right. eexists. reflexivity.
Defined.

(** ** Control surface *)

(** X20. On arrival no request the handler is called with changes the
    status record, the store or the set of runs. A CORS preflight is
    answered 204 whatever its URL. Any other request whose URL [new URL]
    rejects is never answered: the exception escapes the handler and the
    process exits. Otherwise [/health] and [/status] are answered 200, and
    any other path than [/health], [/status] and [/poll], and [/poll] with a
    method other than POST, is answered 404; these answers carry their JSON
    body unless the method is HEAD. A request is left without an answer
    exactly when its URL is rejected or it is a [POST /poll] that finds the
    flag clear. *)
Theorem requests_read_only_on_arrival (s : Server.State) (id : nat) (r : Server.Request) :
  let out := Server.on_request s id r in
  let sent (b : JsVal) := if String.eqb (Server.method r) "HEAD" then JUndefined else b in
  Server.heap (fst out) = Server.heap s
  /\ Server.world (fst out) = Server.world s
  /\ Server.active (fst out) = Server.active s
  /\ (Server.method r = "OPTIONS" ->
      out = (s, Some {| Server.status_code := 204; Server.body := JUndefined |}))
  /\ (Server.method r <> "OPTIONS" -> Server.pathname r = None ->
      snd out = None
      /\ Server.crashed (fst out) = true
      /\ Server.awaiting_body (fst out) = Server.awaiting_body s)
  /\ (Server.method r <> "OPTIONS" -> Server.pathname r = Some "/health" ->
      out = (s, Some {| Server.status_code := 200;
                        Server.body := sent (Server.health_body (Server.heap s)) |}))
  /\ (Server.method r <> "OPTIONS" -> Server.pathname r = Some "/status" ->
      out = (s, Some {| Server.status_code := 200;
                        Server.body :=
                          sent (Server.stats_json (current (Server.heap s))) |}))
  /\ (forall p : string,
        Server.method r <> "OPTIONS" -> Server.pathname r = Some p ->
        p <> "/health" -> p <> "/status" ->
        p <> "/poll" \/ Server.method r <> "POST" ->
        out = (s, Some {| Server.status_code := 404;
                          Server.body := sent Server.not_found_body |}))
  /\ (snd out = None <->
      Server.method r <> "OPTIONS"
      /\ (Server.pathname r = None
          \/ (Server.method r = "POST" /\ Server.pathname r = Some "/poll"
              /\ Stats.running (current (Server.heap s)) = false)))
  /\ (Server.crashed (fst out) = true <->
      Server.crashed s = true
      \/ (Server.method r <> "OPTIONS" /\ Server.pathname r = None))
  /\ (forall (P : Platform) (cfg : Config) (e : Server.Event),
        Server.crashed (fst out) = true ->
        let after := Server.step P cfg (fst out) e in
        snd after = None
        /\ Server.heap (fst after) = Server.heap s
        /\ Server.world (fst after) = Server.world s
        /\ Server.active (fst after) = Server.active s
        /\ Server.crashed (fst after) = true).
Proof.
  cbn zeta.
  assert (Hdead : forall (P : Platform) (cfg : Config) (e : Server.Event) (s0 : Server.State),
             Server.crashed s0 = true ->
             snd (Server.step P cfg s0 e) = None
             /\ Server.heap (fst (Server.step P cfg s0 e)) = Server.heap s0
             /\ Server.world (fst (Server.step P cfg s0 e)) = Server.world s0
             /\ Server.active (fst (Server.step P cfg s0 e)) = Server.active s0
             /\ Server.crashed (fst (Server.step P cfg s0 e)) = true).
  { intros P cfg e s0 Hc. unfold Server.step.
    destruct e; rewrite ?Hc; cbn [fst snd Server.heap Server.world Server.active
                                  Server.crashed]; repeat split; assumption. }
  assert (Hsame : Server.heap (fst (Server.on_request s id r)) = Server.heap s
                  /\ Server.world (fst (Server.on_request s id r)) = Server.world s
                  /\ Server.active (fst (Server.on_request s id r)) = Server.active s).
  { unfold Server.on_request. destruct (Server.route s r); repeat split. }
  destruct Hsame as (Hh0 & Hw0 & Ha0).
  assert (Hroute :
    (Server.method r = "OPTIONS" ->
     Server.on_request s id r
     = (s, Some {| Server.status_code := 204; Server.body := JUndefined |}))
    /\ (Server.method r <> "OPTIONS" -> Server.pathname r = None ->
        snd (Server.on_request s id r) = None
        /\ Server.crashed (fst (Server.on_request s id r)) = true
        /\ Server.awaiting_body (fst (Server.on_request s id r)) = Server.awaiting_body s)
    /\ (Server.method r <> "OPTIONS" -> Server.pathname r = Some "/health" ->
        Server.on_request s id r
        = (s, Some {| Server.status_code := 200;
                      Server.body :=
                        if String.eqb (Server.method r) "HEAD" then JUndefined
                        else Server.health_body (Server.heap s) |}))
    /\ (Server.method r <> "OPTIONS" -> Server.pathname r = Some "/status" ->
        Server.on_request s id r
        = (s, Some {| Server.status_code := 200;
                      Server.body :=
                        if String.eqb (Server.method r) "HEAD" then JUndefined
                        else Server.stats_json (current (Server.heap s)) |}))
    /\ (forall p : string,
          Server.method r <> "OPTIONS" -> Server.pathname r = Some p ->
          p <> "/health" -> p <> "/status" ->
          p <> "/poll" \/ Server.method r <> "POST" ->
          Server.on_request s id r
          = (s, Some {| Server.status_code := 404;
                        Server.body :=
                          if String.eqb (Server.method r) "HEAD" then JUndefined
                          else Server.not_found_body |}))
    /\ (snd (Server.on_request s id r) = None <->
        Server.method r <> "OPTIONS"
        /\ (Server.pathname r = None
            \/ (Server.method r = "POST" /\ Server.pathname r = Some "/poll"
                /\ Stats.running (current (Server.heap s)) = false)))
    /\ (Server.crashed (fst (Server.on_request s id r)) = true <->
        Server.crashed s = true
        \/ (Server.method r <> "OPTIONS" /\ Server.pathname r = None))).
  { clear Hdead Hh0 Hw0 Ha0.
    unfold Server.on_request, Server.route, Server.respond.
    destruct (String.eqb_spec (Server.method r) "OPTIONS") as [Ho | Ho];
      [| destruct (Server.pathname r) as [p |] eqn:Hpath;
         [ destruct (String.eqb_spec p "/health") as [Hh | Hh];
           [| destruct (String.eqb_spec p "/status") as [Hs | Hs];
              [| destruct (String.eqb_spec p "/poll") as [Hp | Hp];
                 destruct (String.eqb_spec (Server.method r) "POST") as [Hm | Hm];
                 cbn [andb];
                 try destruct (Stats.running (current (Server.heap s))) eqn:Hrun]] |]].
    all: repeat match goal with
                | |- _ /\ _ => split
                | |- _ <-> _ => split
                end;
         cbn [fst snd Server.heap Server.world Server.active Server.crashed
              Server.awaiting_body];
         intros;
         repeat match goal with
                | H : _ /\ _ |- _ => destruct H
                | H : _ \/ _ |- _ => destruct H
                | H : Some _ = Some _ |- _ => injection H as H; subst
                end;
         try reflexivity; try contradiction; try discriminate; try congruence;
         try (left; assumption);
         try (right; split; [assumption | reflexivity]);
         try (split; [assumption | left; reflexivity]);
         try (split; [assumption | right; repeat split; congruence]);
         try (split; [reflexivity | split; reflexivity]). }
  destruct Hroute as (R1 & R2 & R3 & R4 & R5 & R6 & R7).
  refine (conj Hh0 (conj Hw0 (conj Ha0 (conj R1 (conj R2 (conj R3 (conj R4
            (conj R5 (conj R6 (conj R7 _)))))))))).
  intros P cfg e Hc. destruct (Hdead P cfg e _ Hc) as (H1 & H2 & H3 & H4 & H5).
  rewrite H2, H3, H4, Hh0, Hw0, Ha0. auto.
Qed.

Lemma requests_read_only_on_arrival_witness :
  snd (Server.on_request (demo_polling demo_platform (default_config false)) 9
         {| Server.method := "GET"; Server.pathname := None |}) = None
  /\ Server.crashed
       (fst (Server.on_request (demo_polling demo_platform (default_config false)) 9
               {| Server.method := "GET"; Server.pathname := None |})) = true
  /\ Server.on_request (demo_polling demo_platform (default_config false)) 9
       {| Server.method := "HEAD"; Server.pathname := Some "/poll" |}
     = (demo_polling demo_platform (default_config false),
        Some {| Server.status_code := 404; Server.body := JUndefined |}).
Proof.
  pose proof (requests_read_only_on_arrival
                (demo_polling demo_platform (default_config false)) 9
                {| Server.method := "GET"; Server.pathname := None |}) as H.
  cbv zeta in H. destruct H as (_ & _ & _ & _ & H & _).
  destruct H as (H1 & H2 & _); [discriminate | reflexivity |].
  pose proof (requests_read_only_on_arrival
                (demo_polling demo_platform (default_config false)) 9
                {| Server.method := "HEAD"; Server.pathname := Some "/poll" |}) as H.
  cbv zeta in H. destruct H as (_ & _ & _ & _ & _ & _ & _ & H & _).
  split; [exact H1 | split; [exact H2 |]].
  apply (H "/poll"); try discriminate; try reflexivity. right. discriminate.
Defined.

Lemma post_poll_starts_run (P : Platform) (s : Server.State) (id : nat) (reqBody : JsVal) :
  Server.awaiting_body s = [] ->
  Stats.running (current (Server.heap s)) = false ->
  fst (Server.post_poll P s id reqBody None)
  = {| Server.heap := resetStats (Server.heap s);
       Server.world := Server.world s;
       Server.awaiting_body := [];
       Server.active :=
         Server.active s
         ++ [(id, {| Server.run_ref := pollStats (resetStats (Server.heap s));
                     Server.run_syncAll := Server.syncAll_of reqBody;
                     Server.started_at := Server.now s |})];
       Server.now := Server.now s;
       Server.crashed := Server.crashed s |}.
Proof.
  intros Haw Hidle. unfold Server.post_poll, Server.serve, Server.on_request, Server.route, Server.respond. simpl.
  rewrite Hidle. unfold Server.on_body_read.
  cbn [Server.awaiting_body Server.heap Server.world Server.active Server.now].
  rewrite Haw. cbn [app existsb filter]. rewrite Nat.eqb_refl. cbn [orb negb fst].
  reflexivity.
Qed.

(** X21. What [/status] shows after a run. On a server where no run
    is active, a [POST /poll] followed by the end of the run it started
    leaves the store as [handlePoll]'s body left it, and [/status] then
    answers 200 with the counters and errors of that run and
    [running: false]. In particular, when no integration is configured the
    snapshot is all zeros with no error. *)
Theorem status_after_run (P : Platform) (cfg : Config) (s : Server.State) (id : nat)
  (reqBody : JsVal) (query : JsError + list IntegWorld) :
  Server.single_flight s ->
  Stats.running (current (Server.heap s)) = false ->
  (forall err, query = inl err -> is_nullish err = false) ->
  let s1 := fst (Server.post_poll P s id reqBody None) in
  let s2 := Server.on_settle P cfg s1 id query in
  let body := handlePoll_try P cfg (Server.syncAll_of reqBody) query
                (Server.world s, Stats.fresh true) in
  Server.world s2 = fst (fst body)
  /\ Server.active s2 = []
  /\ Server.on_request s2 (S id) GET_status
     = (s2, Some {| Server.status_code := 200;
                    Server.body :=
                      Server.stats_json (Stats.set_running false (snd (fst body))) |})
  /\ (query = inr [] ->
      current (Server.heap s2) = Stats.fresh false).
Proof.
  intros (Haw & Hbound & Hact) Hidle Hquery. cbn zeta.
  destruct (Server.active s) as [| [k r0] [| x xs]] eqn:Ha;
    [| destruct Hact as [_ Hact]; congruence | destruct Hact].
  rewrite (post_poll_starts_run P s id reqBody Haw Hidle), Ha. cbn [app].
  unfold Server.on_settle. cbn [Server.active Server.lookup_id]. rewrite Nat.eqb_refl.
  cbn [Server.run_ref Server.run_syncAll Server.world Server.heap].
  destruct (current_after_settle P cfg (Server.syncAll_of reqBody) query (Server.world s)
              (resetStats (Server.heap s))) as (Hst & Hcur).
  { unfold resetStats; simpl. rewrite length_app; simpl. lia. }
  rewrite current_resetStats in Hcur, Hst.
  assert (Hret : snd (handlePoll_settle P cfg (pollStats (resetStats (Server.heap s)))
                        (Server.syncAll_of reqBody) query
                        (Server.world s, resetStats (Server.heap s))) = Returned).
  { unfold handlePoll_settle. cbn [fst snd]. fold (current (resetStats (Server.heap s))).
    rewrite current_resetStats.
    unfold handlePoll_try.
    destruct query as [err | [| w ws]]; [| reflexivity | reflexivity].
    rewrite (Hquery err eq_refl). reflexivity. }
  destruct (handlePoll_settle P cfg (pollStats (resetStats (Server.heap s)))
              (Server.syncAll_of reqBody) query
              (Server.world s, resetStats (Server.heap s))) as [[st h] completion].
  cbn [fst snd] in Hst, Hcur, Hret. subst completion.
  cbn [Server.world Server.active Server.remove_id filter fst]. rewrite Nat.eqb_refl.
  cbn [negb].
  split; [exact Hst |]. split; [reflexivity |]. split.
  - unfold Server.on_request, Server.route, Server.respond. simpl. rewrite Hcur. reflexivity.
  - intros ->. cbn [Server.heap]. rewrite Hcur. reflexivity.
Qed.

Lemma status_after_run_witness :
  let s2 := Server.on_settle demo_platform (default_config false)
              (fst (Server.post_poll demo_platform (Server.initial empty_store) 1
                      (JObj []) None)) 1 (inr []) in
  current (Server.heap s2) = Stats.fresh false.
Proof.
  apply (status_after_run demo_platform (default_config false) (Server.initial empty_store)
           1 (JObj []) (inr [])).
  - repeat split. simpl. lia.
  - reflexivity.
  - intros err H. discriminate.
  - reflexivity.
Defined.

(** X23. A run that cannot start is reported. When [createClient] throws
    in a [POST /poll] that found the flag clear, the request is still
    answered 202 with a freshly reset status record that says
    [running: true]; no run becomes active and the store is untouched; and
    once the handler has finished the status record has [running: false],
    all counters zero and [String(err)] as its only error, so that
    [/status] shows the failure and the next [POST /poll] is accepted. *)
Theorem failed_start_is_reported (P : Platform) (s : Server.State) (id : nat)
  (reqBody : JsVal) (err : JsError) :
  Server.awaiting_body s = [] ->
  Stats.running (current (Server.heap s)) = false ->
  let out := Server.post_poll P s id reqBody (Some err) in
  let s1 := fst out in
  let report := Stats.push_error (String_of_error P err) (Stats.fresh false) in
  snd out
  = Some {| Server.status_code := 202;
            Server.body :=
              JObj [ ("message", JStr "Polling started in background");
                     ("stats", Server.stats_json (Stats.fresh true)) ] |}
  /\ Server.world s1 = Server.world s
  /\ Server.active s1 = Server.active s
  /\ Server.awaiting_body s1 = []
  /\ current (Server.heap s1) = report
  /\ snd (Server.on_request s1 (S id) GET_status)
     = Some {| Server.status_code := 200; Server.body := Server.stats_json report |}
  /\ snd (Server.on_request s1 (S id) POST_poll) = None.
Proof.
  intros Haw Hidle. cbn zeta.
  unfold Server.post_poll, Server.serve, Server.on_request, Server.route, Server.respond. simpl.
  rewrite Hidle. unfold Server.on_body_read.
  cbn [Server.awaiting_body Server.heap Server.world Server.active Server.now].
  rewrite Haw. cbn [app existsb filter]. rewrite Nat.eqb_refl.
  cbn [orb negb fst snd Server.world Server.active Server.awaiting_body Server.heap].
  assert (Hcur : current (background_catch P err (resetStats (Server.heap s)))
                 = Stats.push_error (String_of_error P err) (Stats.fresh false)).
  { unfold background_catch, current.
    rewrite pollStats_modify, deref_modify.
    fold (current (resetStats (Server.heap s))). rewrite current_resetStats.
    unfold resetStats at 1 2. cbn [pollStats objects]. rewrite length_app.
    cbn [List.length].
    assert (Hlt : (List.length (objects (Server.heap s))
                   <? List.length (objects (Server.heap s)) + 1)%nat = true)
      by (apply Nat.ltb_lt; lia).
    rewrite Hlt. reflexivity. }
  unfold Server.accepted_body. rewrite current_resetStats, Hcur.
  repeat split; reflexivity.
Qed.

Lemma failed_start_is_reported_witness :
  current (Server.heap
             (fst (Server.post_poll demo_platform (Server.initial empty_store) 1 (JObj [])
                     (Some (ErrError "Error" "supabaseUrl is required." false)))))
  = Stats.push_error "Error: supabaseUrl is required." (Stats.fresh false).
Proof.
  pose proof (failed_start_is_reported demo_platform (Server.initial empty_store) 1
                (JObj []) (ErrError "Error" "supabaseUrl is required." false)
                eq_refl eq_refl) as H.
  cbv zeta in H. destruct H as (_ & _ & _ & _ & H & _). exact H.
Defined.

(** ** Generation requests *)

Lemma join_cons (sep x : string) (xs : list string) :
  xs <> [] -> join sep (x :: xs) = (x ++ sep ++ join sep xs)%string.
Proof. destruct xs; [congruence | reflexivity]. Qed.

Lemma clean_start_app (x y : string) :
  is_empty x = false -> clean_start x -> clean_start (x ++ y).
Proof. destruct x; simpl; [discriminate | auto]. Qed.

(** Joining trimmed, non-empty texts gives a trimmed, non-empty text. *)
Lemma join_trimmed (sep : string) (xs : list string) :
  xs <> [] ->
  Forall (fun t => is_empty t = false /\ trimmed t) xs ->
  is_empty (join sep xs) = false /\ trimmed (join sep xs).
Proof.
  induction xs as [| x xs IH]; [congruence |].
  intros _ Hall. inversion Hall as [| ? ? [Hx Ht] Hrest]; subst.
  destruct xs as [| y ys]; [split; assumption |].
  rewrite join_cons by discriminate.
  destruct (IH ltac:(discriminate) Hrest) as [Hne Htr].
  split; [apply append_nonempty, Hx |].
  apply trimmed_iff. apply trimmed_iff in Ht, Htr. split.
  - apply clean_start_app; tauto.
  - rewrite <- str_app_assoc. apply trimEnd_app; tauto.
Qed.

Lemma part_text_trimmed (part : JsVal) : trimmed (part_text part).
Proof. apply normalizeString_trimmed. reflexivity. Qed.

Lemma filter_nil_Forall {A} (f : A -> bool) (l : list A) :
  filter f l = [] -> Forall (fun x => f x = false) l.
Proof.
  induction l as [| x l IH]; simpl; [constructor |].
  destruct (f x) eqn:Hx; [discriminate |]. intros H. constructor; auto.
Qed.

(** The text taken from the candidate parts is already in normal form. *)
Lemma candidateText_normal (response : GenResponse) (parts : list JsVal) :
  candidate_parts response = Some parts ->
  normalizeString (candidateText response) EmptyString
  = join newline (filter (fun t => negb (is_empty t)) (map part_text parts)).
Proof.
  intros Hp. unfold candidateText. rewrite Hp, normalizeString_trim.
  set (xs := filter _ _).
  destruct xs as [| x xs'] eqn:Hxs; [reflexivity |].
  apply (join_trimmed newline (x :: xs')); [discriminate |].
  rewrite <- Hxs. subst xs. apply Forall_forall. intros t Ht.
  apply filter_In in Ht. destruct Ht as [Hin Hne].
  apply negb_true_iff in Hne. split; [exact Hne |].
  apply in_map_iff in Hin. destruct Hin as (p & <- & _). apply part_text_trimmed.
Qed.

(** X22. What [generateStructuredJson] returns and when it throws. A
    returned [responseText] is never empty and is trimmed; it is the
    trimmed [response.text] when that is not blank, and otherwise the
    non-blank trimmed part texts of the first candidate joined by line
    breaks, with nothing else removed; [parsed] is [JSON.parse] of exactly
    that text. It throws [GEMINI_API_KEY is not set] without looking at any
    response when no key is configured, passes on what the request threw,
    throws [Gemini returned an empty response] exactly when [response.text]
    and every part text are blank, and otherwise wraps the error of
    [JSON.parse]. *)
Theorem generateStructuredJson_result (P : Platform) (cfg : Config)
  (JSON_parse : string -> JsError + JsVal) (call : JsError + GenResponse) :
  match generateStructuredJson P cfg JSON_parse call with
  | GenOk parsed text metadata =>
      exists response,
        ai cfg = true /\ call = inr response
        /\ is_empty text = false /\ trimmed text
        /\ JSON_parse text = inr parsed
        /\ metadata = candidate_urlContextMetadata response
        /\ (text = normalizeString (response_text response) EmptyString
            \/ (normalizeString (response_text response) EmptyString = EmptyString
                /\ exists parts,
                     candidate_parts response = Some parts
                     /\ text = join newline
                                 (filter (fun t => negb (is_empty t))
                                    (map part_text parts))))
  | GenFail err =>
      (ai cfg = false /\ err = ErrError "Error" "GEMINI_API_KEY is not set" false)
      \/ (ai cfg = true /\ call = inl err)
      \/ (exists response,
            ai cfg = true /\ call = inr response
            /\ ((err = ErrError "Error" "Gemini returned an empty response" false
                 /\ normalizeString (response_text response) EmptyString = EmptyString
                 /\ forall parts, candidate_parts response = Some parts ->
                                  Forall (fun p => part_text p = EmptyString) parts)
                \/ exists text e,
                     is_empty text = false
                     /\ JSON_parse text = inl e
                     /\ err = ErrError "Error"
                                ("Gemini returned invalid JSON: " ++ serializeError P e)
                                false))
  end.
Proof.
  unfold generateStructuredJson.
  destruct (ai cfg); cbn [negb]; [| left; auto].
  destruct call as [err | response]; [right; left; auto |].
  cbv zeta.
  set (t1 := normalizeString (response_text response) EmptyString).
  assert (Ht1 : trimmed t1) by (apply normalizeString_trimmed; reflexivity).
  destruct (is_empty t1) eqn:He1.
  - assert (Hnil : t1 = EmptyString) by (destruct t1; [reflexivity | discriminate]).
    destruct (candidate_parts response) as [parts |] eqn:Hp.
    + rewrite (candidateText_normal response parts Hp).
      set (xs := filter (fun t => negb (is_empty t)) (map part_text parts)).
      destruct (is_empty (join newline xs)) eqn:He2.
      * right; right. exists response. split; [reflexivity |]. split; [reflexivity |].
        left. split; [reflexivity |]. split; [exact Hnil |].
        intros parts' Hp'. rewrite Hp in Hp'. injection Hp' as <-.
        assert (Hxs : xs = []).
        { destruct xs as [| x xs'] eqn:Hxs; [reflexivity |].
          assert (Hall : Forall (fun t => is_empty t = false /\ trimmed t) (x :: xs')).
          { rewrite <- Hxs. subst xs. apply Forall_forall. intros t Ht.
            apply filter_In in Ht. destruct Ht as [Hin Hne].
            apply negb_true_iff in Hne. split; [exact Hne |].
            apply in_map_iff in Hin. destruct Hin as (p & <- & _).
            apply part_text_trimmed. }
          destruct (join_trimmed newline (x :: xs') ltac:(discriminate) Hall) as [H _].
          congruence. }
        apply filter_nil_Forall in Hxs. apply Forall_map in Hxs.
        eapply Forall_impl; [| exact Hxs]. intros p Hpe. simpl in Hpe.
        apply negb_false_iff in Hpe. destruct (part_text p); [reflexivity | discriminate].
      * assert (Htr : trimmed (join newline xs)).
        { unfold xs. rewrite <- (candidateText_normal response parts Hp).
          apply normalizeString_trimmed. reflexivity. }
        destruct (JSON_parse (join newline xs)) as [e | parsed] eqn:Hj.
        -- right; right. exists response. split; [reflexivity |]. split; [reflexivity |].
           right. exists (join newline xs), e. auto.
        -- exists response. repeat split; auto.
           right. split; [exact Hnil |]. exists parts. auto.
    + unfold candidateText. rewrite Hp. cbn [normalizeString is_empty].
      right; right. exists response. split; [reflexivity |]. split; [reflexivity |].
      left. split; [reflexivity |]. split; [exact Hnil |]. intros parts Hp'. congruence.
  - rewrite He1. destruct (JSON_parse t1) as [e | parsed] eqn:Hj.
    + right; right. exists response. split; [reflexivity |]. split; [reflexivity |].
      right. exists t1, e. auto.
    + exists response. repeat split; auto.
Qed.
